(** * coffea.nanoevents.transforms: index translation, decay-graph kernels,
      range mapping and the transform stack

    A shallow embedding of [src/coffea/nanoevents/transforms.py].

    - numpy / awkward integer buffers are [list Z]; 64-bit results are
      reduced with [wrap64], the two's-complement wrap-around of int64, and
      sums of narrower integers with [wrap_dtype], at their own width;
    - jagged arrays are nested lists (the offsets/content pair of a
      ListOffsetArray read back as its sublists);
    - a Python exception is [Raise e]; the one unbounded [while] loop of the
      module runs on fuel and yields [Diverge] when the fuel is used up;
    - the stack of the transform engine is a Python list: index 0 is the
      bottom, [pop] takes the last element, [push] appends;
    - forms are nested Python dicts, here finite maps over string keys. *)

From stdpp Require Import gmap strings list fin_maps.
From Stdlib Require Import ZArith Lia Bool.

Set Warnings "-register-all".
Local Open Scope Z_scope.

(** ** Outcomes *)

Inductive exn : Type :=
| IndexError
| KeyError
| ValueError
| TypeError
| AttributeError
| RuntimeError (msg : string).

Inductive outcome (A : Type) : Type :=
| Done (a : A)
| Raise (e : exn)
| Diverge.

Arguments Done {A} a.
Arguments Raise {A} e.
Arguments Diverge {A}.

Global Instance outcome_ret : MRet outcome := fun A a => Done a.
Global Instance outcome_bind : MBind outcome := fun A B k m =>
  match m with
  | Done a => k a
  | Raise e => Raise e
  | Diverge => Diverge
  end.

Global Instance outcome_fmap : FMap outcome := fun A B f m =>
  match m with
  | Done a => Done (f a)
  | Raise e => Raise e
  | Diverge => Diverge
  end.

(** [for x in xs: s = body(s, x)], stopping at the first exception. *)
Fixpoint for_each {A S} (xs : list A) (body : S -> A -> outcome S) (s : S)
  : outcome S :=
  match xs with
  | [] => Done s
  | x :: rest => s' ← body s x; for_each rest body s'
  end.

(** [raise RuntimeError], without a message. *)
Definition no_message : string := EmptyString.

Definition returns {A} (m : outcome A) : Prop := exists a, m = Done a.
Definition terminates {A} (m : outcome A) : Prop := m <> Diverge.

(** ** Integers and arrays *)

Definition int64_min : Z := - 2 ^ 63.
Definition int64_max : Z := 2 ^ 63 - 1.

Definition wrap64 (z : Z) : Z := (z + 2 ^ 63) mod 2 ^ 64 - 2 ^ 63.

Definition in_int64 (z : Z) : Prop := int64_min <= z <= int64_max.

(** [range(a, b)] *)
Definition range (a b : Z) : list Z :=
  map (fun k => a + Z.of_nat k) (seq 0 (Z.to_nat (b - a))).

Definition len {A} (a : list A) : Z := Z.of_nat (length a).

(** [a[i]] on a bounds-checked array: a negative index counts from the end,
    an index outside the array raises. *)
Definition getitem {A} (a : list A) (i : Z) : outcome A :=
  let j := if i <? 0 then i + len a else i in
  if (0 <=? j) && (j <? len a) then
    match a !! Z.to_nat j with
    | Some x => Done x
    | None => Raise IndexError
    end
  else Raise IndexError.

Definition zsum (xs : list Z) : Z := fold_right Z.add 0 xs.

(** Element types of the numeric buffers.  A buffer is a [list Z] whatever
    its dtype: an integer is its value, a float64 its 64-bit pattern (the
    kernels only copy floats). *)
Inductive dtype : Type := int8 | int16 | int32 | int64 | float64.

Global Instance dtype_eq_dec : EqDecision dtype.
Proof. solve_decision. Defined.

Definition itemsize (d : dtype) : Z :=
  match d with int8 => 1 | int16 => 2 | int32 => 4 | int64 => 8 | float64 => 8 end.

(** numpy's promotion on these types: a float wins, otherwise the wider
    integer. *)
Definition result_type (a b : dtype) : dtype :=
  match a, b with
  | float64, _ | _, float64 => float64
  | _, _ => if itemsize a <? itemsize b then b else a
  end.

(** Wrap-around at [bits] bits; the integers of a dtype wrap at its width,
    floats are left as they are. *)
Definition wrap_bits (bits : Z) (z : Z) : Z :=
  (z + 2 ^ (bits - 1)) mod 2 ^ bits - 2 ^ (bits - 1).

Definition wrap_dtype (d : dtype) (z : Z) : Z :=
  match d with
  | float64 => z
  | _ => wrap_bits (8 * itemsize d) z
  end.

(** ** Index translator *)

(** [numpy.cumsum(counts, out=<int64 buffer>)] *)
Fixpoint cumsum (acc : Z) (counts : list Z) : list Z :=
  match counts with
  | [] => []
  | c :: rest => let s := wrap64 (acc + c) in s :: cumsum s rest
  end.

(** The array computed by [counts2offsets]: [offsets[0] = 0], then the
    cumulative sums written into [offsets[1:]]. *)
Definition counts2offsets_array (counts : list Z) : list Z :=
  0 :: cumsum 0 counts.

(** The masking steps of [local2global] on one entry of event [e]:
    [index.mask[index >= 0] + target_offsets[:-1]], then
    [index.mask[index < target_offsets[1:]]], then [fill_none(index, -1)].
    The sum is computed in the dtype [d] that numpy's promotion gives the
    two operands. *)
Definition local2global_entry (d : dtype) (lo hi l : Z) : Z :=
  let step1 : option Z :=
    if l >=? 0 then Some (wrap_dtype d (l + lo)) else None in
  let step2 : option Z :=
    match step1 with
    | Some g => if g <? hi then Some g else None
    | None => None
    end in
  match step2 with Some g => g | None => -1 end.

(** [target_offsets[:-1]] and [target_offsets[1:]] *)
Definition all_but_last {A} (a : list A) : list A := removelast a.
Definition all_but_first {A} (a : list A) : list A := tail a.

(** The broadcast of a jagged array against one value per event: operands
    of the same length are paired event by event; an operand of length one
    is repeated to the length of the other; every other combination raises
    the library's broadcast error. *)
Definition broadcast_events {A B C} (f : A -> B -> C) (xss : list (list B))
    (per_event : list A) : outcome (list (list C)) :=
  if decide (length xss = length per_event)
  then Done (zip_with (fun xs a => map (f a) xs) xss per_event)
  else
    match xss, per_event with
    | [xs], _ => Done (map (fun a => map (f a) xs) per_event)
    | _, [a] => Done (map (map (f a)) xss)
    | _, _ => Raise ValueError
    end.

(** The flat buffer computed by [local2global] from the jagged [index]
    (of dtype [d_index]) and [target_offsets] (of dtype [d_target]).
    [fill_none(index, -1)] turns every integer buffer into an int64 one, so
    that the test of [out.dtype] fails for floats only. *)
Definition local2global_array (d_index : dtype) (index : list (list Z))
    (d_target : dtype) (target_offsets : list Z) : outcome (list Z) :=
  let d := result_type d_index d_target in
  let bounds := combine (all_but_last target_offsets)
                        (all_but_first target_offsets) in
  masked ← broadcast_events
             (fun b l => local2global_entry d (fst b) (snd b) l)
             index bounds;
  let out := concat masked in
  if bool_decide (d = float64)
  then Raise (RuntimeError no_message)
  else Done out.

(** ** Decay graph traversal *)

(** The [while] loop of [_distinctParent_kernel]; [fuel] bounds the number
    of evaluations of its condition. *)
Fixpoint distinctParent_walk (fuel : nat) (allpart_parent allpart_pdg : list Z)
    (thispdg parent : Z) : outcome Z :=
  match fuel with
  | O => Diverge
  | S fuel' =>
      if parent >=? 0 then
        pdg ← getitem allpart_pdg parent;
        if pdg =? thispdg then
          if parent >=? len allpart_pdg
          then Raise (RuntimeError "parent index beyond length of array!")
          else
            parent' ← getitem allpart_parent parent;
            distinctParent_walk fuel' allpart_parent allpart_pdg thispdg parent'
        else Done parent
      else Done parent
  end.

(** The body of the [for i] loop; [out] is the part of the output buffer
    written so far ([out[i]] is written at iteration [i]). *)
Definition distinctParent_body (fuel : nat) (allpart_parent allpart_pdg : list Z)
    (out : list Z) (i : Z) : outcome (list Z) :=
  parent ← getitem allpart_parent i;
  if parent <? 0 then Done (out ++ [-1])
  else
    thispdg ← getitem allpart_pdg i;
    parent' ← distinctParent_walk fuel allpart_parent allpart_pdg thispdg parent;
    Done (out ++ [parent']).

Definition _distinctParent_kernel (fuel : nat)
    (allpart_parent allpart_pdg : list Z) : outcome (list Z) :=
  for_each (range 0 (len allpart_pdg))
           (distinctParent_body fuel allpart_parent allpart_pdg) [].

(** The two preallocated output buffers of the children kernels, as the
    prefixes written so far: [offset0 = length offsets_out] and
    [offset1 = length content_out], since every write goes to the slot at the
    counter, which is then incremented. *)
Record buffers : Type := Buffers { offsets_out : list Z; content_out : list Z }.

(** Body of [for possible_child in range(index, stop_src)]; [n] is
    [len(content1_out)]. *)
Definition children_scan (n : Z) (parentidx : list Z) (index : Z)
    (content : list Z) (possible_child : Z) : outcome (list Z) :=
  p ← getitem parentidx possible_child;
  if p =? index then
    if len content >=? n
    then Raise (RuntimeError "offset1 went out of bounds!")
    else Done (content ++ [possible_child])
  else Done content.

(** Body of [for index in range(start_src, stop_src)]. *)
Definition children_index (n : Z) (parentidx : list Z) (stop_src : Z)
    (b : buffers) (index : Z) : outcome buffers :=
  content ← for_each (range index stop_src)
                     (children_scan n parentidx index) (content_out b);
  if len (offsets_out b) >=? n + 1
  then Raise (RuntimeError "offset0 went out of bounds!")
  else Done (Buffers (offsets_out b ++ [len content]) content).

(** Body of [for record_index in range(len(offsets_in) - 1)]. *)
Definition children_event (offsets_in parentidx : list Z)
    (b : buffers) (record_index : Z) : outcome buffers :=
  start_src ← getitem offsets_in record_index;
  stop_src ← getitem offsets_in (record_index + 1);
  for_each (range start_src stop_src)
           (children_index (len parentidx) parentidx stop_src) b.

(** Returns the written part of [offsets1_out] and [content1_out[:offset1]];
    the slots of [offsets1_out] past [offset0], if any, are uninitialised
    memory of [numpy.empty]. *)
Definition _children_kernel (offsets_in parentidx : list Z) : outcome buffers :=
  for_each (range 0 (len offsets_in - 1))
           (children_event offsets_in parentidx) (Buffers [0] []).

(** Local state of the deep lookup for one particle: the buffers [parents]
    and [parents_with_children] (written prefixes, [offset2] and [offset3]
    being their lengths) and the shared [content_out]. *)
Record deep_state : Type := DeepState {
  parents : list Z;
  parents_with_children : list Z;
  deep_content : list Z
}.

Definition zmem (x : Z) (xs : list Z) : bool := existsb (Z.eqb x) xs.

(** Body of [for possible_child in range(index, stop_src)] in
    [_distinctChildrenDeep_kernel]; [cap] is [stop_src - index], the length
    of the two local buffers, and [n] is [len(content_out)].  The inner
    [for parent_index in range(offset2)] acts at the first match and breaks,
    so it acts iff [possible_parent] occurs in [parents]. *)
Definition deep_scan (n cap : Z) (global_parents global_pdgs : list Z)
    (this_pdg : Z) (s : deep_state) (possible_child : Z) : outcome deep_state :=
  possible_parent ← getitem global_parents possible_child;
  possibe_child_pdg ← getitem global_pdgs possible_child;
  if zmem possible_parent (parents s) then
    if len (parents_with_children s) >=? cap
    then Raise (RuntimeError "offset3 went out of bounds!")
    else
      let pwc := parents_with_children s ++ [possible_parent] in
      if possibe_child_pdg =? this_pdg then
        if len (parents s) >=? cap
        then Raise (RuntimeError "offset2 went out of bounds!")
        else Done (DeepState (parents s ++ [possible_child]) pwc (deep_content s))
      else
        if len (deep_content s) >=? n
        then Raise (RuntimeError "offset1 went out of bounds!")
        else Done (DeepState (parents s) pwc (deep_content s ++ [possible_child]))
  else Done s.

(** Body of [for parent_index in range(1, offset2)]: a relay without
    children is appended to the content. *)
Definition deep_leaf (n : Z) (pwc : list Z) (content : list Z)
    (possible_child : Z) : outcome (list Z) :=
  if negb (zmem possible_child pwc) then
    if len content >=? n
    then Raise (RuntimeError "offset1 went out of bounds! pt2")
    else Done (content ++ [possible_child])
  else Done content.

(** The guard of the deep lookup:
    [global_parents[index] >= 0 and this_pdg != global_pdgs[global_parents[index]]]. *)
Definition lineage_start (global_parents global_pdgs : list Z)
    (this_pdg index : Z) : outcome bool :=
  parent ← getitem global_parents index;
  if parent >=? 0 then
    parent_pdg ← getitem global_pdgs parent;
    Done (negb (this_pdg =? parent_pdg))
  else Done false.

(** Body of [for index in range(start_src, stop_src)]. *)
Definition deep_index (global_parents global_pdgs : list Z) (stop_src : Z)
    (b : buffers) (index : Z) : outcome buffers :=
  let n := len global_parents in
  this_pdg ← getitem global_pdgs index;
  start ← lineage_start global_parents global_pdgs this_pdg index;
  content ←
    (if start : bool then
       s ← for_each (range index stop_src)
                    (deep_scan n (stop_src - index) global_parents global_pdgs
                               this_pdg)
                    (DeepState [index] [] (content_out b));
       for_each (drop 1 (parents s))
                (deep_leaf n (parents_with_children s)) (deep_content s)
     else Done (content_out b));
  if len (offsets_out b) >=? n + 1
  then Raise (RuntimeError "offset0 went out of bounds!")
  else Done (Buffers (offsets_out b ++ [len content]) content).

Definition deep_event (offsets_in global_parents global_pdgs : list Z)
    (b : buffers) (record_index : Z) : outcome buffers :=
  start_src ← getitem offsets_in record_index;
  stop_src ← getitem offsets_in (record_index + 1);
  for_each (range start_src stop_src)
           (deep_index global_parents global_pdgs stop_src) b.

Definition _distinctChildrenDeep_kernel
    (offsets_in global_parents global_pdgs : list Z) : outcome buffers :=
  for_each (range 0 (len offsets_in - 1))
           (deep_event offsets_in global_parents global_pdgs) (Buffers [0] []).

(** The jagged array [ListOffsetArray(Index64(offsets), NumpyArray(content))]
    read back as its sublists [content[offsets[i]:offsets[i+1]]]. *)
Definition slice {A} (content : list A) (a b : Z) : list A :=
  take (Z.to_nat (b - a)) (drop (Z.to_nat a) content).

Definition sublists {A} (offsets : list Z) (content : list A) : list (list A) :=
  map (fun ab => slice content (fst ab) (snd ab))
      (combine (all_but_last offsets) (all_but_first offsets)).

Definition jagged_of (b : buffers) : list (list Z) :=
  sublists (offsets_out b) (content_out b).

(** ** Range mapper *)

(** [awkward.concatenate((begin[:, :, newaxis], end[:, :, newaxis]), axis=2)]:
    the pair [[begin[ev][j], end[ev][j]]] at every position, for operands of
    equal shape; every other combination is rendered as the library's
    error. *)
Fixpoint pair_positions (bs es : list Z) : outcome (list (Z * Z)) :=
  match bs, es with
  | [], [] => Done []
  | b :: bs', e :: es' => rest ← pair_positions bs' es'; Done ((b, e) :: rest)
  | _, _ => Raise ValueError
  end.

Fixpoint pair_events (begin end_ : list (list Z))
  : outcome (list (list (Z * Z))) :=
  match begin, end_ with
  | [], [] => Done []
  | bs :: begin', es :: end' =>
      row ← pair_positions bs es;
      rest ← pair_events begin' end';
      Done (row :: rest)
  | _, _ => Raise ValueError
  end.

(** The snapshot of the builder filled by [get_index_ranges_kernel]. *)
Definition get_index_ranges_kernel (begin_end : list (list (Z * Z)))
  : list (list (list Z)) :=
  map (fun event => map (fun be => range (fst be) (snd be)) event) begin_end.

(** [awkward.sum(a)] of an integer array: the sum of all its entries. *)
Definition awkward_sum3 (a : list (list (list Z))) : Z :=
  wrap64 (zsum (concat (concat a))).

(** [a[a < 0]]: the negative entries of every innermost list. *)
Definition negative_entries (xs : list Z) : list Z :=
  filter (fun x => x < 0) xs.

Definition get_index_ranges (begin end_ : list (list Z))
  : outcome (list (list (list Z))) :=
  begin_end ← pair_events begin end_;
  let ranges := get_index_ranges_kernel begin_end in
  if awkward_sum3 ranges =? 0 then
    Done (map (map (fun be => negative_entries [fst be; snd be])) begin_end)
  else Done ranges.

(** [for x in xs: ys.append(f(x))], stopping at the first exception. *)
Fixpoint map_each {A B} (f : A -> outcome B) (xs : list A) : outcome (list B) :=
  match xs with
  | [] => Done []
  | x :: rest => y ← f x; ys ← map_each f rest; Done (y :: ys)
  end.

(** [get_array_from_indices_kernel]: [builder.real(target[ev][k])] for every
    generated index; [real] is the conversion done by [builder.real]. *)
Definition get_array_from_indices_kernel (real : Z -> Z)
    (indices : list (list (list Z))) (target : list (list Z))
  : outcome (list (list (list Z))) :=
  map_each (fun ev =>
      row ← getitem indices ev;
      map_each (fun ks =>
          map_each (fun k => t ← getitem target ev; x ← getitem t k; Done (real x)) ks)
        row)
    (range 0 (len indices)).

(** [get_array_from_indices_nested_target_kernel] *)
Definition get_array_from_indices_nested_target_kernel (real : Z -> Z)
    (indices : list (list (list Z))) (target : list (list (list Z)))
  : outcome (list (list (list (list Z)))) :=
  map_each (fun ev =>
      row ← getitem indices ev;
      map_each (fun ks =>
          map_each (fun k => t ← getitem target ev; xs ← getitem t k;
                             Done (map real xs)) ks)
        row)
    (range 0 (len indices)).

(** ** Values on the stack *)

(** The arrays the operations receive: numeric buffers of one to four
    dimensions (the inner dimensions jagged), jagged arrays of records, and
    the field names pushed for [item]. *)
Inductive value : Type :=
| Flat (d : dtype) (xs : list Z)
| Jagged (d : dtype) (xss : list (list Z))
| Jagged2 (d : dtype) (xsss : list (list (list Z)))
| Jagged3 (d : dtype) (xssss : list (list (list (list Z))))
| RecordJagged (fields : list string) (rss : list (list (gmap string Z)))
| RecordJagged2 (fields : list string) (rsss : list (list (list (gmap string Z))))
| Str (s : string).

(** The library functions the operations call on arbitrary arrays. *)
Class Library : Type := {
  (** [to_layout(array).<attr>] *)
  layout_attr : string -> value -> outcome value;
  (** [array[field]] *)
  array_getitem : value -> value -> outcome value;
  (** [awkward.broadcast_arrays(a, b)] *)
  broadcast_arrays : value -> value -> outcome (value * value);
  (** conversion of one element from a dtype to another *)
  cast : dtype -> dtype -> Z -> Z
}.

(** [ensure_array]: the numpy buffer of a one-dimensional array; operands of
    another class are rendered as numpy's conversion error. *)
Definition ensure_array (arraylike : value) : outcome (dtype * list Z) :=
  match arraylike with
  | Flat d xs => Done (d, xs)
  | Str _ => Raise TypeError
  | _ => Raise ValueError
  end.

(** [len(array)] *)
Definition value_len (v : value) : Z :=
  match v with
  | Flat _ xs => len xs
  | Jagged _ xss => len xss
  | Jagged2 _ xsss => len xsss
  | Jagged3 _ xssss => len xssss
  | RecordJagged _ rss => len rss
  | RecordJagged2 _ rsss => len rsss
  | Str s => Z.of_nat (String.length s)
  end.

(** [awkward.num(array, axis=1)] *)
Definition num_axis1 (v : value) : outcome (list Z) :=
  match v with
  | Flat _ _ => Raise ValueError
  | Jagged _ xss => Done (map len xss)
  | Jagged2 _ xsss => Done (map len xsss)
  | Jagged3 _ xssss => Done (map len xssss)
  | RecordJagged _ rss => Done (map len rss)
  | RecordJagged2 _ rsss => Done (map len rsss)
  | Str _ => Raise TypeError
  end.

(** [array.fields] *)
Definition fields_of (v : value) : outcome (list string) :=
  match v with
  | RecordJagged fields _ | RecordJagged2 fields _ => Done fields
  | Str _ => Raise AttributeError
  | _ => Done []
  end.

(** A two-dimensional integer array, as the index operands must be. *)
Definition as_jagged (v : value) : outcome (dtype * list (list Z)) :=
  match v with
  | Jagged d xss => Done (d, xss)
  | _ => Raise TypeError
  end.

Definition as_flat (v : value) : outcome (dtype * list Z) :=
  match v with
  | Flat d xs => Done (d, xs)
  | _ => Raise TypeError
  end.

(** [numpy.searchsorted(a, key, side="right")] for one key: the binary
    search numpy runs, whether [a] is sorted or not.  The interval
    [lo, hi) shrinks at every step, so that [hi - lo] steps are enough. *)
Fixpoint binsearch_right (steps : nat) (a : list Z) (key : Z) (lo hi : nat)
  : nat :=
  match steps with
  | O => lo
  | S steps' =>
      if (lo <? hi)%nat then
        let mid := (lo + (hi - lo) / 2)%nat in
        match a !! mid with
        | Some mid_val =>
            if mid_val <=? key
            then binsearch_right steps' a key (mid + 1) hi
            else binsearch_right steps' a key lo mid
        | None => lo
        end
      else lo
  end.

Definition searchsorted_right (a : list Z) (key : Z) : Z :=
  Z.of_nat (binsearch_right (length a) a key 0 (length a)).

(** [awkward.unflatten(content, counts, axis=0)] for a one-dimensional
    array of integer counts: the offsets are the int64 cumulative sums of
    the counts, the last of them must be the length of the content, and the
    lists are read between consecutive offsets.  The counts are not
    required to be non-negative; a list whose stop comes before its start
    is empty. *)
Definition unflatten {A} (content : list A) (counts : list Z)
  : outcome (list (list A)) :=
  let current_offsets := counts2offsets_array counts in
  let position := searchsorted_right current_offsets (len content) - 1 in
  if position >=? len current_offsets then Raise ValueError
  else
    at_position ← getitem current_offsets position;
    if negb (at_position =? len content) then Raise ValueError
    else
      let offsets := take (Z.to_nat (position + 1)) current_offsets in
      let remaining := drop (Z.to_nat position) current_offsets in
      if negb (len remaining =? 1) then Raise ValueError
      else Done (sublists offsets content).

(** ** The operations of the transform stack *)

Definition Stack : Type := list value.

(** [stack.pop()] *)
Definition pop (s : Stack) : outcome (value * Stack) :=
  match last s with
  | Some v => Done (v, removelast s)
  | None => Raise IndexError
  end.

(** [stack.append(v)] *)
Definition push (s : Stack) (v : value) : Stack := s ++ [v].

Section Operations.
Context {lib : Library}.

Definition data (stack : Stack) : outcome Stack := Done stack.

Definition offsets (stack : Stack) : outcome Stack :=
  '(a, stack) ← pop stack; r ← layout_attr "offsets" a; Done (push stack r).

Definition mask (stack : Stack) : outcome Stack :=
  '(a, stack) ← pop stack; r ← layout_attr "mask" a; Done (push stack r).

Definition index (stack : Stack) : outcome Stack :=
  '(a, stack) ← pop stack; r ← layout_attr "index" a; Done (push stack r).

Definition starts (stack : Stack) : outcome Stack :=
  '(a, stack) ← pop stack; r ← layout_attr "starts" a; Done (push stack r).

Definition stops (stack : Stack) : outcome Stack :=
  '(a, stack) ← pop stack; r ← layout_attr "stops" a; Done (push stack r).

Definition tags (stack : Stack) : outcome Stack :=
  '(a, stack) ← pop stack; r ← layout_attr "tags" a; Done (push stack r).

Definition content (stack : Stack) : outcome Stack :=
  '(a, stack) ← pop stack; r ← layout_attr "content" a; Done (push stack r).

Definition counts2offsets (stack : Stack) : outcome Stack :=
  '(a, stack) ← pop stack;
  '(_, counts) ← ensure_array a;
  Done (push stack (Flat int64 (counts2offsets_array counts))).

Definition local2global (stack : Stack) : outcome Stack :=
  '(a, stack) ← pop stack;
  '(d_target, target_offsets) ← ensure_array a;
  '(index, stack) ← pop stack;
  '(d_index, index) ← as_jagged index;
  out ← local2global_array d_index index d_target target_offsets;
  Done (push stack (Flat int64 out)).

Definition counts2nestedindex (stack : Stack) : outcome Stack :=
  '(target_offsets, stack) ← pop stack;
  '(local_counts, stack) ← pop stack;
  '(_, target_offsets) ← as_flat target_offsets;
  total ← getitem target_offsets (-1);
  '(d_counts, local_counts) ← as_jagged local_counts;
  (* "counts must be integers" *)
  if bool_decide (d_counts = float64) then Raise ValueError
  else
    out ← unflatten (range 0 total) (concat local_counts);
    Done (push stack (Jagged int64 out)).

(** [fuel] bounds the [while] loop of the kernel. *)
Definition distinctParent (fuel : nat) (stack : Stack) : outcome Stack :=
  '(pdg, stack) ← pop stack;
  '(parents, stack) ← pop stack;
  '(_, parents) ← as_flat parents;
  '(_, pdg) ← as_flat pdg;
  out ← _distinctParent_kernel fuel parents pdg;
  Done (push stack (Flat int64 out)).

Definition children (stack : Stack) : outcome Stack :=
  '(parents, stack) ← pop stack;
  '(offsets, stack) ← pop stack;
  '(_, offsets) ← as_flat offsets;
  '(_, parents) ← as_flat parents;
  b ← _children_kernel offsets parents;
  Done (push stack (Jagged int64 (jagged_of b))).

Definition distinctChildrenDeep (stack : Stack) : outcome Stack :=
  '(global_pdgs, stack) ← pop stack;
  '(global_parents, stack) ← pop stack;
  '(offsets, stack) ← pop stack;
  '(_, offsets) ← as_flat offsets;
  '(_, global_parents) ← as_flat global_parents;
  '(_, global_pdgs) ← as_flat global_pdgs;
  b ← _distinctChildrenDeep_kernel offsets global_parents global_pdgs;
  Done (push stack (Jagged int64 (jagged_of b))).

(** [numpy.arange(start, stop, step)] for a positive step *)
Definition arange (start stop step : Z) : list Z :=
  map (fun k => start + Z.of_nat k * step)
      (seq 0 (Z.to_nat ((stop - start + step - 1) / step))).

(** [out[pos::step] = vals], for [vals] of the length of the slice: the
    writes at [pos], [pos + step], [pos + 2 * step], ... *)
Fixpoint write_stride (out : list Z) (pos step : nat) (vals : list Z)
  : list Z :=
  match vals with
  | [] => out
  | v :: rest => write_stride (<[pos := v]> out) (pos + step) step rest
  end.

(** numpy's broadcast of a one-dimensional operand to the [count] entries
    of the slice it is assigned to. *)
Definition broadcast_to (count : nat) (vals : list Z) : outcome (list Z) :=
  if decide (length vals = count) then Done vals
  else
    match vals with
    | [v] => Done (replicate count v)
    | _ => Raise ValueError
    end.

(** [nestedindex]: the buffer [out] of [n * len(indexers[0])] entries
    ([numpy.empty], rendered as zeros), the strided writes
    [out[i::n] = idx] of the loop, which convert the entries to int64, the
    offsets [arange(0, len(out) + 1, n)] and the array of lists read
    between them. *)
Definition nestedindex (stack : Stack) : outcome Stack :=
  let indexers := stack in
  let stack : list value := [] in
  let n := length indexers in
  first ← getitem indexers 0;
  let count := Z.to_nat (value_len first) in
  out ← for_each (zip (seq 0 n) indexers)
          (fun out i_idx =>
             '(d, idx) ← as_flat (snd i_idx);
             vals ← broadcast_to count (map (cast d int64) idx);
             Done (write_stride out (fst i_idx) n vals))
          (replicate (n * count) 0);
  let offsets := arange 0 (len out + 1) (Z.of_nat n) in
  Done (push stack (Jagged int64 (sublists offsets out))).

Definition item (stack : Stack) : outcome Stack :=
  '(field, stack) ← pop stack;
  '(array, stack) ← pop stack;
  r ← array_getitem array field;
  Done (push stack r).

Definition eventindex (stack : Stack) : outcome Stack :=
  '(out, stack) ← pop stack;
  '(out, _) ← broadcast_arrays (Flat int64 (range 0 (value_len out))) out;
  Done (push stack out).

(** [_grow_local_index_to_target_shape_kernel] *)
Definition _grow_local_index_to_target_shape_kernel
    (index all_index : list (list Z)) : outcome (list (list Z)) :=
  map_each (fun i =>
      event_all_index ← getitem all_index i;
      event_index ← getitem index i;
      Done (map (fun all_index_value =>
                   if zmem all_index_value event_index
                   then all_index_value else -1) event_all_index))
    (range 0 (len all_index)).

Definition grow_local_index_to_target_shape (stack : Stack) : outcome Stack :=
  '(target, stack) ← pop stack;
  '(index, stack) ← pop stack;
  counts ← num_axis1 target;
  let all_index := map (fun c => range 0 c) counts in
  '(_, index) ← as_jagged index;
  useable_index ← _grow_local_index_to_target_shape_kernel index all_index;
  Done (push stack (Jagged int64 useable_index)).

Definition nested_local2global_stack (stack : Stack) : outcome Stack :=
  '(target_offsets_raw, stack) ← pop stack;
  '(array, stack) ← pop stack;
  match array with
  | Jagged2 d xsss =>
      let counts1 := map len xsss in
      let counts2 := concat (map (map len) xsss) in
      if wrap64 (zsum counts2) =? 0 then Done (push stack array)
      else
        let flat_index := map (fun xss => map (cast d int64) (concat xss)) xsss in
        '(d_target, raw) ← as_flat target_offsets_raw;
        let target_offsets := map (cast d_target int64) raw in
        out ← local2global_array int64 flat_index int64 target_offsets;
        nested_global_flat ← unflatten out counts2;
        nested_global ← unflatten nested_global_flat counts1;
        Done (push stack (Jagged2 int64 nested_global))
  | _ => Raise ValueError
  end.

(** [indices[indices < 0]] *)
Definition negative_indices (indices : list (list (list Z))) : value :=
  Jagged2 int64 (map (map negative_entries) indices).

(** [get_array_from_indices], by [target.ndim]. *)
Definition get_array_from_indices (indices : list (list (list Z)))
    (target : value) : outcome value :=
  match target with
  | Jagged d tss =>
      Jagged2 float64 <$>
        get_array_from_indices_kernel (cast d float64) indices tss
  | RecordJagged _ _ | RecordJagged2 _ _ => Raise TypeError
  | Jagged2 d tsss =>
      Jagged3 float64 <$>
        get_array_from_indices_nested_target_kernel (cast d float64) indices tsss
  | Str _ => Raise AttributeError
  | _ => Raise (RuntimeError "Target array is highly nested.")
  end.

Definition begin_end_mapping (stack : Stack) : outcome Stack :=
  '(target, stack) ← pop stack;
  '(end_, stack) ← pop stack;
  '(begin, stack) ← pop stack;
  '(_, begin) ← as_jagged begin;
  '(_, end_) ← as_jagged end_;
  indices ← get_index_ranges begin end_;
  target_counts ← num_axis1 target;
  out ←
    (if wrap64 (zsum target_counts) =? 0 then Done (negative_indices indices)
     else if wrap64 (zsum (map len indices)) =? 0
          then Done (negative_indices indices)
          else get_array_from_indices indices target);
  Done (push stack out).

(** [get_array_from_indices_xyzrecord_target_kernel], on indices nested
    as [get_index_ranges] returns them. *)
Definition get_array_from_indices_xyzrecord_target_kernel
    (indices : list (list (list Z))) (target : list (list (gmap string Z)))
  : outcome (list (list (list (gmap string Z)))) :=
  let field (r : gmap string Z) (name : string) : outcome Z :=
    match r !! name with Some v => Done v | None => Raise KeyError end in
  map_each (fun ev =>
      row ← getitem indices ev;
      map_each (fun ks =>
          map_each (fun k =>
              t ← getitem target ev; r ← getitem t k; x ← field r "x";
              t ← getitem target ev; r ← getitem t k; y ← field r "y";
              t ← getitem target ev; r ← getitem t k; z ← field r "z";
              Done ({[ "x" := x; "y" := y; "z" := z ]} : gmap string Z)) ks)
        row)
    (range 0 (len indices)).

(** [indices, o1, o2 = get_index_ranges(begin, end)]: the returned array is
    iterated and must hold exactly three events, of which the first
    becomes [indices]. *)
Definition unpack3 {A} (xs : list A) : outcome (A * A * A) :=
  match xs with
  | [a; b; c] => Done (a, b, c)
  | _ => Raise ValueError
  end.

Definition begin_end_mapping_with_xyzrecord (stack : Stack) : outcome Stack :=
  '(target, stack) ← pop stack;
  '(end_, stack) ← pop stack;
  '(begin, stack) ← pop stack;
  '(_, begin) ← as_jagged begin;
  '(_, end_) ← as_jagged end_;
  ranges ← get_index_ranges begin end_;
  '(indices, o1, o2) ← unpack3 ranges;
  fields ← fields_of target;
  if len fields =? 0 then Raise (RuntimeError "Target is a ListOffset.")
  else
    target_counts ← num_axis1 target;
    out ←
      (if wrap64 (zsum target_counts) =? 0
       then Done (Jagged int64 (map negative_entries indices))
       else if wrap64 (zsum (map len indices)) =? 0
            then Done (Jagged int64 (map negative_entries indices))
            else
              (* the kernel iterates [indices[ev][j]], here an integer *)
              Raise TypeError);
    Done (push stack out).

End Operations.

(** A library on the arrays of [value], for running the operations on
    concrete stacks: the offsets and content of a jagged integer array, a
    field of a jagged record array, the broadcast of one number per event
    over a jagged integer array; a conversion keeps the stored number. *)
Definition plain_layout_attr (attr : string) (v : value) : outcome value :=
  match v with
  | Jagged d xss =>
      if String.eqb attr "offsets"
      then Done (Flat int64 (counts2offsets_array (map len xss)))
      else if String.eqb attr "content" then Done (Flat d (concat xss))
      else Raise AttributeError
  | _ => Raise AttributeError
  end.

Definition plain_getitem (array field : value) : outcome value :=
  match array, field with
  | RecordJagged fields rss, Str name =>
      Jagged float64 <$>
        map_each (map_each (fun r : gmap string Z =>
                    match r !! name with
                    | Some x => Done x
                    | None => Raise ValueError
                    end)) rss
  | _, _ => Raise TypeError
  end.

Definition plain_broadcast (a b : value) : outcome (value * value) :=
  match a, b with
  | Flat d xs, Jagged d' yss =>
      rows ← broadcast_events (fun x (_ : Z) => x) yss xs;
      Done (Jagged d rows, Jagged d' yss)
  | _, _ => Raise ValueError
  end.

Definition plain_library : Library := {|
  layout_attr := plain_layout_attr;
  array_getitem := plain_getitem;
  broadcast_arrays := plain_broadcast;
  cast := fun _ _ z => z
|}.

(** ** Forms *)

(** A form is a Python dict of strings, integers, [None] and nested dicts. *)
Inductive json : Type :=
| JNone
| JInt (z : Z)
| JStr (s : string)
| JDict (d : gmap string json).

(** [d[k]] *)
Definition getkey (k : string) (j : json) : outcome json :=
  match j with
  | JDict d => match d !! k with Some v => Done v | None => Raise KeyError end
  | _ => Raise TypeError
  end.

(** [d[k] = v] *)
Definition setkey (k : string) (v : json) (j : json) : outcome json :=
  match j with
  | JDict d => Done (JDict (<[k := v]> d))
  | _ => Raise TypeError
  end.

(** [d.get(k, None)] *)
Definition getkey_default (k : string) (j : json) : outcome json :=
  match j with
  | JDict d => Done (default JNone (d !! k))
  | _ => Raise AttributeError
  end.

Definition as_str (j : json) : outcome string :=
  match j with JStr s => Done s | _ => Raise TypeError end.

(** [form[k].startswith(p)] *)
Definition class_startswith (p : string) (form : json) : outcome bool :=
  c ← getkey "class" form;
  match c with
  | JStr s => Done (String.prefix p s)
  | _ => Raise AttributeError
  end.

(** [form["class"] == c] *)
Definition class_is (c : string) (form : json) : outcome bool :=
  v ← getkey "class" form;
  match v with
  | JStr s => Done (String.eqb s c)
  | _ => Done false
  end.

(** [form[k1][k2] = v] and [form[k1][k2][k3] = v], on the copy the form
    functions build. *)
Definition setkey2 (k1 k2 : string) (v : json) (form : json) : outcome json :=
  inner ← getkey k1 form;
  inner ← setkey k2 v inner;
  setkey k1 inner form.

Definition setkey3 (k1 k2 k3 : string) (v : json) (form : json) : outcome json :=
  inner ← getkey k1 form;
  inner ← setkey2 k2 k3 v inner;
  setkey k1 inner form.

Definition setkey4 (k1 k2 k3 k4 : string) (v : json) (form : json)
  : outcome json :=
  inner ← getkey k1 form;
  inner ← setkey3 k2 k3 k4 v inner;
  setkey k1 inner form.

Definition getkey2 (k1 k2 : string) (form : json) : outcome json :=
  inner ← getkey k1 form; getkey k2 inner.

Definition getkey3 (k1 k2 k3 : string) (form : json) : outcome json :=
  inner ← getkey k1 form; getkey2 k2 k3 inner.

Definition dict (kvs : list (string * json)) : json := JDict (list_to_map kvs).

Definition require (b : bool) : outcome unit :=
  if b then Done tt else Raise (RuntimeError no_message).

(** [all(form["class"].startswith(p) for form in forms)], which stops at
    the first form that fails the test. *)
Fixpoint all_startswith (p : string) (forms : list json) : outcome bool :=
  match forms with
  | [] => Done true
  | form :: rest =>
      ok ← class_startswith p form;
      if ok : bool then all_startswith p rest else Done false
  end.

Section Forms.
(** [coffea.nanoevents.util.concat], which builds a key from its parts. *)
Variable concat : list string -> string.

(** [concat] applied to form values, which must be strings. *)
Definition concat_keys (parts : list json) : outcome json :=
  parts ← map_each as_str parts; Done (JStr (concat parts)).

Definition numpy_int64 : json :=
  dict [("class", JStr "NumpyArray"); ("itemsize", JInt 8);
        ("format", JStr "i"); ("primitive", JStr "int64")].

Definition numpy_float64 : json :=
  dict [("class", JStr "NumpyArray"); ("itemsize", JInt 8);
        ("format", JStr "i"); ("primitive", JStr "float64")].

Definition list_offset (content : json) : json :=
  dict [("class", JStr "ListOffsetArray"); ("offsets", JStr "i64");
        ("content", content)].

Definition counts2offsets_form (counts_form : json) : outcome json :=
  parameters ← getkey_default "parameters" counts_form;
  k ← getkey "form_key" counts_form;
  key ← concat_keys [k; JStr "!counts2offsets"];
  Done (dict [("class", JStr "NumpyArray"); ("itemsize", JInt 8);
              ("format", JStr "i"); ("primitive", JStr "int64");
              ("parameters", parameters); ("form_key", key)]).

Definition local2global_form (index target_offsets : json) : outcome json :=
  ok ← class_startswith "ListOffset" index; _ ← require ok;
  ok ← class_is "NumpyArray" target_offsets; _ ← require ok;
  let form := index in
  ki ← getkey "form_key" index;
  kt ← getkey "form_key" target_offsets;
  key ← concat_keys [ki; kt; JStr "!local2global"];
  form ← setkey2 "content" "form_key" key form;
  form ← setkey2 "content" "itemsize" (JInt 8) form;
  setkey2 "content" "primitive" (JStr "int64") form.

Definition counts2nestedindex_form (local_counts target_offsets : json)
  : outcome json :=
  ok ← class_startswith "ListOffset" local_counts; _ ← require ok;
  ok ← class_is "NumpyArray" target_offsets; _ ← require ok;
  let form := list_offset local_counts in
  form ← setkey3 "content" "content" "itemsize" (JInt 8) form;
  form ← setkey3 "content" "content" "primitive" (JStr "int64") form;
  form ← setkey3 "content" "content" "parameters" (dict []) form;
  kl ← getkey "form_key" local_counts;
  kt ← getkey "form_key" target_offsets;
  key ← concat_keys [kl; kt; JStr "!counts2nestedindex"];
  kl ← getkey "form_key" local_counts;
  form ← setkey "form_key" kl form;
  form ← setkey2 "content" "form_key" key form;
  key' ← concat_keys [key; JStr "!content"];
  setkey3 "content" "content" "form_key" key' form.

Definition distinctParent_form (parents pdg : json) : outcome json :=
  ok ← class_startswith "ListOffset" parents; _ ← require ok;
  ok ← class_startswith "ListOffset" pdg; _ ← require ok;
  kp ← getkey "form_key" parents;
  let form := dict [("class", JStr "ListOffsetArray"); ("offsets", JStr "i64");
                    ("content", numpy_int64); ("form_key", kp)] in
  kpc ← getkey2 "content" "form_key" parents;
  kgc ← getkey2 "content" "form_key" pdg;
  key ← concat_keys [kpc; kgc; JStr "!distinctParent"];
  setkey2 "content" "form_key" key form.

Definition children_form (offsets globalparents : json) : outcome json :=
  ok ← class_startswith "ListOffset" globalparents; _ ← require ok;
  let form := list_offset (list_offset numpy_int64) in
  ko ← getkey "form_key" offsets;
  form ← setkey "form_key" ko form;
  ko ← getkey "form_key" offsets;
  kpc ← getkey2 "content" "form_key" globalparents;
  key ← concat_keys [ko; kpc; JStr "!children"];
  form ← setkey2 "content" "form_key" key form;
  key' ← concat_keys [key; JStr "!content"];
  setkey3 "content" "content" "form_key" key' form.

Definition distinctChildrenDeep_form (offsets global_parents global_pdgs : json)
  : outcome json :=
  ok ← class_startswith "ListOffset" global_parents; _ ← require ok;
  ok ← class_startswith "ListOffset" global_pdgs; _ ← require ok;
  let form := list_offset (list_offset numpy_int64) in
  ko ← getkey "form_key" offsets;
  form ← setkey "form_key" ko form;
  ko ← getkey "form_key" offsets;
  kpc ← getkey2 "content" "form_key" global_parents;
  kgc ← getkey2 "content" "form_key" global_pdgs;
  key ← concat_keys [ko; kpc; kgc; JStr "!distinctChildrenDeep"];
  form ← setkey2 "content" "form_key" key form;
  key' ← concat_keys [key; JStr "!content"];
  setkey3 "content" "content" "form_key" key' form.

Definition nestedindex_form (indices : list json) : outcome json :=
  ok ← all_startswith "ListOffset" indices; _ ← require ok;
  first ← getitem indices 0;
  off ← getkey "offsets" first;
  first ← getitem indices 0;
  let form := dict [("class", JStr "ListOffsetArray"); ("offsets", off);
                    ("content", first)] in
  key ← map_each (getkey2 "content" "form_key") indices;
  key ← concat_keys (key ++ [JStr "!nestedindex"]);
  first ← getitem indices 0;
  kf ← getkey "form_key" first;
  form ← setkey "form_key" kf form;
  form ← setkey2 "content" "form_key" key form;
  key' ← concat_keys [key; JStr "!content"];
  setkey3 "content" "content" "form_key" key' form.

Definition grow_local_index_to_target_shape_form (index target : json)
  : outcome json :=
  ok ← class_startswith "ListOffset" index; _ ← require ok;
  ok ← class_startswith "ListOffset" target; _ ← require ok;
  let form := index in
  kic ← getkey2 "content" "form_key" index;
  ktc ← getkey2 "content" "form_key" target;
  key ← concat_keys [kic; ktc];
  form ← setkey2 "content" "form_key" key form;
  ki ← getkey "form_key" index;
  kt ← getkey "form_key" target;
  key ← concat_keys [ki; kt; JStr "!grow_local_index_to_target_shape"];
  form ← setkey "form_key" key form;
  form ← setkey2 "content" "itemsize" (JInt 8) form;
  setkey2 "content" "primitive" (JStr "int64") form.

Definition nested_local2global_form (array_form target_offsets_form : json)
  : outcome json :=
  ok ← class_startswith "ListOffset" array_form; _ ← require ok;
  ok ← class_startswith "NumpyArray" target_offsets_form; _ ← require ok;
  let form := array_form in
  form ← setkey3 "content" "content" "primitive" (JStr "int64") form;
  ka ← getkey "form_key" array_form;
  kt ← getkey "form_key" target_offsets_form;
  key ← concat_keys [ka; kt; JStr "!nested_local2global_stack";
                     JStr "!content"; JStr "!content"];
  setkey3 "content" "content" "form_key" key form.

Definition begin_end_mapping_form (begin_form end_form target_form : json)
  : outcome json :=
  ok ← class_startswith "ListOffset" begin_form; _ ← require ok;
  ok ← class_startswith "ListOffset" end_form; _ ← require ok;
  ok ← class_startswith "ListOffset" target_form; _ ← require ok;
  let form := list_offset (list_offset numpy_float64) in
  kb ← getkey "form_key" begin_form;
  ke ← getkey "form_key" end_form;
  kt ← getkey "form_key" target_form;
  key ← concat_keys [kb; ke; kt; JStr "!begin_end_mapping"];
  form ← setkey "form_key" key form;
  key1 ← concat_keys [key; JStr "!content"];
  form ← setkey2 "content" "form_key" key1 form;
  key2 ← concat_keys [key; JStr "!content"; JStr "!content"];
  setkey3 "content" "content" "form_key" key2 form.

Definition begin_end_mapping_nested_target_form
    (begin_form end_form target_form : json) : outcome json :=
  ok ← class_startswith "ListOffset" begin_form; _ ← require ok;
  ok ← class_startswith "ListOffset" end_form; _ ← require ok;
  ok ← class_startswith "ListOffset" target_form; _ ← require ok;
  let form := list_offset (list_offset (list_offset numpy_float64)) in
  kb ← getkey "form_key" begin_form;
  ke ← getkey "form_key" end_form;
  kt ← getkey "form_key" target_form;
  key ← concat_keys [kb; ke; kt; JStr "!begin_end_mapping"];
  form ← setkey "form_key" key form;
  key1 ← concat_keys [key; JStr "!content"];
  form ← setkey2 "content" "form_key" key1 form;
  key2 ← concat_keys [key; JStr "!content"; JStr "!content"];
  form ← setkey3 "content" "content" "form_key" key2 form;
  key3 ← concat_keys [key; JStr "!content"; JStr "!content"; JStr "!content"];
  setkey4 "content" "content" "content" "form_key" key3 form.

(** The returned form; the function also writes the computed content key
    into the dict [target_form["content"]] it shares with its argument. *)
Definition begin_end_mapping_with_xyzrecord_form
    (begin_form end_form target_form : json) : outcome json :=
  ok ← class_startswith "ListOffset" begin_form; _ ← require ok;
  ok ← class_startswith "ListOffset" end_form; _ ← require ok;
  ok ← class_startswith "ListOffset" target_form;
  _ ← (if ok : bool then Done tt
       else
         tc ← getkey "content" target_form;
         ok ← class_startswith "RecordArray" tc; require ok);
  tc ← getkey "content" target_form;
  let form := list_offset (list_offset tc) in
  kb ← getkey "form_key" begin_form;
  ke ← getkey "form_key" end_form;
  kt ← getkey "form_key" target_form;
  key ← concat_keys [kb; ke; kt; JStr "!begin_end_mapping"];
  form ← setkey "form_key" key form;
  key1 ← concat_keys [key; JStr "!content"];
  form ← setkey2 "content" "form_key" key1 form;
  key2 ← concat_keys [key; JStr "!content"; JStr "!content"];
  setkey3 "content" "content" "form_key" key2 form.

End Forms.

(** ** Statements of the properties *)

(** The claimed value at an entry [l] of event [e]. *)
Definition local2global_claimed (T : list Z) (e : nat) (l : Z) : Z :=
  let lo := nth e T 0 in
  let hi := nth (S e) T 0 in
  if (0 <=? l) && (l <? hi - lo) then l + lo else -1.

(** No addition [L[i] + T[event(i)]] of a present entry leaves int64. *)
Definition no_overflow (L : list (list Z)) (T : list Z) : Prop :=
  Forall2 (fun row lo => Forall (fun l => 0 <= l -> in_int64 (l + lo)) row)
          L (all_but_last T).

(** The integers of a dtype. *)
Definition in_dtype (d : dtype) (z : Z) : Prop :=
  - 2 ^ (8 * itemsize d - 1) <= z < 2 ^ (8 * itemsize d - 1).

(** No addition [L[i] + T[event(i)]] of a present entry leaves the integers
    of [d], the dtype in which the sum is computed. *)
Definition no_overflow_in (d : dtype) (L : list (list Z)) (T : list Z) : Prop :=
  Forall2 (fun row lo => Forall (fun l => 0 <= l -> in_dtype d (l + lo)) row)
          L (all_but_last T).

(** The walk of the claim: from [p], step to [parent[p]] while [p >= 0] and
    [species[p]] is the tag [s]; [climb s p q] when the walk from [p] stops
    at [q]. *)
Inductive climb (parent pdg : list Z) (s : Z) : Z -> Z -> Prop :=
| climb_stop p :
    p < 0 \/ (exists t, pdg !! Z.to_nat p = Some t /\ t <> s) ->
    climb parent pdg s p p
| climb_step p p' q :
    0 <= p ->
    pdg !! Z.to_nat p = Some s ->
    parent !! Z.to_nat p = Some p' ->
    climb parent pdg s p' q ->
    climb parent pdg s p q.

(** Parents are stored before their children. *)
Definition parents_before_children (parent : list Z) : Prop :=
  forall i p, parent !! i = Some p -> p < Z.of_nat i.

(** What the claim says about entry [i] of the output. *)
Definition distinct_parent_at (parent pdg out : list Z) (i : nat) : Prop :=
  exists p0, parent !! i = Some p0 /\
    (p0 < 0 -> out !! i = Some (-1)) /\
    (0 <= p0 -> exists s q,
        pdg !! i = Some s /\ out !! i = Some q /\ climb parent pdg s p0 q /\
        (q < 0 \/ exists t, pdg !! Z.to_nat q = Some t /\ t <> s)).

(** Entry [r] of an offsets sequence. *)
Definition offset_at (offsets : list Z) (r : nat) : Z := nth r offsets 0.

(** An offsets sequence valid for an array of [n] entries: it starts at 0,
    ends at [n] and never decreases. *)
Definition valid_offsets (offsets : list Z) (n : Z) : Prop :=
  (0 < length offsets)%nat /\
  offset_at offsets 0 = 0 /\
  offset_at offsets (length offsets - 1) = n /\
  forall r, (S r < length offsets)%nat ->
    offset_at offsets r <= offset_at offsets (S r).

(** The positions [j] in [[k, stop)] with [parent[j] = k]. *)
Definition children_of (parentidx : list Z) (stop k : Z) : list Z :=
  filter (fun j => parentidx !! Z.to_nat j = Some k) (range k stop).

(** The children emitted for one event, index after index. *)
Definition event_children (parentidx : list Z) (start stop : Z) : list Z :=
  range start stop ≫= children_of parentidx stop.

(** The children emitted for all events. *)
Definition all_children (offsets parentidx : list Z) : list Z :=
  seq 0 (length offsets - 1) ≫=
    (fun r => event_children parentidx (offset_at offsets r)
                             (offset_at offsets (S r))).

(** Number of particles of event [r]. *)
Definition event_size (offsets : list Z) (r : nat) : nat :=
  Z.to_nat (offset_at offsets (S r) - offset_at offsets r).



Definition xyz (x y z : Z) : gmap string Z := {[ "x" := x; "y" := y; "z" := z ]}.

(** [op] pops [n] entries and pushes one: its result depends only on the
    top [n] entries, taken in the order they were pushed, the entries below
    are left in place, one result is appended; on a shorter stack it does
    not return. *)
Definition pops_and_pushes (n : nat) (op : Stack -> outcome Stack) : Prop :=
  (exists f : list value -> outcome value,
     forall below operands, length operands = n ->
       op (below ++ operands) = (r ← f operands; Done (below ++ [r]))) /\
  (forall stack, (length stack < n)%nat -> ~ returns (op stack)).

(** [op] has a fixed arity. *)
Definition fixed_arity (op : Stack -> outcome Stack) : Prop :=
  exists n, pops_and_pushes n op.

(** Modelled from the spec: [coffea.nanoevents.util.concat] is not under
    src/.  The spec describes a key as the concatenation of the keys of the
    inputs and the operation's name, and an instruction sequence as
    comma-separated tokens ("a,b,!op"): the parts are joined with commas. *)
Definition concat_tokens (parts : list string) : string := String.concat "," parts.

Definition index_form : json :=
  dict [("class", JStr "ListOffsetArray"); ("offsets", JStr "i64");
        ("content", dict [("class", JStr "NumpyArray"); ("itemsize", JInt 4);
                          ("format", JStr "i"); ("primitive", JStr "int32");
                          ("form_key", JStr "idx_c")]);
        ("form_key", JStr "idx")].

Definition target_form : json :=
  dict [("class", JStr "ListOffsetArray"); ("offsets", JStr "i64");
        ("content", dict [("class", JStr "NumpyArray"); ("itemsize", JInt 4);
                          ("format", JStr "f"); ("primitive", JStr "float32");
                          ("form_key", JStr "tgt_c")]);
        ("form_key", JStr "tgt")].

Definition offsets_form : json :=
  dict [("class", JStr "NumpyArray"); ("itemsize", JInt 8);
        ("format", JStr "i"); ("primitive", JStr "int64");
        ("form_key", JStr "off")].

(** The offsets written for consecutive lists appended to a content that
    already holds [acc] entries. *)
Fixpoint running_lengths {A} (acc : nat) (lists : list (list A)) : list Z :=
  match lists with
  | [] => []
  | l :: rest =>
      Z.of_nat (acc + length l) :: running_lengths (acc + length l) rest
  end.

(** The consecutive pieces of [content] of the lengths [counts]. *)
Fixpoint chunks {A} (content : list A) (counts : list Z) : list (list A) :=
  match counts with
  | [] => []
  | c :: counts' =>
      take (Z.to_nat c) content :: chunks (drop (Z.to_nat c) content) counts'
  end.

(** Entry [p] of an operand of [nestedindex] assigned to a slice of [m]
    entries: an operand of another length has one entry, which numpy
    repeats. *)
Definition broadcast_entry (m : nat) (column : list Z) (p : nat) : option Z :=
  if decide (length column = m) then column !! p else column !! 0%nat.

(** A list of positions in increasing order. *)
Definition increasing (l : list Z) : Prop :=
  forall (i j : nat) x y, (i < j)%nat -> l !! i = Some x -> l !! j = Some y -> x < y.

(** The list of children of every particle, event after event. *)
Definition particle_children (offsets parentidx : list Z) : list (list Z) :=
  seq 0 (length offsets - 1) ≫=
    (fun r => map (children_of parentidx (offset_at offsets (S r)))
                  (range (offset_at offsets r) (offset_at offsets (S r)))).

(** The integers emitted by the kernel for [begin] and [end]. *)
Definition emitted_integers (begin end_ : list (list Z)) : list Z :=
  concat (concat (get_index_ranges_kernel (zip_with zip begin end_))).

(** Every pair (begin, end) of event ev denotes a slice of target[ev]. *)
Definition ranges_within (begin end_ tss : list (list Z)) : Prop :=
  Forall2 (fun pairs t => Forall (fun be => 0 <= fst be /\ snd be <= len t) pairs)
    (zip_with zip begin end_) tss.

(** * Properties *)

(** ** Outcome and array lemmas *)

Lemma wrap64_id z : in_int64 z -> wrap64 z = z.
Proof.
  unfold in_int64, int64_min, int64_max, wrap64. intros Hz.
  rewrite Z.mod_small; lia.
Qed.

Lemma elem_of_range a b x : x ∈ range a b <-> a <= x < b.
Proof.
  unfold range. rewrite list_elem_of_fmap. split.
  - intros (k & -> & Hk). apply elem_of_seq in Hk. lia.
  - intros Hx. exists (Z.to_nat (x - a)). split; [lia|].
    apply elem_of_seq. lia.
Qed.

Lemma range_nil a b : b <= a -> range a b = [].
Proof. intros Hab. unfold range. replace (Z.to_nat (b - a)) with 0%nat by lia. done. Qed.

Lemma range_cons a b : a < b -> range a b = a :: range (a + 1) b.
Proof.
  intros Hab. unfold range.
  replace (Z.to_nat (b - a)) with (S (Z.to_nat (b - (a + 1)))) by lia.
  cbn [seq map]. f_equal; [lia|].
  rewrite <- seq_shift, map_map. apply map_ext. intros k. lia.
Qed.

Lemma range_length a b : length (range a b) = Z.to_nat (b - a).
Proof. unfold range. by rewrite length_map, length_seq. Qed.

Lemma NoDup_range a b : NoDup (range a b).
Proof.
  unfold range. apply NoDup_fmap_2; [|apply NoDup_seq].
  intros x y Hxy. lia.
Qed.

Lemma range_0_len {A} (l : list A) :
  range 0 (len l) = map Z.of_nat (seq 0 (length l)).
Proof.
  unfold range, len. rewrite Z.sub_0_r, Nat2Z.id. apply map_ext. intros; lia.
Qed.

Lemma getitem_Done {A} (a : list A) (i : Z) x :
  0 <= i -> a !! Z.to_nat i = Some x -> getitem a i = Done x.
Proof.
  intros Hi Hx. unfold getitem.
  pose proof (lookup_lt_Some _ _ _ Hx) as Hlt.
  destruct (Z.ltb_spec i 0); [lia|].
  unfold len.
  destruct (Z.leb_spec 0 i); [|lia].
  destruct (Z.ltb_spec i (Z.of_nat (length a))); [|lia].
  cbn. by rewrite Hx.
Qed.

Lemma getitem_nat {A} (a : list A) (k : nat) x :
  a !! k = Some x -> getitem a (Z.of_nat k) = Done x.
Proof. intros Hx. apply getitem_Done; [lia|]. by rewrite Nat2Z.id. Qed.

Lemma getitem_nonneg_inv {A} (a : list A) (i : Z) x :
  0 <= i -> getitem a i = Done x -> a !! Z.to_nat i = Some x /\ i < len a.
Proof.
  intros Hi. unfold getitem.
  destruct (Z.ltb_spec i 0); [lia|].
  destruct (Z.leb_spec 0 i); [|lia].
  destruct (Z.ltb_spec i (len a)); cbn; [|done].
  destruct (a !! Z.to_nat i); [|done]. intros [= ->]. done.
Qed.

Lemma getitem_beyond {A} (a : list A) (i : Z) :
  len a <= i -> getitem a i = Raise IndexError.
Proof.
  intros Hi. unfold getitem. unfold len in *.
  destruct (Z.ltb_spec i 0); [lia|].
  destruct (Z.leb_spec 0 i); [|lia].
  destruct (Z.ltb_spec i (Z.of_nat (length a))); [lia|]. done.
Qed.

Lemma getitem_terminates {A} (a : list A) (i : Z) : getitem a i <> Diverge.
Proof.
  unfold getitem.
  destruct ((0 <=? (if i <? 0 then i + len a else i))
            && ((if i <? 0 then i + len a else i) <? len a)); [|done].
  by destruct (a !! _).
Qed.

Lemma bind_ret {A B} (a : A) (k : A -> outcome B) : (Done a ≫= k) = k a.
Proof. reflexivity. Qed.

Lemma bind_Done {A B} (m : outcome A) (k : A -> outcome B) b :
  (m ≫= k) = Done b -> exists a, m = Done a /\ k a = Done b.
Proof. destruct m; cbn; [eauto|done|done]. Qed.

Lemma for_each_app {A S} (xs ys : list A) (body : S -> A -> outcome S) s :
  for_each (xs ++ ys) body s = (for_each xs body s ≫= for_each ys body).
Proof.
  revert s. induction xs as [|x xs IH]; intros s; cbn; [done|].
  destruct (body s x); cbn; [apply IH|done|done].
Qed.

(** ** counts2offsets *)

Lemma cumsum_length acc C : length (cumsum acc C) = length C.
Proof. revert acc. induction C; intros; cbn; [done|]. by rewrite IHC. Qed.

Lemma zsum_cons x xs : zsum (x :: xs) = x + zsum xs.
Proof. reflexivity. Qed.

Lemma zsum_nonneg C : Forall (fun c => 0 <= c) C -> 0 <= zsum C.
Proof. induction 1; rewrite ?zsum_cons; [done|lia]. Qed.

Lemma zsum_app xs ys : zsum (xs ++ ys) = zsum xs + zsum ys.
Proof. induction xs; rewrite <- ?app_comm_cons, ?zsum_cons; [done|lia]. Qed.

Lemma cumsum_steps acc C :
  0 <= acc -> Forall (fun c => 0 <= c) C -> acc + zsum C <= int64_max ->
  forall i c, C !! i = Some c ->
    exists a b, (acc :: cumsum acc C) !! i = Some a /\
                (acc :: cumsum acc C) !! S i = Some b /\ b - a = c.
Proof.
  intros Hacc HC. revert acc Hacc.
  induction HC as [|c0 C Hc0 HC IH]; intros acc Hacc Hsum i c Hi; [done|].
  rewrite zsum_cons in Hsum. pose proof (zsum_nonneg _ HC) as HsC.
  assert (Hw : wrap64 (acc + c0) = acc + c0).
  { apply wrap64_id. unfold in_int64, int64_min, int64_max in *. lia. }
  destruct i as [|i]; cbn in Hi |- *.
  - injection Hi as ->. exists acc, (wrap64 (acc + c)). rewrite Hw. repeat split; lia.
  - rewrite Hw. apply (IH (acc + c0)); [lia|lia|done].
Qed.

Lemma cumsum_last acc C :
  0 <= acc -> Forall (fun c => 0 <= c) C -> acc + zsum C <= int64_max ->
  (acc :: cumsum acc C) !! length C = Some (acc + zsum C).
Proof.
  intros Hacc HC. revert acc Hacc.
  induction HC as [|c0 C Hc0 HC IH]; intros acc Hacc Hsum.
  - cbn. f_equal; lia.
  - rewrite zsum_cons in *. pose proof (zsum_nonneg _ HC) as HsC.
    assert (Hw : wrap64 (acc + c0) = acc + c0).
    { apply wrap64_id. unfold in_int64, int64_min, int64_max in *. lia. }
    change ((wrap64 (acc + c0) :: cumsum (wrap64 (acc + c0)) C) !! length C
            = Some (acc + (c0 + zsum C))).
    rewrite Hw, (IH (acc + c0)); [f_equal; lia|lia|lia].
Qed.

Lemma pop_push (s : Stack) v : pop (s ++ [v]) = Done (v, s).
Proof. unfold pop. by rewrite last_snoc, removelast_last. Qed.

Lemma pop_inv (s s' : Stack) v : pop s = Done (v, s') -> s = s' ++ [v].
Proof.
  unfold pop. destruct (last s) as [x|] eqn:Hl; [|done].
  intros [= -> <-]. destruct s as [|y s] using rev_ind; [done|].
  rewrite last_snoc in Hl. injection Hl as ->. by rewrite removelast_last.
Qed.

(** C8: for non-negative counts whose total fits the 64-bit buffer,
    counts2offsets replaces the counts on top of the stack by a buffer of
    length n+1 that starts at 0, whose consecutive differences are the
    counts, and whose last entry is their sum; for no counts it is [0]. *)
Theorem counts2offsets_prefix_sums (below : Stack) (d : dtype) (C : list Z) :
  Forall (fun c => 0 <= c) C ->
  zsum C <= int64_max ->
  exists result,
    counts2offsets (below ++ [Flat d C]) = Done (below ++ [Flat int64 result]) /\
    length result = S (length C) /\
    result !! 0%nat = Some 0 /\
    (forall i c, C !! i = Some c ->
       exists a b, result !! i = Some a /\ result !! S i = Some b /\ b - a = c) /\
    result !! length C = Some (zsum C) /\
    (C = [] -> result = [0]).
Proof.
  intros HC Hsum. exists (counts2offsets_array C). split_and!.
  - unfold counts2offsets. rewrite pop_push. done.
  - cbn. by rewrite cumsum_length.
  - done.
  - apply cumsum_steps; [lia|done|lia].
  - unfold counts2offsets_array. rewrite cumsum_last; [done|lia|done|lia].
  - by intros ->.
Qed.

Lemma counts2offsets_prefix_sums_witness :
  exists result,
    counts2offsets [Flat int32 [2; 0; 3]] = Done [Flat int64 result] /\
    result = [0; 2; 2; 5].
Proof.
  destruct (counts2offsets_prefix_sums [] int32 [2; 0; 3])
    as (r & Hr & _); [repeat constructor; lia | vm_compute; discriminate |].
  exists r. split; [exact Hr|]. cbn in Hr. by injection Hr as <-.
Defined.

(** ** local2global *)

Lemma wrap_bits_id bits z :
  0 < bits -> - 2 ^ (bits - 1) <= z < 2 ^ (bits - 1) -> wrap_bits bits z = z.
Proof.
  intros Hbits Hz. unfold wrap_bits.
  replace (2 ^ bits) with (2 * 2 ^ (bits - 1)).
  - rewrite Z.mod_small; lia.
  - rewrite <- Z.pow_succ_r by lia. f_equal. lia.
Qed.

Lemma wrap_dtype_id d z : d <> float64 -> in_dtype d z -> wrap_dtype d z = z.
Proof.
  intros Hd Hz. unfold in_dtype in Hz.
  destruct d; try done; cbn [wrap_dtype]; apply wrap_bits_id; cbn [itemsize] in *; lia.
Qed.

Lemma in_dtype_int64 z : in_dtype int64 z <-> in_int64 z.
Proof.
  unfold in_dtype, in_int64, int64_min, int64_max. cbn [itemsize].
  change (8 * 8 - 1) with 63. lia.
Qed.

Lemma no_overflow_in_int64 L T : no_overflow L T -> no_overflow_in int64 L T.
Proof.
  unfold no_overflow, no_overflow_in. intros Hov.
  eapply Forall2_impl; [exact Hov|]. intros row lo Hrow.
  eapply Forall_impl; [exact Hrow|]. intros l Hl Hl0.
  by apply in_dtype_int64, Hl.
Qed.

Lemma local2global_entry_claimed d lo hi l :
  d <> float64 ->
  (0 <= l -> in_dtype d (l + lo)) ->
  local2global_entry d lo hi l
  = if (0 <=? l) && (l <? hi - lo) then l + lo else -1.
Proof.
  intros Hd Hov. unfold local2global_entry.
  destruct (Z.geb_spec l 0) as [Hl|Hl].
  - rewrite wrap_dtype_id by (done || apply Hov; lia).
    destruct (Z.leb_spec 0 l); [|lia]. cbn.
    destruct (Z.ltb_spec (l + lo) hi), (Z.ltb_spec l (hi - lo)); lia || done.
  - destruct (Z.leb_spec 0 l); [lia|]. done.
Qed.

Lemma bounds_length {A} (T : list A) (n : nat) :
  length T = S n -> length (combine (all_but_last T) (all_but_first T)) = n.
Proof.
  intros HT. unfold all_but_last, all_but_first.
  rewrite length_combine, removelast_firstn_len, length_take, length_tl. lia.
Qed.

Lemma local2global_rows (d : dtype) (L : list (list Z)) (T : list Z) :
  length T = S (length L) ->
  d <> float64 ->
  no_overflow_in d L T ->
  broadcast_events (fun b l => local2global_entry d (fst b) (snd b) l) L
                   (combine (all_but_last T) (all_but_first T))
  = Done (imap (fun e row => map (local2global_claimed T e) row) L).
Proof.
  intros HT Hd Hov. unfold broadcast_events.
  rewrite decide_True by (by rewrite (bounds_length T (length L))).
  f_equal. revert T HT Hov. induction L as [|row L IH]; intros T HT Hov.
  - done.
  - destruct T as [|lo [|hi T]]; [done|done|].
    unfold no_overflow_in, all_but_last in Hov.
    change (removelast (lo :: hi :: T)) with (lo :: removelast (hi :: T)) in Hov.
    apply Forall2_cons in Hov as [Hrow Hov].
    unfold all_but_last, all_but_first in *.
    change (removelast (lo :: hi :: T)) with (lo :: removelast (hi :: T)).
    cbn [tail combine zip_with imap].
    specialize (IH (hi :: T)). cbn [tail] in IH. rewrite IH; [|cbn in *; lia|exact Hov].
    f_equal.
    apply map_ext_in. intros l Hl. rewrite Forall_forall in Hrow.
    cbn [fst snd]. rewrite local2global_entry_claimed; [done|done|].
    apply Hrow. by apply list_elem_of_In.
Qed.

Lemma result_type_integer d_index d_target :
  d_index <> float64 -> d_target <> float64 ->
  result_type d_index d_target <> float64.
Proof.
  intros Hi Ht. unfold result_type.
  destruct d_index, d_target; try done; by destruct (_ <? _).
Qed.

(** C6: for a jagged local index with one sublist per event of the target
    offsets, both of integers, local2global pushes a flat int64 buffer
    holding, event after event, L[i] + T[event(i)] where
    0 <= L[i] < T[event(i)+1] - T[event(i)] and -1 elsewhere; negative and
    out-of-range entries are both -1.  The sums are computed in the dtype
    that promotion gives the two operands, which they must not leave. *)
Theorem local2global_in_range_or_absent (below : Stack) (d_index d_target : dtype)
    (L : list (list Z)) (T : list Z) :
  length T = S (length L) ->
  d_index <> float64 -> d_target <> float64 ->
  no_overflow_in (result_type d_index d_target) L T ->
  local2global (below ++ [Jagged d_index L; Flat d_target T])
  = Done (below ++
          [Flat int64 (concat (imap (fun e row => map (local2global_claimed T e) row) L))])
  /\ (forall e l, l < 0 \/ nth (S e) T 0 - nth e T 0 <= l ->
                  local2global_claimed T e l = -1).
Proof.
  intros HT Hdi Hdt Hov.
  pose proof (result_type_integer _ _ Hdi Hdt) as Hd. split.
  - unfold local2global.
    replace (below ++ [Jagged d_index L; Flat d_target T])
      with ((below ++ [Jagged d_index L]) ++ [Flat d_target T])
      by (by rewrite <- app_assoc).
    rewrite pop_push. cbn. rewrite pop_push. cbn.
    unfold local2global_array. rewrite local2global_rows by done. cbn.
    by rewrite bool_decide_eq_false_2.
  - intros e l Hl. unfold local2global_claimed.
    destruct (Z.leb_spec 0 l); cbn; [|done].
    destruct (Z.ltb_spec l (nth (S e) T 0 - nth e T 0)); [lia|done].
Qed.

Lemma local2global_in_range_or_absent_witness :
  local2global [Jagged int32 [[0; 2; -1]; []; [1; 0]]; Flat int32 [0; 2; 2; 4]]
  = Done [Flat int64 [0; -1; -1; 3; 2]].
Proof.
  refine (proj1 (local2global_in_range_or_absent [] int32 int32
                   [[0; 2; -1]; []; [1; 0]] [0; 2; 2; 4] _ _ _ _)).
  - reflexivity.
  - discriminate.
  - discriminate.
  - unfold no_overflow_in, in_dtype. cbn.
    repeat constructor; lia.
Defined.

(** ** distinctParent *)

Lemma distinctParent_walk_climb fuel parent pdg s p q :
  distinctParent_walk fuel parent pdg s p = Done q ->
  climb parent pdg s p q /\
  (q < 0 \/ exists t, pdg !! Z.to_nat q = Some t /\ t <> s).
Proof.
  revert p. induction fuel as [|fuel IH]; intros p; cbn; [done|].
  destruct (Z.geb_spec p 0) as [Hp|Hp].
  - intros Hrun. apply bind_Done in Hrun as (t & Ht & Hrun).
    apply getitem_nonneg_inv in Ht as [Ht Hlen]; [|lia].
    destruct (Z.eqb_spec t s) as [->|Hne].
    + destruct (Z.geb_spec p (len pdg)); [done|].
      apply bind_Done in Hrun as (p' & Hp' & Hrun).
      apply getitem_nonneg_inv in Hp' as [Hp' _]; [|lia].
      apply IH in Hrun as [Hc Hq]. split; [|done].
      by eapply climb_step.
    + injection Hrun as <-. split; [apply climb_stop|]; right; eauto.
  - intros [= <-]. split; [apply climb_stop|]; left; lia.
Qed.

Lemma distinctParent_body_inv fuel parent pdg out i out' :
  distinctParent_body fuel parent pdg out (Z.of_nat i) = Done out' ->
  exists r, out' = out ++ [r] /\
    exists p0, parent !! i = Some p0 /\
      (p0 < 0 -> r = -1) /\
      (0 <= p0 -> exists s, pdg !! i = Some s /\
                    distinctParent_walk fuel parent pdg s p0 = Done r).
Proof.
  unfold distinctParent_body. intros Hrun.
  apply bind_Done in Hrun as (p0 & Hp0 & Hrun).
  apply getitem_nonneg_inv in Hp0 as [Hp0 _]; [|lia].
  rewrite Nat2Z.id in Hp0.
  destruct (Z.ltb_spec p0 0) as [Hneg|Hpos].
  - injection Hrun as <-. exists (-1). split; [done|].
    exists p0. split_and!; [done|done|lia].
  - apply bind_Done in Hrun as (s & Hs & Hrun).
    apply getitem_nonneg_inv in Hs as [Hs _]; [|lia].
    rewrite Nat2Z.id in Hs.
    apply bind_Done in Hrun as (r & Hr & Hrun). injection Hrun as <-.
    exists r. split; [done|]. exists p0. split_and!; [done|lia|eauto].
Qed.

Lemma distinctParent_loop fuel parent pdg n a out out' :
  for_each (map Z.of_nat (seq a n)) (distinctParent_body fuel parent pdg) out
    = Done out' ->
  length out = a ->
  length out' = (a + n)%nat /\
  (forall i, (i < a)%nat -> out' !! i = out !! i) /\
  (forall i, (a <= i < a + n)%nat -> distinct_parent_at parent pdg out' i).
Proof.
  revert a out. induction n as [|n IH]; intros a out Hrun Hlen.
  - injection Hrun as <-. split_and!; [lia|done|lia].
  - cbn [seq map for_each] in Hrun.
    apply bind_Done in Hrun as (out1 & Hbody & Hrun).
    apply distinctParent_body_inv in Hbody as (r & -> & p0 & Hp0 & Hneg & Hpos).
    apply IH in Hrun as (Hl & Hkeep & Hnew); [|rewrite length_app; cbn; lia].
    split_and!; [lia| |].
    + intros i Hi. rewrite Hkeep by lia. by rewrite lookup_app_l by lia.
    + intros i Hi. destruct (decide (i = a)) as [->|Hne]; [|apply Hnew; lia].
      assert (Hr : out' !! a = Some r).
      { rewrite Hkeep by lia. rewrite lookup_app_r by lia.
        by replace (a - length out)%nat with 0%nat by lia. }
      exists p0. split_and!; [done|by intros ->%Hneg|].
      intros (s & Hs & Hwalk)%Hpos.
      apply distinctParent_walk_climb in Hwalk as [Hc Hq].
      exists s, r. done.
Qed.

Lemma distinctParent_kernel_partial fuel parent pdg out :
  _distinctParent_kernel fuel parent pdg = Done out ->
  length out = length pdg /\
  forall i, (i < length pdg)%nat -> distinct_parent_at parent pdg out i.
Proof.
  unfold _distinctParent_kernel. rewrite range_0_len. intros Hrun.
  apply distinctParent_loop in Hrun as (Hl & _ & Hat); [|done].
  split; [done|]. intros i Hi. apply Hat. lia.
Qed.

(** *** Termination *)

Lemma distinctParent_walk_terminates fuel parent pdg s p :
  parents_before_children parent ->
  (0 <= p /\ p + 2 <= Z.of_nat fuel) \/ (p < 0 /\ (0 < fuel)%nat) ->
  terminates (distinctParent_walk fuel parent pdg s p).
Proof.
  unfold terminates. intros Hpbc. revert p.
  induction fuel as [|fuel IH]; intros p Hp.
  { lia. }
  cbn. destruct (Z.geb_spec p 0) as [Hp0|Hp0]; [|done].
  destruct (getitem pdg p) as [t| |] eqn:Ht; cbn;
    [|done|by apply getitem_terminates in Ht].
  destruct (Z.eqb_spec t s); [|done].
  destruct (Z.geb_spec p (len pdg)); [done|].
  destruct (getitem parent p) as [p'| |] eqn:Hp'; cbn;
    [|done|by apply getitem_terminates in Hp'].
  apply getitem_nonneg_inv in Hp' as [Hp' _]; [|lia].
  apply Hpbc in Hp'. apply IH.
  destruct (Z.ltb_spec p' 0); [right|left]; lia.
Qed.

Lemma for_each_terminates {A S} (xs : list A) (body : S -> A -> outcome S)
    (P : A -> Prop) s :
  (forall s x, P x -> terminates (body s x)) ->
  Forall P xs ->
  terminates (for_each xs body s).
Proof.
  unfold terminates. intros Hbody Hxs. revert s. induction Hxs as [|x xs Hx Hxs IH]; intros s; [done|].
  cbn. specialize (Hbody s x Hx). destruct (body s x); cbn; [apply IH|done|done].
Qed.

Lemma distinctParent_kernel_terminates fuel parent pdg :
  parents_before_children parent ->
  (length parent <= fuel)%nat ->
  terminates (_distinctParent_kernel fuel parent pdg).
Proof.
  intros Hpbc Hfuel. unfold _distinctParent_kernel.
  apply for_each_terminates with (P := fun i => 0 <= i).
  - unfold terminates. intros out i Hi. unfold distinctParent_body.
    destruct (getitem parent i) as [p0| |] eqn:Hp0; cbn;
      [|done|by apply getitem_terminates in Hp0].
    destruct (Z.ltb_spec p0 0); [done|].
    destruct (getitem pdg i) as [s| |] eqn:Hs; cbn;
      [|done|by apply getitem_terminates in Hs].
    apply getitem_nonneg_inv in Hp0 as [Hp0 Hlen]; [|done].
    apply Hpbc in Hp0. unfold len in Hlen.
    pose proof (distinctParent_walk_terminates fuel parent pdg s p0 Hpbc) as Hw.
    destruct (distinctParent_walk fuel parent pdg s p0); [done|done|].
    exfalso. apply Hw; [left; lia|done].
  - apply Forall_forall. intros i Hi%elem_of_range. lia.
Qed.

Lemma distinctParent_walk_self_parent fuel s :
  distinctParent_walk fuel [0] [s] s 0 = Diverge.
Proof.
  induction fuel as [|fuel IH]; [done|].
  cbn. change (getitem [s] 0) with (Done s). cbn. rewrite Z.eqb_refl.
  change (getitem [0] 0) with (Done 0). exact IH.
Qed.

(** C10: when every parent index is smaller than the index of the particle
    that carries it, the kernel terminates (it returns or raises) with any
    fuel of at least the number of particles; a particle that is its own
    parent makes the walk run forever. *)
Theorem distinctParent_terminates_when_parents_first
    (parent pdg : list Z) (fuel : nat) :
  parents_before_children parent ->
  (length parent <= fuel)%nat ->
  terminates (_distinctParent_kernel fuel parent pdg) /\
  (forall fuel' s, _distinctParent_kernel fuel' [0] [s] = Diverge).
Proof.
  intros Hpbc Hfuel. split; [by apply distinctParent_kernel_terminates|].
  intros fuel' s. unfold _distinctParent_kernel.
  change (range 0 (len [s])) with [0]. cbn. unfold distinctParent_body.
  change (getitem [0] 0) with (Done 0). change (getitem [s] 0) with (Done s).
  cbn. by rewrite distinctParent_walk_self_parent.
Qed.

Lemma distinctParent_terminates_when_parents_first_witness :
  terminates (_distinctParent_kernel 3 [-1; 0; 1] [11; 11; 22]).
Proof.
  refine (proj1 (distinctParent_terminates_when_parents_first
                   [-1; 0; 1] [11; 11; 22] 3 _ _)).
  - intros [|[|[|i]]] p Hp; cbn in Hp; simplify_eq; lia.
  - cbn. lia.
Defined.

Lemma distinctParent_walk_returns fuel parent pdg s p :
  parents_before_children parent ->
  length parent = length pdg ->
  p < len parent ->
  (0 <= p /\ p + 2 <= Z.of_nat fuel) \/ (p < 0 /\ (0 < fuel)%nat) ->
  returns (distinctParent_walk fuel parent pdg s p).
Proof.
  unfold returns, len. intros Hpbc Hlen. revert p.
  induction fuel as [|fuel IH]; intros p Hlt Hp; [lia|].
  cbn. destruct (Z.geb_spec p 0) as [Hp0|Hp0]; [|by eexists].
  destruct (lookup_lt_is_Some_2 pdg (Z.to_nat p) ltac:(lia)) as [t Ht].
  rewrite (getitem_Done pdg p t ltac:(lia) Ht). cbn.
  destruct (Z.eqb_spec t s); [|by eexists].
  destruct (Z.geb_spec p (len pdg)); [unfold len in *; lia|].
  destruct (lookup_lt_is_Some_2 parent (Z.to_nat p) ltac:(lia)) as [p' Hp'].
  rewrite (getitem_Done parent p p' ltac:(lia) Hp'). cbn.
  pose proof (Hpbc _ _ Hp') as Hlt'.
  apply IH; [lia|]. destruct (Z.ltb_spec p' 0); [right|left]; lia.
Qed.

Lemma for_each_returns {A S} (xs : list A) (body : S -> A -> outcome S)
    (P : A -> Prop) s :
  (forall s x, P x -> returns (body s x)) ->
  Forall P xs ->
  returns (for_each xs body s).
Proof.
  unfold returns. intros Hbody Hxs. revert s.
  induction Hxs as [|x xs Hx Hxs IH]; intros s; [by eexists|].
  cbn. destruct (Hbody s x Hx) as [s' ->]. cbn. apply IH.
Qed.

Lemma distinctParent_kernel_returns parent pdg :
  length parent = length pdg ->
  parents_before_children parent ->
  returns (_distinctParent_kernel (length parent) parent pdg).
Proof.
  intros Hlen Hpbc. unfold _distinctParent_kernel.
  apply for_each_returns with (P := fun i => 0 <= i < len pdg).
  - unfold len. intros out i Hi. unfold distinctParent_body.
    destruct (lookup_lt_is_Some_2 parent (Z.to_nat i) ltac:(lia)) as [p0 Hp0].
    rewrite (getitem_Done parent i p0 ltac:(lia) Hp0). cbn.
    destruct (Z.ltb_spec p0 0); [by eexists|].
    destruct (lookup_lt_is_Some_2 pdg (Z.to_nat i) ltac:(lia)) as [s Hs].
    rewrite (getitem_Done pdg i s ltac:(lia) Hs). cbn.
    pose proof (Hpbc _ _ Hp0) as Hlt.
    destruct (distinctParent_walk_returns (length parent) parent pdg s p0)
      as [r ->]; [done|done|unfold len; lia|left; lia|].
    by eexists.
  - apply Forall_forall. intros i Hi%elem_of_range. lia.
Qed.

(** *** Results *)

Lemma climb_end_root parent pdg s p q :
  Forall (fun p => -1 <= p) parent -> -1 <= p ->
  climb parent pdg s p q -> q < 0 -> q = -1.
Proof.
  intros Hroot Hp Hc. induction Hc as [p _|p p' q _ _ Hp' _ IH]; [lia|].
  apply IH. rewrite Forall_forall in Hroot. apply Hroot.
  eapply list_elem_of_lookup_2. exact Hp'.
Qed.

(** C7 (amended): whenever the kernel returns, entry i is -1 if
    parent[i] < 0, and otherwise the end of the walk p <- parent[p] taken
    while p >= 0 and species[p] = species[i]: the first ancestor of another
    species, or -1 when the chain ends first; with parents stored before
    their children and in range it does return.  On species [A,A,B] with
    parents [-1,0,1] the result is [-1,-1,1]. *)
Theorem distinctParent_first_other_species (parent pdg : list Z) :
  Forall (fun p => -1 <= p) parent ->
  (forall fuel out, _distinctParent_kernel fuel parent pdg = Done out ->
     length out = length pdg /\
     forall i, (i < length pdg)%nat ->
       distinct_parent_at parent pdg out i /\
       (forall q, out !! i = Some q -> q < 0 -> q = -1)) /\
  (length parent = length pdg -> parents_before_children parent ->
     returns (_distinctParent_kernel (length parent) parent pdg)) /\
  _distinctParent_kernel 3 [-1; 0; 1] [11; 11; 22] = Done [-1; -1; 1].
Proof.
  intros Hroot. split_and!; [| |done].
  - intros fuel out Hrun.
    apply distinctParent_kernel_partial in Hrun as [Hlen Hat].
    split; [done|]. intros i Hi. specialize (Hat i Hi). split; [done|].
    intros q Hq Hneg. destruct Hat as (p0 & Hp0 & Hn & Hp).
    destruct (Z.ltb_spec p0 0) as [H0|H0].
    + specialize (Hn H0). congruence.
    + destruct (Hp H0) as (s & q' & _ & Hq' & Hc & _).
      assert (q' = q) as -> by congruence.
      eapply climb_end_root; [done| |done|done]. lia.
  - intros Hlen Hpbc. by apply distinctParent_kernel_returns.
Qed.

Lemma distinctParent_first_other_species_witness :
  _distinctParent_kernel 3 [-1; 0; 1] [11; 11; 22] = Done [-1; -1; 1].
Proof.
  refine (proj2 (proj2 (distinctParent_first_other_species [-1; 0; 1] [11; 11; 22] _))).
  repeat constructor; lia.
Defined.

(** C7, as stated: the claimed result [-1,-1,0] is not what the kernel
    returns on species [A,A,B] with parents [-1,0,1], whatever the fuel. *)
Lemma distinctParent_example_refuted :
  ~ exists fuel, _distinctParent_kernel fuel [-1; 0; 1] [11; 11; 22]
                   = Done [-1; -1; 0].
Proof.
  intros [fuel Hrun].
  destruct fuel as [|[|fuel]]; [done|done|].
  vm_compute in Hrun. discriminate.
Qed.

(** ** children *)

Lemma children_scan_step n parentidx k cont j p :
  0 <= j -> parentidx !! Z.to_nat j = Some p ->
  children_scan n parentidx k cont j
  = if p =? k then
      if len cont >=? n
      then Raise (RuntimeError "offset1 went out of bounds!")
      else Done (cont ++ [j])
    else Done cont.
Proof.
  intros Hj Hp. unfold children_scan. by rewrite (getitem_Done parentidx j p Hj Hp).
Qed.

Lemma children_scan_loop parentidx k js cont :
  (forall j, j ∈ js -> 0 <= j < len parentidx) ->
  (length cont + length (filter (fun j => parentidx !! Z.to_nat j = Some k) js)
     <= length parentidx)%nat ->
  for_each js (children_scan (len parentidx) parentidx k) cont
  = Done (cont ++ filter (fun j => parentidx !! Z.to_nat j = Some k) js).
Proof.
  revert cont. induction js as [|j js IH]; intros cont Hjs Hlen.
  - cbn. by rewrite app_nil_r.
  - assert (Hj : 0 <= j < len parentidx) by (apply Hjs; left).
    unfold len in Hj.
    destruct (lookup_lt_is_Some_2 parentidx (Z.to_nat j) ltac:(lia)) as [p Hp].
    cbn [for_each]. rewrite (children_scan_step _ _ _ _ j p ltac:(lia) Hp).
    rewrite filter_cons in Hlen |- *.
    destruct (Z.eqb_spec p k) as [->|Hne].
    + rewrite decide_True in Hlen |- * by done. cbn in Hlen.
      destruct (Z.geb_spec (len cont) (len parentidx)); [unfold len in *; lia|].
      cbn. rewrite IH.
      * by rewrite <- app_assoc.
      * intros j' Hj'. apply Hjs. by right.
      * rewrite length_app. cbn. lia.
    + rewrite decide_False in Hlen |- * by congruence.
      cbn. apply IH; [|done]. intros j' Hj'. apply Hjs. by right.
Qed.

Lemma children_index_loop parentidx stop ks b :
  stop <= len parentidx ->
  (forall k, k ∈ ks -> 0 <= k) ->
  (length (content_out b) + length (ks ≫= children_of parentidx stop)
     <= length parentidx)%nat ->
  (length (offsets_out b) + length ks <= S (length parentidx))%nat ->
  exists offs,
    for_each ks (children_index (len parentidx) parentidx stop) b
    = Done (Buffers (offsets_out b ++ offs)
                    (content_out b ++ (ks ≫= children_of parentidx stop))) /\
    length offs = length ks.
Proof.
  intros Hstop. revert b. induction ks as [|k ks IH]; intros [offs cont] Hks Hc Ho.
  - exists []. cbn. by rewrite !app_nil_r.
  - cbn [offsets_out content_out] in *.
    rewrite bind_cons, length_app in Hc. cbn [length] in Ho.
    cbn [for_each].
    change (children_index (len parentidx) parentidx stop (Buffers offs cont) k)
      with (content ← for_each (range k stop)
                        (children_scan (len parentidx) parentidx k) cont;
            if len offs >=? len parentidx + 1
            then Raise (RuntimeError "offset0 went out of bounds!")
            else Done (Buffers (offs ++ [len content]) content)).
    unfold children_of at 1 in Hc.
    assert (Hk : 0 <= k) by (apply Hks; left).
    rewrite children_scan_loop; [|intros j Hj%elem_of_range; lia | lia].
    cbn. destruct (Z.geb_spec (len offs) (len parentidx + 1));
      [unfold len in *; lia|]. cbn.
    fold (children_of parentidx stop k).
    edestruct (IH (Buffers (offs ++ [len (cont ++ children_of parentidx stop k)])
                           (cont ++ children_of parentidx stop k)))
      as (offs' & -> & Hoffs').
    + intros k' Hk'. apply Hks. by right.
    + cbn. rewrite length_app. unfold children_of at 1. lia.
    + cbn. rewrite length_app. cbn. lia.
    + cbn. eexists (_ :: offs'). split; [|cbn; by rewrite Hoffs'].
      by rewrite <- !app_assoc.
Qed.

Lemma offsets_monotone offsets n r1 r2 :
  valid_offsets offsets n ->
  (r1 <= r2 < length offsets)%nat ->
  offset_at offsets r1 <= offset_at offsets r2.
Proof.
  intros (_ & _ & _ & Hs) [Hle Hlt]. induction Hle as [|r2 Hle IH]; [lia|].
  etrans; [apply IH; lia|]. apply Hs. lia.
Qed.

Lemma offsets_bounds offsets n r :
  valid_offsets offsets n -> (r < length offsets)%nat ->
  0 <= offset_at offsets r <= n.
Proof.
  intros Hv Hr. pose proof Hv as (Hpos & H0 & Hn & _). split.
  - rewrite <- H0. eapply offsets_monotone; [done|lia].
  - rewrite <- Hn. eapply offsets_monotone; [done|lia].
Qed.

Lemma event_sizes_sum offsets n a m :
  valid_offsets offsets n -> (a + m < length offsets)%nat ->
  Z.of_nat (sum_list_with (event_size offsets) (seq a m))
  = offset_at offsets (a + m) - offset_at offsets a.
Proof.
  intros Hv. revert a. induction m as [|m IH]; intros a Ham.
  - cbn. rewrite Nat.add_0_r. lia.
  - cbn [seq sum_list_with]. rewrite Nat2Z.inj_add, IH by lia.
    unfold event_size.
    pose proof (offsets_monotone offsets n a (S a) Hv ltac:(lia)).
    replace (S a + m)%nat with (a + S m)%nat by lia. lia.
Qed.

Lemma children_event_loop offsets parentidx m a b :
  valid_offsets offsets (len parentidx) ->
  (a + m < length offsets)%nat ->
  (length (content_out b) +
   length (seq a m ≫= (fun r => event_children parentidx (offset_at offsets r)
                                               (offset_at offsets (S r))))
     <= length parentidx)%nat ->
  (length (offsets_out b) + sum_list_with (event_size offsets) (seq a m)
     <= S (length parentidx))%nat ->
  exists offs,
    for_each (map Z.of_nat (seq a m)) (children_event offsets parentidx) b
    = Done (Buffers (offsets_out b ++ offs)
              (content_out b ++
               (seq a m ≫= (fun r => event_children parentidx (offset_at offsets r)
                                                    (offset_at offsets (S r)))))) /\
    length offs = sum_list_with (event_size offsets) (seq a m).
Proof.
  intros Hv. revert a b. induction m as [|m IH]; intros a [offs cont] Ham Hc Ho.
  - exists []. cbn. by rewrite !app_nil_r.
  - cbn [offsets_out content_out] in *.
    cbn [seq] in Hc, Ho |- *. rewrite bind_cons, length_app in Hc.
    cbn [sum_list_with] in Ho.
    cbn [map for_each].
    change (children_event offsets parentidx (Buffers offs cont) (Z.of_nat a))
      with (start_src ← getitem offsets (Z.of_nat a);
            stop_src ← getitem offsets (Z.of_nat a + 1);
            for_each (range start_src stop_src)
              (children_index (len parentidx) parentidx stop_src)
              (Buffers offs cont)).
    assert (Hra : offsets !! a = Some (offset_at offsets a)).
    { unfold offset_at. destruct (nth_lookup_or_length offsets a 0); [done|lia]. }
    assert (Hrb : offsets !! S a = Some (offset_at offsets (S a))).
    { unfold offset_at. destruct (nth_lookup_or_length offsets (S a) 0); [done|lia]. }
    rewrite (getitem_nat _ _ _ Hra). cbn.
    replace (Z.of_nat a + 1) with (Z.of_nat (S a)) by lia.
    rewrite (getitem_nat _ _ _ Hrb). cbn.
    pose proof (offsets_bounds offsets _ a Hv ltac:(lia)) as Ba.
    pose proof (offsets_bounds offsets _ (S a) Hv ltac:(lia)) as Bb.
    edestruct (children_index_loop parentidx (offset_at offsets (S a))
                 (range (offset_at offsets a) (offset_at offsets (S a)))
                 (Buffers offs cont)) as (offs1 & -> & Hoffs1).
    + lia.
    + intros k Hk%elem_of_range. lia.
    + cbn. unfold event_children in Hc. lia.
    + cbn. rewrite range_length. unfold event_size at 1 in Ho. lia.
    + rewrite bind_ret. cbn [offsets_out content_out].
      rewrite range_length in Hoffs1.
      fold (event_children parentidx (offset_at offsets a) (offset_at offsets (S a))).
      edestruct (IH (S a) (Buffers (offs ++ offs1)
                      (cont ++ event_children parentidx (offset_at offsets a)
                                              (offset_at offsets (S a)))))
        as (offs2 & -> & Hoffs2).
      * lia.
      * cbn. rewrite length_app. lia.
      * cbn. rewrite length_app. unfold event_size at 1 in Ho. lia.
      * cbn [offsets_out content_out]. exists (offs1 ++ offs2). split.
        -- by rewrite <- !app_assoc.
        -- rewrite length_app. unfold event_size at 1. lia.
Qed.

(** *** Every position is emitted at most once *)

Lemma elem_of_children_of parentidx stop k j :
  j ∈ children_of parentidx stop k <->
  parentidx !! Z.to_nat j = Some k /\ k <= j < stop.
Proof.
  unfold children_of. rewrite list_elem_of_filter, elem_of_range. done.
Qed.

Lemma elem_of_event_children parentidx start stop j :
  j ∈ event_children parentidx start stop <->
  exists k, parentidx !! Z.to_nat j = Some k /\ start <= k /\ k <= j < stop.
Proof.
  unfold event_children. rewrite list_elem_of_bind. split.
  - intros (k & (Hp & Hj)%elem_of_children_of & Hk%elem_of_range).
    exists k. split; [done|lia].
  - intros (k & Hp & Hk & Hj). exists k. split.
    + apply elem_of_children_of. split; [done|lia].
    + apply elem_of_range. lia.
Qed.

Lemma NoDup_event_children parentidx start stop :
  NoDup (event_children parentidx start stop).
Proof.
  unfold event_children. apply NoDup_bind.
  - intros k1 k2 j _ _ [H1 _]%elem_of_children_of [H2 _]%elem_of_children_of.
    congruence.
  - intros k _. unfold children_of. apply NoDup_filter, NoDup_range.
  - apply NoDup_range.
Qed.

Lemma elem_of_all_children offsets parentidx j :
  j ∈ all_children offsets parentidx <->
  exists r k, (S r < length offsets)%nat /\
    parentidx !! Z.to_nat j = Some k /\
    offset_at offsets r <= k /\ k <= j < offset_at offsets (S r).
Proof.
  unfold all_children. rewrite list_elem_of_bind. split.
  - intros (r & (k & Hk)%elem_of_event_children & Hr%elem_of_seq).
    exists r, k. split; [lia|done].
  - intros (r & k & Hr & Hk). exists r. split.
    + apply elem_of_event_children. by exists k.
    + apply elem_of_seq. lia.
Qed.

Lemma NoDup_all_children offsets parentidx n :
  valid_offsets offsets n -> NoDup (all_children offsets parentidx).
Proof.
  intros Hv. unfold all_children. apply NoDup_bind.
  - intros r1 r2 j Hr1%elem_of_seq Hr2%elem_of_seq
      (k1 & _ & H1)%elem_of_event_children (k2 & _ & H2)%elem_of_event_children.
    destruct (Nat.lt_trichotomy r1 r2) as [Hlt|[->|Hlt]]; [|done|].
    + pose proof (offsets_monotone offsets n (S r1) r2 Hv ltac:(lia)). lia.
    + pose proof (offsets_monotone offsets n (S r2) r1 Hv ltac:(lia)). lia.
  - intros r _. apply NoDup_event_children.
  - apply NoDup_seq.
Qed.

Lemma all_children_length offsets parentidx :
  valid_offsets offsets (len parentidx) ->
  (length (all_children offsets parentidx) <= length parentidx)%nat.
Proof.
  intros Hv.
  replace (length parentidx) with (length (range 0 (len parentidx)))
    by (rewrite range_length; unfold len; lia).
  apply submseteq_length, NoDup_submseteq; [by eapply NoDup_all_children|].
  intros j (r & k & Hr & Hk & Hlo & Hj)%elem_of_all_children.
  apply elem_of_range.
  pose proof (offsets_bounds offsets _ r Hv ltac:(lia)).
  pose proof (offsets_bounds offsets _ (S r) Hv ltac:(lia)). lia.
Qed.

(** C9: with offsets valid for the parent array the kernel returns
    normally; the emitted children are exactly, event by event, the
    positions j with start <= parent[j] <= j < stop, each emitted once (for
    k = parent[j]), so they are at most as many as the particles, and one
    offset is written per particle. *)
Theorem children_kernel_returns (offsets_in parentidx : list Z) :
  valid_offsets offsets_in (len parentidx) ->
  exists b,
    _children_kernel offsets_in parentidx = Done b /\
    content_out b = all_children offsets_in parentidx /\
    NoDup (content_out b) /\
    (forall j, j ∈ content_out b <->
       exists r k, (S r < length offsets_in)%nat /\
         parentidx !! Z.to_nat j = Some k /\
         offset_at offsets_in r <= k /\ k <= j < offset_at offsets_in (S r)) /\
    (length (content_out b) <= length parentidx)%nat /\
    length (offsets_out b) = S (length parentidx).
Proof.
  intros Hv. pose proof Hv as (Hpos & H0 & Hn & _).
  unfold _children_kernel.
  replace (range 0 (len offsets_in - 1))
    with (map Z.of_nat (seq 0 (length offsets_in - 1))).
  2:{ unfold range, len. replace (Z.to_nat (Z.of_nat (length offsets_in) - 1 - 0))
        with (length offsets_in - 1)%nat by lia.
      apply map_ext. intros; lia. }
  pose proof (all_children_length offsets_in parentidx Hv) as Hlen.
  pose proof (event_sizes_sum offsets_in _ 0 (length offsets_in - 1) Hv ltac:(lia))
    as Hsum.
  rewrite Nat.add_0_l, Hn, H0 in Hsum. unfold len in Hsum.
  edestruct (children_event_loop offsets_in parentidx (length offsets_in - 1) 0
               (Buffers [0] [])) as (offs & Hrun & Hoffs); [done|lia|..].
  - cbn. exact Hlen.
  - cbn. lia.
  - eexists. split; [exact Hrun|]. cbn. split_and!.
    + done.
    + by eapply NoDup_all_children.
    + intros j. apply elem_of_all_children.
    + exact Hlen.
    + rewrite Hoffs. lia.
Qed.

Lemma children_kernel_returns_witness :
  exists b, _children_kernel [0; 4] [-1; 0; 0; 1] = Done b /\
            content_out b = [1; 2; 3] /\ offsets_out b = [0; 2; 3; 3; 3].
Proof.
  destruct (children_kernel_returns [0; 4] [-1; 0; 0; 1]) as (b & Hrun & _).
  - split_and!; [cbn; lia|reflexivity|reflexivity|].
    intros [|r] Hr; cbn in *; lia.
  - exists b. split; [exact Hrun|].
    vm_compute in Hrun. injection Hrun as <-. done.
Defined.

(** ** distinctChildrenDeep *)












(** ** get_index_ranges *)

Lemma range_elements b e k : k ∈ range b e <-> b <= k <= e - 1.
Proof. rewrite elem_of_range. lia. Qed.

Lemma get_index_ranges_kernel_emits begin_end ev j row be :
  begin_end !! ev = Some row -> row !! j = Some be ->
  exists out, get_index_ranges_kernel begin_end !! ev = Some out /\
              out !! j = Some (range (fst be) (snd be)).
Proof.
  intros Hev Hj. unfold get_index_ranges_kernel.
  exists (map (fun be => range (fst be) (snd be)) row). split.
  - by rewrite list_lookup_fmap, Hev.
  - by rewrite list_lookup_fmap, Hj.
Qed.

(** C2: the ranges are emitted as claimed and the two examples hold, but
    the short-circuit is taken whenever the emitted integers sum to zero:
    for one event with begin=[0], end=[1] the kernel emits [[0]] and
    get_index_ranges returns [[]]. *)
Theorem get_index_ranges_short_circuits_on_zero_sum :
  get_index_ranges_kernel [[(0, 1)]] = [[[0]]] /\
  get_index_ranges [[0]] [[1]] = Done [[[]]] /\
  get_index_ranges [[2]] [[5]] = Done [[[2; 3; 4]]] /\
  get_index_ranges [[3]] [[3]] = Done [[[]]].
Proof. split_and!; reflexivity. Qed.

(** The guard of the short-circuit: the sum of the emitted integers. *)
Lemma get_index_ranges_guard begin end_ begin_end :
  pair_events begin end_ = Done begin_end ->
  get_index_ranges begin end_
  = Done (if awkward_sum3 (get_index_ranges_kernel begin_end) =? 0
          then map (map (fun be => negative_entries [fst be; snd be])) begin_end
          else get_index_ranges_kernel begin_end).
Proof.
  intros Hpair. unfold get_index_ranges. rewrite Hpair. cbn.
  by destruct (awkward_sum3 _ =? 0).
Qed.

(** ** begin_end_mapping_with_xyzrecord *)

Lemma pop_push2 (s : Stack) a b :
  pop (s ++ [a; b]) = Done (b, s ++ [a]).
Proof.
  replace (s ++ [a; b]) with ((s ++ [a]) ++ [b]) by (by rewrite <- app_assoc).
  apply pop_push.
Qed.

Lemma pop_push3 (s : Stack) a b c :
  pop (s ++ [a; b; c]) = Done (c, s ++ [a; b]).
Proof.
  replace (s ++ [a; b; c]) with ((s ++ [a; b]) ++ [c]) by (by rewrite <- app_assoc).
  apply pop_push.
Qed.

(** C5: the structured variant unpacks the result of get_index_ranges into
    three names, so it raises on every begin/end pair that does not have
    exactly three events, where begin_end_mapping returns. *)
Theorem begin_end_mapping_with_xyzrecord_unpack (below : Stack)
    (d_begin d_end : dtype) (begin end_ : list (list Z)) (target : value)
    (ranges : list (list (list Z))) :
  get_index_ranges begin end_ = Done ranges ->
  length ranges <> 3%nat ->
  begin_end_mapping_with_xyzrecord
    (below ++ [Jagged d_begin begin; Jagged d_end end_; target])
  = Raise ValueError.
Proof.
  intros Hranges Hlen. unfold begin_end_mapping_with_xyzrecord.
  rewrite pop_push3. cbn. rewrite pop_push2. cbn. rewrite pop_push. cbn.
  rewrite Hranges. cbn.
  by destruct ranges as [|? [|? [|? [|]]]].
Qed.

Lemma begin_end_mapping_with_xyzrecord_unpack_witness :
  begin_end_mapping_with_xyzrecord
    [Jagged int64 [[1]]; Jagged int64 [[2]];
     RecordJagged ["x"; "y"; "z"] [[xyz 10 11 12; xyz 20 21 22]]]
  = Raise ValueError /\
  begin_end_mapping (lib := plain_library)
    [Jagged int64 [[1]]; Jagged int64 [[2]]; Jagged float64 [[10; 20]]]
  = Done [Jagged2 float64 [[[20]]]].
Proof.
  split; [|reflexivity].
  apply (begin_end_mapping_with_xyzrecord_unpack [] int64 int64 [[1]] [[2]]
           (RecordJagged ["x"; "y"; "z"] [[xyz 10 11 12; xyz 20 21 22]])
           [[[1]]]).
  - reflexivity.
  - cbn. lia.
Defined.

(** With exactly three events the structured variant still gathers no
    record: what it pushes, if anything, is an integer array. *)
Lemma begin_end_mapping_with_xyzrecord_no_records (stack stack' : Stack) :
  begin_end_mapping_with_xyzrecord stack = Done stack' ->
  exists below xss, stack' = below ++ [Jagged int64 xss].
Proof.
  unfold begin_end_mapping_with_xyzrecord. intros Hrun.
  repeat (apply bind_Done in Hrun as (? & ? & Hrun); repeat case_match;
          simplify_eq).
  all: unfold push; eauto.
Qed.

(** ** Stack discipline *)

Lemma pop_nil : pop [] = Raise IndexError.
Proof. reflexivity. Qed.

Lemma pop_singleton a : pop [a] = Done (a, []).
Proof. reflexivity. Qed.

Lemma pop_pair a b : pop [a; b] = Done (b, [a]).
Proof. reflexivity. Qed.

(** Case analysis on the first call whose outcome a bind is waiting for. *)
Ltac step_bind :=
  match goal with
  | |- context [@mbind outcome _ _ _ _ ?m] =>
      lazymatch m with
      | context [@mbind] => fail
      | _ => destruct m as [?| |] eqn:?; cbn
      end
  | |- context [match ?x with _ => _ end] =>
      lazymatch x with
      | context [@mbind] => fail
      | _ => destruct x eqn:?; cbn
      end
  end.

Ltac step_bind_in H :=
  match type of H with
  | context [@mbind outcome _ _ _ _ ?m] =>
      lazymatch m with
      | context [@mbind] => fail
      | _ => destruct m as [?| |] eqn:?; cbn in H
      end
  | context [match ?x with _ => _ end] =>
      lazymatch x with
      | context [@mbind] => fail
      | _ => destruct x eqn:?; cbn in H
      end
  end.

Ltac short_stack :=
  let stack := fresh "stack" in
  let Hlen := fresh "Hlen" in
  let r := fresh "r" in
  let Hr := fresh "Hr" in
  intros stack Hlen [r Hr];
  destruct stack as [|? [|? [|? ?]]]; cbn in Hlen; try lia;
  rewrite ?pop_nil, ?pop_singleton, ?pop_pair in Hr; cbn in Hr;
  try discriminate;
  repeat (step_bind_in Hr; simplify_eq; try discriminate;
          rewrite ?pop_nil, ?pop_singleton, ?pop_pair in Hr; cbn in Hr;
          try discriminate).

Ltac run_op :=
  rewrite ?pop_push3; cbn; rewrite ?pop_push2; cbn; rewrite ?pop_push; cbn;
  unfold push; try reflexivity;
  repeat (step_bind; simplify_eq; try reflexivity;
          rewrite ?pop_push3, ?pop_push2, ?pop_push; cbn; try reflexivity).

Section Arity.
Context {lib : Library}.

Lemma arity1_attr (attr : string) :
  pops_and_pushes 1
    (fun stack => '(a, stack) ← pop stack; r ← layout_attr attr a;
                  Done (push stack r)).
Proof.
  split.
  - exists (fun ops => match ops with [a] => layout_attr attr a | _ => Raise IndexError end).
    intros below [|a [|]] Hlen; try done. run_op.
  - intros [|? ?] Hlen [r Hr]; cbn in Hlen; [done|lia].
Qed.

Lemma counts2offsets_arity : pops_and_pushes 1 counts2offsets.
Proof.
  split.
  - exists (fun ops => match ops with
                       | [a] => '(_, counts) ← ensure_array a;
                                Done (Flat int64 (counts2offsets_array counts))
                       | _ => Raise IndexError end).
    intros below [|a [|]] Hlen; try done. unfold counts2offsets. run_op.
  - intros [|? ?] Hlen [r Hr]; cbn in Hlen; [done|lia].
Qed.

Lemma eventindex_arity : pops_and_pushes 1 eventindex.
Proof.
  split.
  - exists (fun ops => match ops with
        | [out] => '(out, _) ← broadcast_arrays
                       (Flat int64 (range 0 (value_len out))) out; Done out
        | _ => Raise IndexError end).
    intros below [|a [|]] Hlen; try done. unfold eventindex. run_op.
  - intros [|? ?] Hlen [r Hr]; cbn in Hlen; [done|lia].
Qed.

Lemma local2global_arity : pops_and_pushes 2 local2global.
Proof.
  split.
  - exists (fun ops => match ops with
        | [index; a] =>
            '(d_target, target_offsets) ← ensure_array a;
            '(d_index, index) ← as_jagged index;
            out ← local2global_array d_index index d_target target_offsets;
            Done (Flat int64 out)
        | _ => Raise IndexError end).
    intros below [|a [|b [|]]] Hlen; try done. unfold local2global. run_op.
  - unfold local2global. short_stack.
Qed.

Lemma counts2nestedindex_arity : pops_and_pushes 2 counts2nestedindex.
Proof.
  split.
  - exists (fun ops => match ops with
        | [local_counts; target_offsets] =>
            '(_, target_offsets) ← as_flat target_offsets;
            total ← getitem target_offsets (-1);
            '(d_counts, local_counts) ← as_jagged local_counts;
            if bool_decide (d_counts = float64) then Raise ValueError
            else
              out ← unflatten (range 0 total) (concat local_counts);
              Done (Jagged int64 out)
        | _ => Raise IndexError end).
    intros below [|a [|b [|]]] Hlen; try done. unfold counts2nestedindex. run_op.
  - unfold counts2nestedindex. short_stack.
Qed.

Lemma distinctParent_arity fuel : pops_and_pushes 2 (distinctParent fuel).
Proof.
  split.
  - exists (fun ops => match ops with
        | [parents; pdg] =>
            '(_, parents) ← as_flat parents;
            '(_, pdg) ← as_flat pdg;
            out ← _distinctParent_kernel fuel parents pdg;
            Done (Flat int64 out)
        | _ => Raise IndexError end).
    intros below [|a [|b [|]]] Hlen; try done. unfold distinctParent. run_op.
  - unfold distinctParent. short_stack.
Qed.

Lemma children_arity : pops_and_pushes 2 children.
Proof.
  split.
  - exists (fun ops => match ops with
        | [offsets; parents] =>
            '(_, offsets) ← as_flat offsets;
            '(_, parents) ← as_flat parents;
            b ← _children_kernel offsets parents;
            Done (Jagged int64 (jagged_of b))
        | _ => Raise IndexError end).
    intros below [|a [|b [|]]] Hlen; try done. unfold children. run_op.
  - unfold children. short_stack.
Qed.

Lemma item_arity : pops_and_pushes 2 item.
Proof.
  split.
  - exists (fun ops => match ops with
        | [array; field] => array_getitem array field
        | _ => Raise IndexError end).
    intros below [|a [|b [|]]] Hlen; try done. unfold item. run_op.
  - unfold item. short_stack.
Qed.

Lemma grow_local_index_to_target_shape_arity :
  pops_and_pushes 2 grow_local_index_to_target_shape.
Proof.
  split.
  - exists (fun ops => match ops with
        | [index; target] =>
            counts ← num_axis1 target;
            '(_, index) ← as_jagged index;
            useable_index ← _grow_local_index_to_target_shape_kernel index
                               (map (fun c => range 0 c) counts);
            Done (Jagged int64 useable_index)
        | _ => Raise IndexError end).
    intros below [|a [|b [|]]] Hlen; try done.
    unfold grow_local_index_to_target_shape. run_op.
  - unfold grow_local_index_to_target_shape. short_stack.
Qed.

Lemma nested_local2global_stack_arity :
  pops_and_pushes 2 nested_local2global_stack.
Proof.
  split.
  - exists (fun ops => match ops with
        | [array; target_offsets_raw] =>
            match array with
            | Jagged2 d xsss =>
                if wrap64 (zsum (concat (map (map len) xsss))) =? 0 then Done array
                else
                  '(d_target, raw) ← as_flat target_offsets_raw;
                  out ← local2global_array int64
                          (map (fun xss => map (cast d int64) (concat xss)) xsss)
                          int64 (map (cast d_target int64) raw);
                  nested_global_flat ← unflatten out (concat (map (map len) xsss));
                  nested_global ← unflatten nested_global_flat (map len xsss);
                  Done (Jagged2 int64 nested_global)
            | _ => Raise ValueError
            end
        | _ => Raise IndexError end).
    intros below [|a [|b [|]]] Hlen; try done.
    unfold nested_local2global_stack. run_op.
  - unfold nested_local2global_stack. short_stack.
Qed.

Lemma distinctChildrenDeep_arity : pops_and_pushes 3 distinctChildrenDeep.
Proof.
  split.
  - exists (fun ops => match ops with
        | [offsets; global_parents; global_pdgs] =>
            '(_, offsets) ← as_flat offsets;
            '(_, global_parents) ← as_flat global_parents;
            '(_, global_pdgs) ← as_flat global_pdgs;
            b ← _distinctChildrenDeep_kernel offsets global_parents global_pdgs;
            Done (Jagged int64 (jagged_of b))
        | _ => Raise IndexError end).
    intros below [|a [|b [|c [|]]]] Hlen; try done.
    unfold distinctChildrenDeep. run_op.
  - unfold distinctChildrenDeep. short_stack.
Qed.

Lemma begin_end_mapping_arity : pops_and_pushes 3 begin_end_mapping.
Proof.
  split.
  - exists (fun ops => match ops with
        | [begin; end_; target] =>
            '(_, begin) ← as_jagged begin;
            '(_, end_) ← as_jagged end_;
            indices ← get_index_ranges begin end_;
            target_counts ← num_axis1 target;
            if wrap64 (zsum target_counts) =? 0 then Done (negative_indices indices)
            else if wrap64 (zsum (map len indices)) =? 0
                 then Done (negative_indices indices)
                 else get_array_from_indices indices target
        | _ => Raise IndexError end).
    intros below [|a [|b [|c [|]]]] Hlen; try done.
    unfold begin_end_mapping. run_op.
  - unfold begin_end_mapping. short_stack.
Qed.

Lemma begin_end_mapping_with_xyzrecord_arity :
  pops_and_pushes 3 begin_end_mapping_with_xyzrecord.
Proof.
  split.
  - exists (fun ops => match ops with
        | [begin; end_; target] =>
            '(_, begin) ← as_jagged begin;
            '(_, end_) ← as_jagged end_;
            ranges ← get_index_ranges begin end_;
            '(indices, o1, o2) ← unpack3 ranges;
            fields ← fields_of target;
            if len fields =? 0 then Raise (RuntimeError "Target is a ListOffset.")
            else
              target_counts ← num_axis1 target;
              if wrap64 (zsum target_counts) =? 0
              then Done (Jagged int64 (map negative_entries indices))
              else if wrap64 (zsum (map len indices)) =? 0
                   then Done (Jagged int64 (map negative_entries indices))
                   else Raise TypeError
        | _ => Raise IndexError end).
    intros below [|a [|b [|c [|]]]] Hlen; try done.
    unfold begin_end_mapping_with_xyzrecord. run_op.
  - unfold begin_end_mapping_with_xyzrecord. short_stack.
Qed.

End Arity.

(** C4 (amended): every operation other than [data] and [nestedindex] pops
    a fixed number of entries (one, two or three), the rightmost operand
    first, leaves the entries below in place and pushes exactly one
    result; [data] leaves the stack as it is; [nestedindex] takes the whole
    stack, which must not be empty, and leaves exactly one result. *)
Theorem operations_pop_arity_push_one (lib : Library) (fuel : nat) :
  (pops_and_pushes 1 offsets /\ pops_and_pushes 1 mask /\
   pops_and_pushes 1 index /\ pops_and_pushes 1 starts /\
   pops_and_pushes 1 stops /\ pops_and_pushes 1 tags /\
   pops_and_pushes 1 content /\ pops_and_pushes 1 counts2offsets /\
   pops_and_pushes 1 eventindex) /\
  (pops_and_pushes 2 local2global /\ pops_and_pushes 2 counts2nestedindex /\
   pops_and_pushes 2 (distinctParent fuel) /\ pops_and_pushes 2 children /\
   pops_and_pushes 2 item /\
   pops_and_pushes 2 grow_local_index_to_target_shape /\
   pops_and_pushes 2 nested_local2global_stack) /\
  (pops_and_pushes 3 distinctChildrenDeep /\
   pops_and_pushes 3 begin_end_mapping /\
   pops_and_pushes 3 begin_end_mapping_with_xyzrecord) /\
  (forall stack, data stack = Done stack) /\
  (forall stack stack', nestedindex stack = Done stack' ->
     stack <> [] /\ exists r, stack' = [r]).
Proof.
  split_and!;
    try apply arity1_attr;
    auto using counts2offsets_arity, eventindex_arity, local2global_arity,
      counts2nestedindex_arity, distinctParent_arity, children_arity,
      item_arity, grow_local_index_to_target_shape_arity,
      nested_local2global_stack_arity, distinctChildrenDeep_arity,
      begin_end_mapping_arity, begin_end_mapping_with_xyzrecord_arity.
  intros stack stack' Hrun. split.
  - intros ->. discriminate Hrun.
  - unfold nestedindex in Hrun.
    repeat (apply bind_Done in Hrun as (? & ? & Hrun); repeat case_match;
            simplify_eq).
    unfold push. cbn. eauto.
Qed.

(** C4, as stated: [nestedindex] and [data] have no fixed arity.
    [nestedindex] consumes one entry of a stack of one and two of a stack of
    two; [data] returns on the empty stack without pushing. *)
Lemma nestedindex_and_data_have_no_fixed_arity :
  ~ fixed_arity (nestedindex (lib := plain_library)) /\ ~ fixed_arity data.
Proof.
  split.
  - intros (n & [f Hf] & Hshort).
    assert (Hn : (n <= 1)%nat).
    { destruct (decide (n <= 1)%nat) as [|Hn]; [done|].
      exfalso. apply (Hshort [Flat int64 [1]]); [cbn; lia|by eexists]. }
    destruct n as [|[|n]]; [| |lia].
    + specialize (Hf [Flat int64 [1]] [] eq_refl).
      vm_compute in Hf. destruct (f []); discriminate.
    + specialize (Hf [Flat int64 [1]] [Flat int64 [1]] eq_refl).
      vm_compute in Hf. destruct (f [Flat int64 [1]]); discriminate.
  - intros (n & [f Hf] & Hshort). destruct n as [|n].
    + specialize (Hf [] [] eq_refl). cbn in Hf. destruct (f []); discriminate.
    + apply (Hshort []); [cbn; lia|by eexists].
Qed.

(** ** Form keys *)

Lemma getkey_setkey k v j j' :
  setkey k v j = Done j' -> getkey k j' = Done v.
Proof.
  destruct j; try done. intros [= <-]. cbn. by rewrite lookup_insert_eq.
Qed.

Lemma getkey_setkey_ne k k' v j j' :
  setkey k v j = Done j' -> k <> k' -> getkey k' j' = getkey k' j.
Proof.
  destruct j; try done. intros [= <-] Hne. cbn.
  by rewrite lookup_insert_ne.
Qed.

Lemma getkey2_setkey2 k1 k2 v j j' :
  setkey2 k1 k2 v j = Done j' -> getkey2 k1 k2 j' = Done v.
Proof.
  unfold setkey2, getkey2. intros Hrun.
  apply bind_Done in Hrun as (inner & Hinner & Hrun).
  apply bind_Done in Hrun as (inner' & Hinner' & Hrun).
  rewrite (getkey_setkey _ _ _ _ Hrun). cbn.
  by apply getkey_setkey in Hinner'.
Qed.

Lemma getkey2_setkey2_ne k1 k2 k2' v j j' :
  setkey2 k1 k2 v j = Done j' -> k2 <> k2' ->
  getkey2 k1 k2' j' = getkey2 k1 k2' j.
Proof.
  unfold setkey2, getkey2. intros Hrun Hne.
  apply bind_Done in Hrun as (inner & Hinner & Hrun).
  apply bind_Done in Hrun as (inner' & Hinner' & Hrun).
  rewrite (getkey_setkey _ _ _ _ Hrun), Hinner. cbn.
  by apply (getkey_setkey_ne _ k2') in Hinner'.
Qed.

Lemma getkey2_setkey_ne k k1 k2 v j j' :
  setkey k v j = Done j' -> k <> k1 -> getkey2 k1 k2 j' = getkey2 k1 k2 j.
Proof.
  unfold getkey2. intros Hrun Hne.
  by rewrite (getkey_setkey_ne _ _ _ _ _ Hrun Hne).
Qed.

Lemma getkey_setkey2_ne k k1 k2 v j j' :
  setkey2 k1 k2 v j = Done j' -> k <> k1 -> getkey k j' = getkey k j.
Proof.
  unfold setkey2. intros Hrun Hne.
  apply bind_Done in Hrun as (inner & Hinner & Hrun).
  apply bind_Done in Hrun as (inner' & Hinner' & Hrun).
  apply (getkey_setkey_ne _ k) in Hrun; [done|congruence].
Qed.

Lemma concat_keys_inv concat parts key :
  concat_keys concat parts = Done key ->
  exists strs, map_each as_str parts = Done strs /\ key = JStr (concat strs).
Proof.
  unfold concat_keys. intros Hrun.
  apply bind_Done in Hrun as (strs & Hstrs & Hrun).
  injection Hrun as <-. eauto.
Qed.

Lemma as_str_inv j s : as_str j = Done s -> j = JStr s.
Proof. destruct j; try done. by intros [= ->]. Qed.

Lemma map_each_as_str2 a b strs :
  map_each as_str [a; b] = Done strs ->
  exists x y, a = JStr x /\ b = JStr y /\ strs = [x; y].
Proof.
  cbn. intros Hrun.
  apply bind_Done in Hrun as (x & ->%as_str_inv & Hrun).
  apply bind_Done in Hrun as (ys & Hys & Hrun).
  apply bind_Done in Hys as (y & ->%as_str_inv & Hys).
  cbn in Hys. simplify_eq. eauto.
Qed.

Lemma map_each_as_str3 a b c strs :
  map_each as_str [a; b; c] = Done strs ->
  exists x y z, a = JStr x /\ b = JStr y /\ c = JStr z /\ strs = [x; y; z].
Proof.
  cbn -[map_each]. intros Hrun. cbn [map_each] in Hrun.
  apply bind_Done in Hrun as (x & ->%as_str_inv & Hrun).
  apply bind_Done in Hrun as (ys & Hys & Hrun).
  apply map_each_as_str2 in Hys as (y & z & -> & -> & ->).
  simplify_eq. eauto 10.
Qed.

Section FormKeys.
Variable concat : list string -> string.

Local Opaque setkey2 getkey2.

(** The sibling operation: the content key of [local2global_form] ends
    with the operation's name. *)
Lemma local2global_form_content_key index target_offsets form :
  local2global_form concat index target_offsets = Done form ->
  exists ki kt,
    getkey "form_key" index = Done (JStr ki) /\
    getkey "form_key" target_offsets = Done (JStr kt) /\
    getkey2 "content" "form_key" form
      = Done (JStr (concat [ki; kt; "!local2global"])) /\
    getkey "form_key" form = Done (JStr ki).
Proof.
  unfold local2global_form. intros Hrun.
  do 4 (apply bind_Done in Hrun as (? & _ & Hrun)).
  apply bind_Done in Hrun as (ki' & Hki & Hrun).
  apply bind_Done in Hrun as (kt' & Hkt & Hrun).
  apply bind_Done in Hrun as (key & Hkey & Hrun).
  apply bind_Done in Hrun as (form1 & Hform1 & Hrun).
  apply bind_Done in Hrun as (form2 & Hform2 & Hrun).
  apply concat_keys_inv in Hkey
    as (strs & (ki & kt & op & -> & -> & Hop & ->)%map_each_as_str3 & ->).
  injection Hop as <-.
  exists ki, kt. split_and!; [done|done| |].
  - rewrite (getkey2_setkey2_ne _ _ "form_key" _ _ _ Hrun) by done.
    rewrite (getkey2_setkey2_ne _ _ "form_key" _ _ _ Hform2) by done.
    by eapply getkey2_setkey2.
  - rewrite (getkey_setkey2_ne "form_key" _ _ _ _ _ Hrun) by done.
    rewrite (getkey_setkey2_ne "form_key" _ _ _ _ _ Hform2) by done.
    rewrite (getkey_setkey2_ne "form_key" _ _ _ _ _ Hform1) by done.
    done.
Qed.

(** C1: the content key computed by
    [grow_local_index_to_target_shape_form] is built from the two parent
    content keys alone; the operation's name, which ends the outer key of
    the same form and the content key of every sibling, is not among the
    parts handed to [concat]. *)
Theorem grow_form_content_key_parts (index target form : json) :
  grow_local_index_to_target_shape_form concat index target = Done form ->
  exists kic ktc ki kt,
    getkey2 "content" "form_key" index = Done (JStr kic) /\
    getkey2 "content" "form_key" target = Done (JStr ktc) /\
    getkey "form_key" index = Done (JStr ki) /\
    getkey "form_key" target = Done (JStr kt) /\
    getkey2 "content" "form_key" form = Done (JStr (concat [kic; ktc])) /\
    getkey "form_key" form
      = Done (JStr (concat [ki; kt; "!grow_local_index_to_target_shape"])).
Proof.
  unfold grow_local_index_to_target_shape_form. intros Hrun.
  do 4 (apply bind_Done in Hrun as (? & _ & Hrun)).
  apply bind_Done in Hrun as (kic' & Hkic & Hrun).
  apply bind_Done in Hrun as (ktc' & Hktc & Hrun).
  apply bind_Done in Hrun as (key & Hkey & Hrun).
  apply bind_Done in Hrun as (form1 & Hform1 & Hrun).
  apply bind_Done in Hrun as (ki' & Hki & Hrun).
  apply bind_Done in Hrun as (kt' & Hkt & Hrun).
  apply bind_Done in Hrun as (key' & Hkey' & Hrun).
  apply bind_Done in Hrun as (form2 & Hform2 & Hrun).
  apply bind_Done in Hrun as (form3 & Hform3 & Hrun).
  apply concat_keys_inv in Hkey
    as (strs & (kic & ktc & -> & -> & ->)%map_each_as_str2 & ->).
  apply concat_keys_inv in Hkey'
    as (strs & (ki & kt & op & -> & -> & Hop & ->)%map_each_as_str3 & ->).
  injection Hop as <-.
  exists kic, ktc, ki, kt. split_and!; [done|done|done|done| |].
  - rewrite (getkey2_setkey2_ne _ _ "form_key" _ _ _ Hrun) by done.
    rewrite (getkey2_setkey2_ne _ _ "form_key" _ _ _ Hform3) by done.
    rewrite (getkey2_setkey_ne _ "content" "form_key" _ _ _ Hform2) by done.
    by eapply getkey2_setkey2.
  - rewrite (getkey_setkey2_ne "form_key" _ _ _ _ _ Hrun) by done.
    rewrite (getkey_setkey2_ne "form_key" _ _ _ _ _ Hform3) by done.
    by eapply getkey_setkey.
Qed.

End FormKeys.

Lemma grow_form_content_key_parts_witness :
  exists form,
    grow_local_index_to_target_shape_form concat_tokens index_form target_form
      = Done form /\
    getkey2 "content" "form_key" form = Done (JStr "idx_c,tgt_c") /\
    getkey "form_key" form
      = Done (JStr "idx,tgt,!grow_local_index_to_target_shape").
Proof.
  destruct (grow_local_index_to_target_shape_form concat_tokens index_form
              target_form) as [form| |] eqn:Hrun;
    [|by vm_compute in Hrun|by vm_compute in Hrun].
  exists form. split; [done|].
  destruct (grow_form_content_key_parts concat_tokens index_form target_form
              form Hrun)
    as (kic & ktc & ki & kt & Hkic & Hktc & Hki & Hkt & Hc & Ho).
  vm_compute in Hkic, Hktc, Hki, Hkt. simplify_eq. done.
Defined.

(** On the same operands the sibling [local2global_form] names its
    operation in the content key. *)
Lemma local2global_form_example :
  (form ← local2global_form concat_tokens index_form offsets_form;
   getkey2 "content" "form_key" form)
  = Done (JStr "idx,off,!local2global").
Proof. vm_compute. reflexivity. Qed.

(** ** Partitions: unflatten, counts2nestedindex, nested_local2global_stack *)

Lemma map_each_Forall2 {A B} (f : A -> outcome B) xs ys :
  map_each f xs = Done ys <-> Forall2 (fun x y => f x = Done y) xs ys.
Proof.
  revert ys. induction xs as [|x xs IH]; intros ys; cbn.
  - split; [by intros [= <-]|by intros ->%Forall2_nil_inv_l].
  - split.
    + intros Hrun. apply bind_Done in Hrun as (y & Hy & Hrun).
      apply bind_Done in Hrun as (ys' & Hys & Hrun). injection Hrun as <-.
      constructor; [done|by apply IH].
    + intros (y & ys' & Hy & Hys & ->)%Forall2_cons_inv_l.
      rewrite Hy. cbn. apply IH in Hys. by rewrite Hys.
Qed.

Lemma len_nonneg {A} (l : list A) : 0 <= len l.
Proof. unfold len. lia. Qed.

Lemma len_app {A} (l k : list A) : len (l ++ k) = len l + len k.
Proof. unfold len. rewrite length_app. lia. Qed.

Lemma running_lengths_app {A} acc (l1 l2 : list (list A)) :
  running_lengths acc (l1 ++ l2)
  = running_lengths acc l1 ++ running_lengths (acc + length (concat l1)) l2.
Proof.
  revert acc. induction l1 as [|l l1 IH]; intros acc; cbn.
  - by rewrite Nat.add_0_r.
  - rewrite IH. do 3 f_equal. rewrite length_app. lia.
Qed.

Lemma running_lengths_length {A} acc (lists : list (list A)) :
  length (running_lengths acc lists) = length lists.
Proof. revert acc. induction lists; intros; cbn; [done|]. by rewrite IHlists. Qed.

Lemma sublists_running {A} (pre : list A) lists :
  sublists (Z.of_nat (length pre) :: running_lengths (length pre) lists)
           (pre ++ concat lists)
  = lists.
Proof.
  revert pre. induction lists as [|l lists IH]; intros pre; [done|].
  cbn [running_lengths concat].
  unfold sublists, all_but_last, all_but_first.
  change (removelast (Z.of_nat (length pre) ::
                      Z.of_nat (length pre + length l) ::
                      running_lengths (length pre + length l) lists))
    with (Z.of_nat (length pre) ::
          removelast (Z.of_nat (length pre + length l) ::
                      running_lengths (length pre + length l) lists)).
  cbn [tail combine map fst snd]. f_equal.
  - unfold slice.
    replace (Z.to_nat (Z.of_nat (length pre + length l) - Z.of_nat (length pre)))
      with (length l) by lia.
    by rewrite Nat2Z.id, drop_app_length, take_app_length.
  - specialize (IH (pre ++ l)). rewrite length_app, <- app_assoc in IH.
    exact IH.
Qed.

Lemma running_lengths_bounds {A} acc (lists : list (list A)) :
  Forall (fun o => Z.of_nat acc <= o <= Z.of_nat (acc + length (concat lists)))
         (running_lengths acc lists).
Proof.
  revert acc. induction lists as [|l lists IH]; intros acc; [constructor|].
  cbn [running_lengths concat]. rewrite length_app. constructor; [lia|].
  eapply Forall_impl; [apply IH|]. intros o Ho. cbn in Ho. lia.
Qed.

Lemma running_lengths_last {A} acc (lists : list (list A)) :
  (Z.of_nat acc :: running_lengths acc lists) !! length lists
  = Some (Z.of_nat (acc + length (concat lists))).
Proof.
  revert acc. induction lists as [|l lists IH]; intros acc.
  - cbn. by rewrite Nat.add_0_r.
  - cbn [running_lengths concat length]. rewrite length_app.
    change ((Z.of_nat (acc + length l) :: running_lengths (acc + length l) lists)
              !! length lists
            = Some (Z.of_nat (acc + (length l + length (concat lists))))).
    rewrite IH. do 2 f_equal. lia.
Qed.

Lemma cumsum_running {A} acc (lists : list (list A)) :
  Z.of_nat (acc + length (concat lists)) <= int64_max ->
  cumsum (Z.of_nat acc) (map len lists) = running_lengths acc lists.
Proof.
  revert acc. induction lists as [|l lists IH]; intros acc Hmax; [done|].
  cbn [map cumsum running_lengths concat] in *. rewrite length_app in Hmax.
  replace (Z.of_nat acc + len l) with (Z.of_nat (acc + length l))
    by (unfold len; lia).
  rewrite wrap64_id by (unfold in_int64, int64_min; lia).
  rewrite IH by lia. done.
Qed.

(** The binary search ends at [hi] when no entry exceeds the key. *)
Lemma binsearch_right_all_le steps a key lo hi :
  Forall (fun v => v <= key) a ->
  (lo <= hi <= length a)%nat -> (hi - lo <= steps)%nat ->
  binsearch_right steps a key lo hi = hi.
Proof.
  intros Hle. revert lo. induction steps as [|steps IH]; intros lo Hlh Hsteps.
  - cbn. lia.
  - cbn [binsearch_right]. destruct (Nat.ltb_spec lo hi) as [Hlt|]; [|lia].
    assert (Hmid : (lo <= lo + (hi - lo) / 2 < hi)%nat).
    { split; [lia|]. pose proof (Nat.div_lt (hi - lo) 2). lia. }
    destruct (lookup_lt_is_Some_2 a (lo + (hi - lo) / 2)) as [v Hv]; [lia|].
    rewrite Hv. rewrite Forall_forall in Hle.
    destruct (Z.leb_spec v key) as [_|Hgt].
    + apply IH; lia.
    + specialize (Hle v (list_elem_of_lookup_2 _ _ _ Hv)). lia.
Qed.

Lemma binsearch_right_bounds steps a key lo hi :
  (lo <= hi)%nat -> (lo <= binsearch_right steps a key lo hi <= hi)%nat.
Proof.
  revert lo hi. induction steps as [|steps IH]; intros lo hi Hlh; [cbn; lia|].
  cbn [binsearch_right]. destruct (Nat.ltb_spec lo hi) as [Hlt|]; [|lia].
  assert (Hmid : (lo <= lo + (hi - lo) / 2 < hi)%nat).
  { split; [lia|]. pose proof (Nat.div_lt (hi - lo) 2). lia. }
  destruct (a !! _); [|lia].
  destruct (_ <=? _).
  - specialize (IH (lo + (hi - lo) / 2 + 1)%nat hi). lia.
  - specialize (IH lo (lo + (hi - lo) / 2)%nat). lia.
Qed.

Lemma searchsorted_right_all_le a key :
  Forall (fun v => v <= key) a -> searchsorted_right a key = len a.
Proof.
  intros Hle. unfold searchsorted_right, len.
  rewrite binsearch_right_all_le; [done|done|lia|lia].
Qed.

Lemma wrap64_range z : in_int64 (wrap64 z).
Proof.
  unfold wrap64, in_int64, int64_min, int64_max.
  pose proof (Z.mod_pos_bound (z + 2 ^ 63) (2 ^ 64)). lia.
Qed.

Lemma wrap64_add_l a b : wrap64 (wrap64 a + b) = wrap64 (a + b).
Proof.
  unfold wrap64.
  replace ((a + 2 ^ 63) mod 2 ^ 64 - 2 ^ 63 + b + 2 ^ 63)
    with ((a + 2 ^ 63) mod 2 ^ 64 + b) by lia.
  rewrite Zplus_mod_idemp_l. do 2 f_equal. lia.
Qed.

Lemma wrap64_le z : 0 <= z -> wrap64 z <= z.
Proof.
  intros Hz. unfold wrap64.
  pose proof (Z.mod_le (z + 2 ^ 63) (2 ^ 64)). lia.
Qed.

(** The last offset is the int64 sum of the counts. *)
Lemma cumsum_last_wrap acc C :
  wrap64 acc = acc ->
  (acc :: cumsum acc C) !! length C = Some (wrap64 (acc + zsum C)).
Proof.
  revert acc. induction C as [|c C IH]; intros acc Hacc.
  - cbn. by rewrite Z.add_0_r, Hacc.
  - cbn [cumsum length]. rewrite zsum_cons.
    change ((wrap64 (acc + c) :: cumsum (wrap64 (acc + c)) C) !! length C
            = Some (wrap64 (acc + (c + zsum C)))).
    rewrite IH.
    + by rewrite wrap64_add_l, Z.add_assoc.
    + apply wrap64_id, wrap64_range.
Qed.

Lemma sublists_length {A} (offsets : list Z) (content : list A) n :
  length offsets = S n -> length (sublists offsets content) = n.
Proof. intros Ho. unfold sublists. by rewrite length_map, (bounds_length _ n). Qed.

(** What a successful unflatten has checked. *)
Lemma unflatten_Done_inv {A} (content : list A) counts out :
  unflatten content counts = Done out ->
  wrap64 (zsum counts) = len content /\
  out = sublists (counts2offsets_array counts) content.
Proof.
  unfold unflatten.
  set (offsets := counts2offsets_array counts).
  assert (Hn : length offsets = S (length counts)).
  { unfold offsets, counts2offsets_array. cbn. by rewrite cumsum_length. }
  assert (Hlast : offsets !! length counts = Some (wrap64 (zsum counts))).
  { unfold offsets, counts2offsets_array. rewrite cumsum_last_wrap by done.
    by rewrite Z.add_0_l. }
  pose proof (binsearch_right_bounds (length offsets) offsets (len content) 0
                (length offsets) ltac:(lia)) as Hr.
  unfold searchsorted_right.
  set (r := binsearch_right _ _ _ _ _) in *.
  destruct (Z.geb_spec (Z.of_nat r - 1) (len offsets)); [done|].
  intros Hrun. apply bind_Done in Hrun as (v & Hv & Hrun).
  destruct (Z.eqb_spec v (len content)) as [->|]; [|done]. cbn [negb] in Hrun.
  destruct (Z.eqb_spec (len (drop (Z.to_nat (Z.of_nat r - 1)) offsets)) 1)
    as [Hone|]; [|done].
  cbn [negb] in Hrun. injection Hrun as <-.
  unfold len in Hone. rewrite length_drop in Hone.
  clearbody r.
  destruct (decide (r = 0%nat)) as [->|Hr0].
  - (* the search cannot end before the first offset *)
    assert (length counts = 0%nat) as Hc by lia.
    destruct counts; [|done]. cbn in Hv. by injection Hv as <-.
  - assert (Hpos : Z.to_nat (Z.of_nat r - 1) = length counts) by lia.
    replace (Z.of_nat r - 1 + 1) with (Z.of_nat (length offsets)) by lia.
    rewrite Nat2Z.id, firstn_all. split; [|done].
    apply getitem_nonneg_inv in Hv as [Hv _]; [|lia].
    rewrite Hpos, Hlast in Hv. by injection Hv.
Qed.

Lemma unflatten_length {A} (content : list A) counts out :
  unflatten content counts = Done out -> length out = length counts.
Proof.
  intros [_ ->]%unflatten_Done_inv. apply sublists_length.
  unfold counts2offsets_array. cbn. by rewrite cumsum_length.
Qed.

(** unflatten of the lengths of a list of lists gives the lists back. *)
Lemma unflatten_concat {A} (xss : list (list A)) :
  len (concat xss) <= int64_max ->
  unflatten (concat xss) (map len xss) = Done xss.
Proof.
  intros Hmax. unfold unflatten, counts2offsets_array.
  change (cumsum 0 (map len xss)) with (cumsum (Z.of_nat 0) (map len xss)).
  rewrite cumsum_running by (unfold len in Hmax; cbn; lia).
  set (offsets := 0 :: running_lengths 0 xss).
  assert (Hn : len offsets = Z.of_nat (S (length xss))).
  { unfold len, offsets. cbn [length]. by rewrite running_lengths_length. }
  assert (Hle : Forall (fun v => v <= len (concat xss)) offsets).
  { constructor; [apply len_nonneg|].
    eapply Forall_impl; [apply running_lengths_bounds|].
    intros o Ho. cbn in Ho. unfold len. lia. }
  rewrite (searchsorted_right_all_le _ _ Hle), Hn.
  destruct (Z.geb_spec (Z.of_nat (S (length xss)) - 1) (Z.of_nat (S (length xss))));
    [lia|].
  replace (Z.of_nat (S (length xss)) - 1) with (Z.of_nat (length xss)) by lia.
  rewrite (getitem_nat offsets _ (len (concat xss))).
  - rewrite bind_ret, Z.eqb_refl. cbn [negb].
    unfold len at 1. rewrite length_drop, Nat2Z.id.
    unfold len in Hn. apply Nat2Z.inj in Hn. rewrite Hn.
    replace (Z.of_nat (S (length xss) - length xss)) with 1 by lia.
    cbn [Z.eqb Pos.eqb negb].
    replace (Z.to_nat (Z.of_nat (length xss) + 1)) with (length offsets) by lia.
    rewrite firstn_all. f_equal.
    apply (sublists_running [] xss).
  - unfold offsets. change 0 with (Z.of_nat 0) at 1.
    by rewrite running_lengths_last.
Qed.

Lemma chunks_spec {A} (content : list A) counts :
  Forall (fun c => 0 <= c) counts -> zsum counts = len content ->
  concat (chunks content counts) = content /\
  map len (chunks content counts) = counts.
Proof.
  intros Hc. revert content.
  induction Hc as [|c counts Hc0 Hc IH]; intros content Hsum.
  - destruct content; [done|]. unfold len in Hsum. cbn in Hsum. lia.
  - rewrite zsum_cons in Hsum. pose proof (zsum_nonneg _ Hc).
    cbn [chunks concat map].
    destruct (IH (drop (Z.to_nat c) content)) as [Hcc Hcl].
    { unfold len in *. rewrite length_drop. lia. }
    rewrite Hcc, Hcl, take_drop. split; [done|]. f_equal.
    unfold len in *. rewrite length_take. lia.
Qed.

(** unflatten with non-negative counts that add up to the length of the
    content cuts the content into consecutive lists of these lengths. *)
Lemma unflatten_nonneg {A} (content : list A) counts :
  Forall (fun c => 0 <= c) counts -> zsum counts = len content ->
  len content <= int64_max ->
  exists out, unflatten content counts = Done out /\
              concat out = content /\ map len out = counts.
Proof.
  intros Hc Hsum Hmax.
  destruct (chunks_spec content counts Hc Hsum) as [Hcc Hcl].
  exists (chunks content counts). split; [|done].
  rewrite <- Hcc at 1. rewrite <- Hcl at 2.
  apply unflatten_concat. by rewrite Hcc.
Qed.

Lemma unflatten_inv {A} (content : list A) counts out :
  Forall (fun c => 0 <= c) counts -> zsum counts = len content ->
  unflatten content counts = Done out ->
  concat out = content /\ map len out = counts.
Proof.
  intros Hc Hsum Hrun.
  pose proof (unflatten_Done_inv _ _ _ Hrun) as [Hw _].
  pose proof (wrap64_range (zsum counts)) as Hr. rewrite Hw in Hr.
  destruct (unflatten_nonneg content counts Hc Hsum) as (out' & Hrun' & Hout').
  { unfold in_int64 in Hr. lia. }
  rewrite Hrun in Hrun'. by injection Hrun' as <-.
Qed.

Lemma getitem_last {A} (a : list A) x : last a = Some x -> getitem a (-1) = Done x.
Proof.
  intros Hlast. unfold getitem.
  destruct a as [|y a _] using rev_ind; [done|].
  rewrite last_snoc in Hlast. injection Hlast as ->.
  rewrite len_app. unfold len. cbn [length].
  change (-1 <? 0) with true. cbv iota.
  destruct (Z.leb_spec 0 (-1 + (Z.of_nat (length a) + Z.of_nat 1))); [|lia].
  destruct (Z.ltb_spec (-1 + (Z.of_nat (length a) + Z.of_nat 1))
                       (Z.of_nat (length a) + Z.of_nat 1)); [|lia].
  cbn [andb].
  replace (Z.to_nat (-1 + (Z.of_nat (length a) + Z.of_nat 1)))
    with (length a) by lia.
  by rewrite list_lookup_middle.
Qed.

Lemma range_lookup a b (p : nat) :
  (p < Z.to_nat (b - a))%nat -> range a b !! p = Some (a + Z.of_nat p).
Proof.
  intros Hp. unfold range. by rewrite list_lookup_fmap, lookup_seq_lt.
Qed.

Lemma range_lookup_0 b (p : nat) :
  Z.of_nat p < b -> range 0 b !! p = Some (Z.of_nat p).
Proof. intros Hp. rewrite range_lookup by lia. f_equal. Qed.

Lemma range_len a b : len (range a b) = Z.max 0 (b - a).
Proof. unfold len. rewrite range_length. lia. Qed.

(** X1: counts2nestedindex cuts the running integers 0..total-1, where total
    is the last target offset, into consecutive lists whose lengths are
    the flattened local counts, for non-negative integer counts that add
    up to total; whenever the int64 sum of the counts is not the number of
    these integers it does not return. *)
Theorem counts2nestedindex_partitions (below : Stack) (d d' : dtype)
    (local_counts : list (list Z)) (target_offsets : list Z) (total : Z) :
  last target_offsets = Some total ->
  d <> float64 -> d' <> float64 ->
  (Forall (fun c => 0 <= c) (concat local_counts) /\
   zsum (concat local_counts) = Z.max 0 total /\ total <= int64_max ->
   exists out,
     counts2nestedindex (below ++ [Jagged d local_counts; Flat d' target_offsets])
       = Done (below ++ [Jagged int64 out]) /\
     concat out = range 0 total /\
     map len out = concat local_counts) /\
  (wrap64 (zsum (concat local_counts)) <> Z.max 0 total ->
   ~ returns (counts2nestedindex
                (below ++ [Jagged d local_counts; Flat d' target_offsets]))).
Proof.
  intros Hlast Hd _. unfold counts2nestedindex.
  rewrite pop_push2. cbn. rewrite pop_push. cbn.
  rewrite (getitem_last _ _ Hlast). cbn.
  rewrite bool_decide_eq_false_2 by done. split.
  - intros (Hc & Hsum & Hmax).
    destruct (unflatten_nonneg (range 0 total) (concat local_counts))
      as (out & Hout & Hparts);
      [done|rewrite range_len; lia|rewrite range_len; unfold int64_max in *; lia|].
    rewrite Hout. cbn. by exists out.
  - intros Hbad [stack' Hrun].
    apply bind_Done in Hrun as (out & Hout & _).
    apply unflatten_Done_inv in Hout as [Hw _].
    rewrite range_len in Hw. apply Hbad. rewrite Hw. f_equal. lia.
Qed.

Lemma counts2nestedindex_partitions_witness :
  counts2nestedindex [Jagged int32 [[1; 2]; [0]]; Flat int64 [0; 2; 3]]
  = Done [Jagged int64 [[0]; [1; 2]; []]].
Proof.
  destruct (counts2nestedindex_partitions [] int32 int64 [[1; 2]; [0]] [0; 2; 3] 3
              eq_refl) as [Hok _]; [discriminate|discriminate|].
  destruct Hok as (out & Hrun & _).
  { split_and!; [repeat constructor; lia|reflexivity|vm_compute; discriminate]. }
  cbn [app] in Hrun. rewrite Hrun. vm_compute in Hrun. by injection Hrun as <-.
Defined.

(** A negative count moves the next offset back: the list that ends there
    is empty and the next one starts again at the earlier offset. *)
Lemma counts2nestedindex_negative_count :
  counts2nestedindex [Jagged int64 [[2; -1; 2]]; Flat int64 [0; 3]]
  = Done [Jagged int64 [[0; 1]; []; [1; 2]]].
Proof. reflexivity. Qed.

(** The number of entries that local2global computes is a multiple of the
    number of entries of the index: the index itself is repeated when it
    has one event and the offsets bound several. *)
Lemma local2global_array_length d_index index d_target target_offsets out :
  local2global_array d_index index d_target target_offsets = Done out ->
  exists k : nat, len out = Z.of_nat k * len (concat index).
Proof.
  unfold local2global_array. intros Hrun.
  apply bind_Done in Hrun as (masked & Hmasked & Hrun).
  destruct (bool_decide _); [done|]. injection Hrun as <-.
  revert Hmasked. unfold broadcast_events.
  generalize (combine (all_but_last target_offsets) (all_but_first target_offsets)).
  intros bounds.
  set (f := fun (b : Z * Z) l =>
         local2global_entry (result_type d_index d_target) (fst b) (snd b) l).
  assert (Hzip : forall (xss : list (list Z)) bs,
            length xss = length bs ->
            len (concat (zip_with (fun xs a => map (f a) xs) xss bs))
            = len (concat xss)).
  { induction xss as [|xs xss IH]; intros [|b bs] Hl; try done.
    cbn [zip_with concat]. rewrite !len_app, IH by (cbn in Hl; lia).
    unfold len. by rewrite length_map. }
  assert (Hmap : forall (a : Z * Z) (xss : list (list Z)),
            len (concat (map (map (f a)) xss)) = len (concat xss)).
  { intros a. induction xss as [|xs xss IH]; [done|].
    cbn [map concat]. rewrite !len_app, IH. unfold len. by rewrite length_map. }
  assert (Hrep : forall (xs : list Z) bs,
            len (concat (map (fun a => map (f a) xs) bs))
            = Z.of_nat (length bs) * len xs).
  { intros xs. induction bs as [|b bs IH]; [done|].
    cbn [map concat length]. rewrite len_app, IH. unfold len.
    rewrite length_map. lia. }
  destruct (decide (length index = length bounds)) as [Hl|Hl].
  { intros [= <-]. exists 1%nat. rewrite Hzip by done. lia. }
  destruct index as [|xs [|xs' index]].
  - destruct bounds as [|a [|]]; try done. intros [= <-]. by exists 0%nat.
  - intros [= <-]. exists (length bounds). rewrite Hrep. cbn [concat].
    by rewrite app_nil_r.
  - destruct bounds as [|a [|]]; try done. intros [= <-]. exists 1%nat.
    transitivity (len (concat (xs :: xs' :: index)));
      [exact (Hmap a (xs :: xs' :: index))|lia].
Qed.

Lemma concat_same_shape {A} (xss yss : list (list A)) :
  map length xss = map length yss -> concat xss = concat yss -> xss = yss.
Proof.
  revert yss. induction xss as [|xs xss IH]; intros [|ys yss]; try done.
  cbn. intros [= Hl Hls] Hc.
  apply app_inj_1 in Hc as [-> Hc]; [|done]. f_equal. by apply IH.
Qed.

Lemma zsum_zero cs : Forall (fun c => c = 0) cs -> zsum cs = 0.
Proof. induction 1 as [|c cs -> _ IH]; [done|]. by rewrite zsum_cons, IH. Qed.

Section NestedLocal2Global.
Context {lib : Library}.

(** X2: when no innermost list has an entry, nested_local2global_stack pushes
    its array operand back unchanged and never looks at the target
    offsets, whatever that operand is. *)
Theorem nested_local2global_stack_empty (below : Stack) (d : dtype)
    (xsss : list (list (list Z))) (target_offsets_raw : value) :
  Forall (Forall (fun xs => xs = [])) xsss ->
  nested_local2global_stack (below ++ [Jagged2 d xsss; target_offsets_raw])
  = Done (below ++ [Jagged2 d xsss]).
Proof.
  intros Hempty. unfold nested_local2global_stack.
  rewrite pop_push2. cbn. rewrite pop_push. cbn.
  assert (Hsum : zsum (concat (map (map len) xsss)) = 0).
  { apply zsum_zero, Forall_concat, Forall_fmap.
    eapply Forall_impl; [exact Hempty|]. intros xss Hxss. cbn.
    apply Forall_fmap. eapply Forall_impl; [exact Hxss|]. by intros xs ->. }
  rewrite Hsum. done.
Qed.

(** X3: whenever nested_local2global_stack returns, it has replaced its two
    operands by a doubly-nested array with the nesting of the array
    operand: the same number of lists and the same length of each. *)
Theorem nested_local2global_stack_keeps_shape (below stack' : Stack) (d : dtype)
    (xsss : list (list (list Z))) (target_offsets_raw : value) :
  nested_local2global_stack (below ++ [Jagged2 d xsss; target_offsets_raw])
    = Done stack' ->
  exists d' result,
    stack' = below ++ [Jagged2 d' result] /\
    map (map length) result = map (map length) xsss.
Proof.
  unfold nested_local2global_stack.
  rewrite pop_push2. cbn. rewrite pop_push. cbn.
  destruct (wrap64 _ =? 0) eqn:Hguard.
  { intros [= <-]. eauto. }
  intros Hrun.
  apply bind_Done in Hrun as ([d_target raw] & Hraw & Hrun).
  apply bind_Done in Hrun as (out & Hout & Hrun).
  apply bind_Done in Hrun as (flat & Hflat & Hrun).
  apply bind_Done in Hrun as (nested & Hnested & Hrun).
  injection Hrun as <-. exists int64, nested. split; [done|].
  set (counts2 := concat (map (map len) xsss)) in *.
  assert (Hc2 : Forall (fun c => 0 <= c) counts2).
  { apply Forall_concat, Forall_fmap, Forall_true. intros xss.
    apply Forall_fmap, Forall_true. intros. apply len_nonneg. }
  assert (Hc1 : Forall (fun c => 0 <= c) (map len xsss)).
  { apply Forall_fmap, Forall_true. intros. apply len_nonneg. }
  assert (Hentries : len (concat (map (fun xss => map (cast d int64) (concat xss))
                                      xsss)) = zsum counts2).
  { unfold counts2. clear. induction xsss as [|xss xsss IH]; [done|].
    cbn [map concat]. rewrite len_app, zsum_app, IH. f_equal.
    unfold len. rewrite length_map. clear.
    induction xss as [|xs xss IH]; [done|].
    cbn [map concat]. rewrite length_app, zsum_cons, <- IH. unfold len. lia. }
  assert (Hsum2 : zsum counts2 = len out).
  { apply local2global_array_length in Hout as [k Hk]. rewrite Hentries in Hk.
    pose proof (unflatten_Done_inv _ _ _ Hflat) as [Hw _].
    pose proof (zsum_nonneg _ Hc2) as Hs.
    pose proof (wrap64_le _ Hs) as Hle.
    destruct (decide (zsum counts2 = 0)) as [Hz|Hz].
    { rewrite Hz in Hguard. by cbn in Hguard. }
    destruct k as [|[|k]]; [| lia |nia].
    rewrite Hk in Hw. apply Z.eqb_neq in Hguard. lia. }
  apply (unflatten_inv _ _ _ Hc2 Hsum2) in Hflat as [Hflat_c Hflat_l].
  assert (Hsum1 : zsum (map len xsss) = len flat).
  { assert (Hl : len flat = len counts2).
    { unfold len. by rewrite <- (length_map len flat), Hflat_l. }
    rewrite Hl. unfold counts2. clear.
    induction xsss as [|xss xsss IH]; [done|].
    cbn [map concat]. rewrite zsum_cons, len_app, <- IH. unfold len.
    by rewrite length_map. }
  apply (unflatten_inv _ _ _ Hc1 Hsum1) in Hnested as [Hnested_c Hnested_l].
  subst counts2.
  assert (Hlen : forall {A} (l : list (list A)), map len l = map Z.of_nat (map length l)).
  { intros A l. by rewrite map_map. }
  assert (Hinj : forall l k : list nat, map Z.of_nat l = map Z.of_nat k -> l = k).
  { intros l k Hlk. apply (inj (fmap Z.of_nat)). exact Hlk. }
  apply concat_same_shape.
  - rewrite !map_map. cbn. setoid_rewrite length_map.
    rewrite (Hlen _ nested), (Hlen _ xsss) in Hnested_l. by apply Hinj.
  - rewrite <- !concat_map. rewrite Hnested_c.
    rewrite (Hlen _ flat) in Hflat_l.
    assert (Hx : concat (map (map len) xsss)
                 = map Z.of_nat (concat (map (map length) xsss))).
    { rewrite concat_map, map_map. f_equal. apply map_ext. intros.
      unfold len. by rewrite map_map. }
    rewrite Hx in Hflat_l. apply Hinj in Hflat_l.
    by rewrite concat_map.
Qed.

End NestedLocal2Global.

Lemma nested_local2global_stack_empty_witness :
  nested_local2global_stack (lib := plain_library)
    [Jagged2 int32 [[[]; []]; []]; Str "not offsets"]
  = Done [Jagged2 int32 [[[]; []]; []]].
Proof.
  apply (nested_local2global_stack_empty (lib := plain_library) []).
  repeat constructor.
Defined.

Lemma nested_local2global_stack_keeps_shape_witness :
  exists d' result,
    [Jagged2 int64 [[[0; -1]; [1]]; [[-1]]]] = [] ++ [Jagged2 d' result] /\
    map (map length) result = map (map length) [[[0; 5]; [1]]; [[-1]]].
Proof.
  apply (nested_local2global_stack_keeps_shape (lib := plain_library) []
           _ int32 [[[0; 5]; [1]]; [[-1]]] (Flat int64 [0; 2; 4])).
  reflexivity.
Defined.

(** ** nestedindex *)

Lemma map_each_lookup {A B} (f : A -> outcome B) xs ys i x :
  map_each f xs = Done ys -> xs !! i = Some x ->
  exists y, ys !! i = Some y /\ f x = Done y.
Proof.
  intros Hrun%map_each_Forall2 Hx.
  destruct (Forall2_lookup_l _ _ _ _ _ Hrun Hx) as (y & Hy & Hf). eauto.
Qed.

Lemma map_each_length {A B} (f : A -> outcome B) xs ys :
  map_each f xs = Done ys -> length ys = length xs.
Proof. intros Hrun%map_each_Forall2. symmetry. by eapply Forall2_length. Qed.

Lemma map_each_returns {A B} (f : A -> outcome B) xs :
  Forall (fun x => returns (f x)) xs -> returns (map_each f xs).
Proof.
  induction 1 as [|x xs [y Hy] _ [ys Hys]]; [by eexists|].
  cbn. rewrite Hy. cbn. rewrite Hys. by eexists.
Qed.

Lemma write_stride_length out pos step vals :
  length (write_stride out pos step vals) = length out.
Proof.
  revert out pos. induction vals as [|v vals IH]; intros out pos; [done|].
  cbn [write_stride]. by rewrite IH, length_insert.
Qed.

Lemma write_stride_lookup_miss out pos step vals q :
  (forall p, (p < length vals)%nat -> q <> (pos + p * step)%nat) ->
  write_stride out pos step vals !! q = out !! q.
Proof.
  revert out pos. induction vals as [|v vals IH]; intros out pos Hq; [done|].
  cbn [write_stride]. rewrite IH.
  - apply list_lookup_insert_ne. specialize (Hq 0%nat). cbn in Hq. lia.
  - intros p Hp. specialize (Hq (S p)). cbn in Hq. lia.
Qed.

Lemma write_stride_lookup_hit out pos step vals p v :
  (0 < step)%nat -> vals !! p = Some v -> (pos + p * step < length out)%nat ->
  write_stride out pos step vals !! (pos + p * step)%nat = Some v.
Proof.
  intros Hstep. revert out pos p.
  induction vals as [|w vals IH]; intros out pos p Hv Hlt; [done|].
  cbn [write_stride]. destruct p as [|p].
  - injection Hv as ->. rewrite write_stride_lookup_miss.
    + rewrite Nat.mul_0_l, Nat.add_0_r. apply list_lookup_insert_eq. lia.
    + intros q _. nia.
  - cbn in Hv. replace (pos + S p * step)%nat with (pos + step + p * step)%nat by lia.
    apply IH; [done|]. rewrite length_insert. lia.
Qed.

Lemma lookup_combine {A B} (l : list A) (k : list B) i a b :
  l !! i = Some a -> k !! i = Some b -> combine l k !! i = Some (a, b).
Proof.
  revert k i. induction l as [|x l IH]; intros [|y k] [|i]; cbn; try done.
  - by intros [= ->] [= ->].
  - apply IH.
Qed.

(** The list between two consecutive offsets. *)
Lemma sublists_lookup {A} (offsets : list Z) (content : list A) p a b :
  offsets !! p = Some a -> offsets !! S p = Some b ->
  sublists offsets content !! p = Some (slice content a b).
Proof.
  intros Ha Hb. unfold sublists, all_but_last, all_but_first.
  rewrite list_lookup_fmap, (lookup_combine _ _ _ a b); [done| |].
  - rewrite removelast_firstn_len, lookup_take_lt; [done|].
    apply lookup_lt_Some in Hb. lia.
  - by rewrite lookup_tail.
Qed.

Lemma arange_strides (n m : nat) :
  (0 < n)%nat ->
  arange 0 (Z.of_nat (n * m) + 1) (Z.of_nat n)
  = map (fun k => Z.of_nat (k * n)) (seq 0 (S m)).
Proof.
  intros Hn. unfold arange.
  replace (Z.of_nat (n * m) + 1 - 0 + Z.of_nat n - 1)
    with ((Z.of_nat m + 1) * Z.of_nat n) by lia.
  rewrite Z.div_mul by lia.
  replace (Z.to_nat (Z.of_nat m + 1)) with (S m) by lia.
  apply map_ext. intros k. lia.
Qed.

Lemma broadcast_to_entries (f : Z -> Z) (m : nat) (column : list Z) :
  length column = m \/ length column = 1%nat ->
  exists vals,
    broadcast_to m (map f column) = Done vals /\ length vals = m /\
    (forall p, (p < m)%nat -> vals !! p = f <$> broadcast_entry m column p).
Proof.
  intros Hlen. unfold broadcast_to, broadcast_entry. rewrite length_map.
  destruct (decide (length column = m)) as [Hm|Hm].
  - exists (map f column). split_and!; [done|by rewrite length_map|].
    intros p _. by rewrite list_lookup_fmap.
  - destruct Hlen as [|Hone]; [done|].
    destruct column as [|v [|]]; try done.
    exists (replicate m (f v)). split_and!; [done|by rewrite length_replicate|].
    intros p Hp. cbn. by apply lookup_replicate_2.
Qed.

Section NestedIndex.
Context {lib : Library}.

(** The loop of [nestedindex] over the operands that follow [done]: every
    operand fills the positions of its own residue and leaves the others. *)
Lemma nestedindex_loop (n m : nat) (done rest : list (dtype * list Z))
    (out : list Z) :
  n = length (done ++ rest) ->
  Forall (fun c => length (snd c) = m \/ length (snd c) = 1%nat) rest ->
  length out = (n * m)%nat ->
  (forall i p d column, done !! i = Some (d, column) -> (p < m)%nat ->
     out !! (i + p * n)%nat = cast d int64 <$> broadcast_entry m column p) ->
  exists out',
    for_each (zip (seq (length done) (length rest))
                  (map (fun c => Flat (fst c) (snd c)) rest))
      (fun out i_idx =>
         '(d, idx) ← as_flat (snd i_idx);
         vals ← broadcast_to m (map (cast d int64) idx);
         Done (write_stride out (fst i_idx) n vals))
      out
    = Done out' /\
    length out' = (n * m)%nat /\
    (forall i p d column, (done ++ rest) !! i = Some (d, column) -> (p < m)%nat ->
       out' !! (i + p * n)%nat = cast d int64 <$> broadcast_entry m column p).
Proof.
  revert done out. induction rest as [|[d column] rest IH];
    intros done out Hn Hlens Hout Hinv.
  - exists out. rewrite app_nil_r. by split_and!.
  - apply Forall_cons in Hlens as [Hlen Hlens]. cbn [snd] in Hlen.
    destruct (broadcast_to_entries (cast d int64) m column Hlen)
      as (vals & Hvals & Hvl & Hv).
    cbn [length seq map zip_with for_each fst snd as_flat].
    rewrite bind_ret. cbn [fst snd]. rewrite Hvals, !bind_ret.
    assert (Hi : (length done < n)%nat).
    { rewrite Hn, length_app. cbn. lia. }
    destruct (IH (done ++ [(d, column)])
                 (write_stride out (length done) n vals))
      as (out' & Hrun & Hout' & Hinv').
    + by rewrite <- app_assoc.
    + done.
    + by rewrite write_stride_length.
    + intros i p d' column' Hlook Hp.
      destruct (decide (i = length done)) as [->|Hne].
      * rewrite list_lookup_middle in Hlook by done. injection Hlook as <- <-.
        rewrite <- Hv by done.
        destruct (lookup_lt_is_Some_2 vals p) as [v Hvp]; [lia|].
        rewrite Hvp. apply write_stride_lookup_hit; [lia|done|nia].
      * assert (Hlt : (i < length done)%nat).
        { apply lookup_lt_Some in Hlook. rewrite length_app in Hlook. cbn in Hlook.
          lia. }
        rewrite lookup_app_l in Hlook by done.
        rewrite write_stride_lookup_miss; [by apply Hinv|].
        intros q _ Heq.
        destruct (Nat.lt_trichotomy p q) as [Hpq|[->|Hpq]].
        -- assert ((p + 1) * n <= q * n)%nat by (apply Nat.mul_le_mono_r; lia).
           lia.
        -- lia.
        -- assert ((q + 1) * n <= p * n)%nat by (apply Nat.mul_le_mono_r; lia).
           lia.
    + exists out'. rewrite length_app in Hrun. cbn [length] in Hrun.
      replace (length done + 1)%nat with (S (length done)) in Hrun by lia.
      split_and!; [exact Hrun|done|].
      intros i p d' column'. rewrite <- app_assoc in Hinv'. apply Hinv'.
Qed.

(** X4: nestedindex interleaves its operands: for one-dimensional operands of
    the length m of the first, or of length one, it leaves a single array
    of m rows with one entry per operand; row p holds, at position i,
    entry p of operand i (its only entry when the operand is repeated),
    converted to int64. *)
Theorem nestedindex_rows (columns : list (dtype * list Z)) (m : nat)
    (d0 : dtype) (first : list Z) :
  head columns = Some (d0, first) ->
  length first = m ->
  Forall (fun c => length (snd c) = m \/ length (snd c) = 1%nat) columns ->
  exists rows,
    nestedindex (map (fun c => Flat (fst c) (snd c)) columns)
      = Done [Jagged int64 rows] /\
    length rows = m /\
    Forall (fun row => length row = length columns) rows /\
    (forall p i d column,
       (p < m)%nat -> columns !! i = Some (d, column) ->
       exists row, rows !! p = Some row /\
                   row !! i = cast d int64 <$> broadcast_entry m column p).
Proof.
  intros Hhead Hfirst Hlens. unfold nestedindex.
  destruct columns as [|c columns]; [done|]. injection Hhead as ->.
  set (cols := (d0, first) :: columns) in *.
  set (n := length cols).
  assert (Hn : (0 < n)%nat) by (unfold n, cols; cbn; lia).
  change (getitem (map (fun c => Flat (fst c) (snd c)) cols) 0)
    with (Done (Flat d0 first)).
  rewrite bind_ret. cbn [value_len]. unfold len. rewrite Nat2Z.id, Hfirst.
  rewrite length_map. fold n.
  destruct (nestedindex_loop n m [] cols (replicate (n * m) 0))
    as (out & Hrun & Hout & Hinv);
    [done|done|by rewrite length_replicate|done|].
  cbn [length] in Hrun. fold n in Hrun. rewrite Hrun, bind_ret.
  cbn [app] in Hinv. unfold push. cbn [app]. rewrite Hout, arange_strides by done.
  set (offsets := map (fun k => Z.of_nat (k * n)) (seq 0 (S m))).
  assert (Hoff : forall p, (p <= m)%nat -> offsets !! p = Some (Z.of_nat (p * n))).
  { intros p Hp. unfold offsets. rewrite list_lookup_fmap, lookup_seq_lt by lia.
    done. }
  assert (Hrow : forall p, (p < m)%nat ->
            sublists offsets out !! p
            = Some (take n (drop (p * n) out))).
  { intros p Hp.
    rewrite (sublists_lookup _ _ _ (Z.of_nat (p * n)) (Z.of_nat (S p * n)))
      by (apply Hoff; lia).
    unfold slice. rewrite Nat2Z.id.
    by replace (Z.to_nat (Z.of_nat (S p * n) - Z.of_nat (p * n))) with n by lia. }
  assert (Hrows : length (sublists offsets out) = m).
  { apply sublists_length. unfold offsets. by rewrite length_map, length_seq. }
  eexists. split; [reflexivity|]. split_and!.
  - exact Hrows.
  - apply Forall_lookup. intros p row Hp.
    assert (p < m)%nat by (apply lookup_lt_Some in Hp; lia).
    rewrite Hrow in Hp by done. injection Hp as <-.
    rewrite length_take, length_drop. fold n. nia.
  - intros p i d column Hp Hi. eexists. split; [by apply Hrow|].
    assert (i < n)%nat by (by apply lookup_lt_Some in Hi).
    rewrite lookup_take_lt, lookup_drop by done.
    rewrite <- (Hinv i p d column Hi Hp). f_equal. lia.
Qed.

End NestedIndex.

Lemma nestedindex_rows_witness :
  nestedindex (lib := plain_library)
    [Flat int64 [1; 2]; Flat int32 [3]; Flat int64 [5; 6]]
  = Done [Jagged int64 [[1; 3; 5]; [2; 3; 6]]].
Proof.
  destruct (nestedindex_rows (lib := plain_library)
              [(int64, [1; 2]); (int32, [3]); (int64, [5; 6])] 2 int64 [1; 2])
    as (rows & Hrun & _);
    [reflexivity|reflexivity|repeat constructor; by (left + right)|].
  cbn [map fst snd] in Hrun. rewrite Hrun.
  vm_compute in Hrun. by injection Hrun as <-.
Defined.

(** ** grow_local_index_to_target_shape *)

Lemma num_axis1_nonneg target counts :
  num_axis1 target = Done counts -> Forall (fun c => 0 <= c) counts.
Proof.
  destruct target; cbn; try done; intros [= <-];
    apply Forall_fmap, Forall_true; intros; apply len_nonneg.
Qed.

(** X5: grow_local_index_to_target_shape, for an index with at least one list
    per event of the target: the result has one list per event of the
    target, as long as that event; position j holds j when j occurs in the
    index list of the event, and -1 otherwise.  Index lists past the last
    event of the target are ignored. *)
Theorem grow_local_index_to_target_shape_marks (below : Stack) (d : dtype)
    (index : list (list Z)) (target : value) (counts : list Z) :
  num_axis1 target = Done counts ->
  (length counts <= length index)%nat ->
  exists out,
    grow_local_index_to_target_shape (below ++ [Jagged d index; target])
      = Done (below ++ [Jagged int64 out]) /\
    map len out = counts /\
    (forall e event_index c,
       index !! e = Some event_index -> counts !! e = Some c ->
       out !! e = Some (map (fun j => if zmem j event_index then j else -1)
                            (range 0 c))).
Proof.
  intros Hcounts Hlen. unfold grow_local_index_to_target_shape.
  rewrite pop_push2. cbn. rewrite pop_push. cbn. rewrite Hcounts. cbn.
  unfold _grow_local_index_to_target_shape_kernel.
  set (all_index := map (fun c => range 0 c) counts).
  set (body := fun i : Z =>
         event_all_index ← getitem all_index i;
         event_index ← getitem index i;
         Done (map (fun v => if zmem v event_index then v else -1) event_all_index)).
  assert (Hbody : forall e c, counts !! e = Some c ->
            exists event_index, index !! e = Some event_index /\
              body (Z.of_nat e)
              = Done (map (fun j => if zmem j event_index then j else -1) (range 0 c))).
  { intros e c He.
    destruct (lookup_lt_is_Some_2 index e) as [event_index Hei].
    { apply lookup_lt_Some in He. lia. }
    exists event_index. split; [done|]. unfold body.
    assert (Ha : all_index !! e = Some (range 0 c)).
    { unfold all_index. by rewrite list_lookup_fmap, He. }
    by rewrite (getitem_nat _ _ _ Ha), (getitem_nat _ _ _ Hei). }
  destruct (map_each_returns body (range 0 (len all_index))) as [out Hout].
  { apply Forall_forall. intros i Hi%elem_of_range.
    unfold len, all_index in Hi. rewrite length_map in Hi.
    destruct (lookup_lt_is_Some_2 counts (Z.to_nat i) ltac:(lia)) as [c Hc].
    destruct (Hbody _ _ Hc) as (ei & _ & Hrun).
    replace (Z.of_nat (Z.to_nat i)) with i in Hrun by lia. by eexists. }
  fold body. rewrite Hout. cbn. exists out. split; [done|].
  assert (Hrow : forall e event_index c,
            index !! e = Some event_index -> counts !! e = Some c ->
            out !! e = Some (map (fun j => if zmem j event_index then j else -1)
                                 (range 0 c))).
  { intros e event_index c Hei Hc.
    assert (Hre : range 0 (len all_index) !! e = Some (Z.of_nat e)).
    { apply range_lookup_0. unfold len, all_index. rewrite length_map.
      apply lookup_lt_Some in Hc. lia. }
    destruct (map_each_lookup _ _ _ _ _ Hout Hre) as (row & Hrow & Hrun).
    destruct (Hbody _ _ Hc) as (ei & Hei' & Hrun').
    rewrite Hei in Hei'. injection Hei' as <-. congruence. }
  split; [|exact Hrow].
  apply list_eq. intros e. rewrite list_lookup_fmap.
  pose proof (map_each_length _ _ _ Hout) as Hol.
  rewrite range_length in Hol. unfold len, all_index in Hol.
  rewrite length_map in Hol.
  destruct (counts !! e) as [c|] eqn:Hc.
  - destruct (lookup_lt_is_Some_2 index e) as [ei Hei].
    { apply lookup_lt_Some in Hc. lia. }
    rewrite (Hrow _ _ _ Hei Hc). cbn. f_equal.
    unfold len. rewrite length_map, range_length.
    pose proof (num_axis1_nonneg _ _ Hcounts) as Hnn.
    rewrite Forall_forall in Hnn.
    specialize (Hnn c (list_elem_of_lookup_2 _ _ _ Hc)). lia.
  - apply lookup_ge_None in Hc.
    rewrite (proj2 (lookup_ge_None out e)); [done|lia].
Qed.

Lemma grow_local_index_to_target_shape_marks_witness :
  grow_local_index_to_target_shape
    [Jagged int32 [[0; 2]; []; [7]]; Jagged float64 [[5; 6; 7]; [8]]]
  = Done [Jagged int64 [[0; -1; 2]; [-1]]].
Proof.
  destruct (grow_local_index_to_target_shape_marks [] int32 [[0; 2]; []; [7]]
              (Jagged float64 [[5; 6; 7]; [8]]) [3; 1] eq_refl)
    as (out & Hrun & _); [cbn; lia|].
  cbn [app] in Hrun. rewrite Hrun. vm_compute in Hrun. by injection Hrun as <-.
Defined.

(** X6: with fewer index lists than events of the target the kernel reads past
    the end of the index and does not return. *)
Theorem grow_local_index_to_target_shape_short_index (below : Stack) (d : dtype)
    (index : list (list Z)) (target : value) (counts : list Z) :
  num_axis1 target = Done counts ->
  (length index < length counts)%nat ->
  ~ returns (grow_local_index_to_target_shape (below ++ [Jagged d index; target])).
Proof.
  intros Hcounts Hlen [stack' Hrun]. unfold grow_local_index_to_target_shape in Hrun.
  rewrite pop_push2 in Hrun. cbn in Hrun. rewrite pop_push in Hrun. cbn in Hrun.
  rewrite Hcounts in Hrun. cbn in Hrun.
  apply bind_Done in Hrun as (out & Hout & _).
  unfold _grow_local_index_to_target_shape_kernel in Hout.
  assert (Hre : range 0 (len (map (fun c => range 0 c) counts)) !! length index
                = Some (Z.of_nat (length index))).
  { apply range_lookup_0. unfold len. rewrite length_map. lia. }
  destruct (map_each_lookup _ _ _ _ _ Hout Hre) as (row & _ & Hbody).
  apply bind_Done in Hbody as (eai & _ & Hbody).
  rewrite getitem_beyond in Hbody by (unfold len; lia). done.
Qed.

Lemma grow_local_index_to_target_shape_short_index_witness :
  ~ returns (grow_local_index_to_target_shape
               [Jagged int32 [[0]]; Jagged float64 [[5; 6]; [8]]]).
Proof.
  apply (grow_local_index_to_target_shape_short_index [] int32 [[0]]
           (Jagged float64 [[5; 6]; [8]]) [2; 1] eq_refl).
  cbn. lia.
Defined.

(** ** The lists of children, particle by particle *)

Lemma bind_concat_map {A B} (f : A -> list B) (l : list A) :
  l ≫= f = concat (map f l).
Proof. induction l as [|x l IH]; [done|]. cbn. by rewrite <- IH. Qed.

Lemma children_index_loop_offsets parentidx stop ks b :
  stop <= len parentidx ->
  (forall k, k ∈ ks -> 0 <= k) ->
  (length (content_out b) + length (concat (map (children_of parentidx stop) ks))
     <= length parentidx)%nat ->
  (length (offsets_out b) + length ks <= S (length parentidx))%nat ->
  for_each ks (children_index (len parentidx) parentidx stop) b
  = Done (Buffers
            (offsets_out b ++
             running_lengths (length (content_out b))
                             (map (children_of parentidx stop) ks))
            (content_out b ++ concat (map (children_of parentidx stop) ks))).
Proof.
  intros Hstop. revert b. induction ks as [|k ks IH]; intros [offs cont] Hks Hc Ho.
  - cbn. by rewrite !app_nil_r.
  - cbn [offsets_out content_out map concat running_lengths] in *.
    rewrite length_app in Hc. cbn [length] in Ho.
    cbn [for_each].
    change (children_index (len parentidx) parentidx stop (Buffers offs cont) k)
      with (content ← for_each (range k stop)
                        (children_scan (len parentidx) parentidx k) cont;
            if len offs >=? len parentidx + 1
            then Raise (RuntimeError "offset0 went out of bounds!")
            else Done (Buffers (offs ++ [len content]) content)).
    assert (Hk : 0 <= k) by (apply Hks; left).
    unfold children_of at 1 in Hc.
    rewrite children_scan_loop; [|intros j Hj%elem_of_range; lia | lia].
    rewrite bind_ret.
    destruct (Z.geb_spec (len offs) (len parentidx + 1));
      [unfold len in *; lia|].
    rewrite bind_ret. fold (children_of parentidx stop k).
    rewrite IH.
    + cbn [offsets_out content_out]. f_equal. f_equal.
      * rewrite <- app_assoc. cbn. unfold len. rewrite length_app.
        do 3 f_equal.
      * by rewrite <- app_assoc.
    + intros k' Hk'. apply Hks. by right.
    + cbn. rewrite length_app. unfold children_of at 1. lia.
    + cbn. rewrite length_app. cbn. lia.
Qed.

Lemma children_event_loop_offsets offsets parentidx m a b :
  valid_offsets offsets (len parentidx) ->
  (a + m < length offsets)%nat ->
  let lists := seq a m ≫=
    (fun r => map (children_of parentidx (offset_at offsets (S r)))
                  (range (offset_at offsets r) (offset_at offsets (S r)))) in
  (length (content_out b) + length (concat lists) <= length parentidx)%nat ->
  (length (offsets_out b) + length lists <= S (length parentidx))%nat ->
  for_each (map Z.of_nat (seq a m)) (children_event offsets parentidx) b
  = Done (Buffers
            (offsets_out b ++ running_lengths (length (content_out b)) lists)
            (content_out b ++ concat lists)).
Proof.
  intros Hv. revert a b. induction m as [|m IH]; intros a [offs cont] Ham lists Hc Ho.
  - cbn. by rewrite !app_nil_r.
  - subst lists. cbn [offsets_out content_out] in *.
    cbn [seq] in Hc, Ho |- *. rewrite bind_cons in Hc, Ho |- *.
    rewrite concat_app, length_app in Hc. rewrite length_app in Ho.
    cbn [map for_each].
    change (children_event offsets parentidx (Buffers offs cont) (Z.of_nat a))
      with (start_src ← getitem offsets (Z.of_nat a);
            stop_src ← getitem offsets (Z.of_nat a + 1);
            for_each (range start_src stop_src)
              (children_index (len parentidx) parentidx stop_src)
              (Buffers offs cont)).
    assert (Hra : offsets !! a = Some (offset_at offsets a)).
    { unfold offset_at. destruct (nth_lookup_or_length offsets a 0); [done|lia]. }
    assert (Hrb : offsets !! S a = Some (offset_at offsets (S a))).
    { unfold offset_at. destruct (nth_lookup_or_length offsets (S a) 0); [done|lia]. }
    rewrite (getitem_nat _ _ _ Hra), bind_ret.
    replace (Z.of_nat a + 1) with (Z.of_nat (S a)) by lia.
    rewrite (getitem_nat _ _ _ Hrb), bind_ret.
    pose proof (offsets_bounds offsets _ a Hv ltac:(lia)) as Ba.
    pose proof (offsets_bounds offsets _ (S a) Hv ltac:(lia)) as Bb.
    rewrite length_map in Ho.
    rewrite children_index_loop_offsets;
      [|lia|intros k Hk%elem_of_range; lia|cbn; lia|cbn; lia].
    rewrite bind_ret. cbn [offsets_out content_out].
    rewrite IH.
    + cbn [offsets_out content_out]. f_equal. f_equal.
      * rewrite <- app_assoc. f_equal. rewrite running_lengths_app.
        f_equal. f_equal. by rewrite length_app.
      * by rewrite concat_app, <- app_assoc.
    + lia.
    + cbn. rewrite length_app. lia.
    + cbn. rewrite length_app, running_lengths_length, length_map. lia.
Qed.

Lemma particle_children_concat offsets parentidx :
  concat (particle_children offsets parentidx) = all_children offsets parentidx.
Proof.
  unfold particle_children, all_children.
  induction (seq 0 (length offsets - 1)) as [|r rs IH]; [done|].
  rewrite !bind_cons, concat_app, IH. f_equal.
  unfold event_children. by rewrite bind_concat_map.
Qed.

Lemma particle_children_length offsets parentidx n :
  valid_offsets offsets n ->
  length (particle_children offsets parentidx) = Z.to_nat n.
Proof.
  intros Hv.
  assert (Hl : length (particle_children offsets parentidx)
               = sum_list_with (event_size offsets) (seq 0 (length offsets - 1))).
  { unfold particle_children.
    induction (seq 0 (length offsets - 1)) as [|r rs IH]; [done|].
    rewrite bind_cons, length_app, IH, length_map, range_length.
    reflexivity. }
  pose proof Hv as (Hpos & H0 & Hn & _).
  pose proof (event_sizes_sum offsets n 0 (length offsets - 1) Hv ltac:(lia)) as Hs.
  rewrite Nat.add_0_l, Hn, H0 in Hs. lia.
Qed.

Lemma particle_children_lookup offsets parentidx n r k :
  valid_offsets offsets n ->
  (S r < length offsets)%nat ->
  offset_at offsets r <= k < offset_at offsets (S r) ->
  particle_children offsets parentidx !! Z.to_nat k
  = Some (children_of parentidx (offset_at offsets (S r)) k).
Proof.
  intros Hv Hr Hk. pose proof Hv as (Hpos & H0 & _).
  unfold particle_children.
  assert (Hgen : forall m a, (a <= r < a + m)%nat -> (a + m < length offsets)%nat ->
    (seq a m ≫=
       (fun r => map (children_of parentidx (offset_at offsets (S r)))
                     (range (offset_at offsets r) (offset_at offsets (S r)))))
      !! Z.to_nat (k - offset_at offsets a)
    = Some (children_of parentidx (offset_at offsets (S r)) k)).
  { induction m as [|m IH]; intros a Har Ham; [lia|].
    cbn [seq]. rewrite bind_cons.
    pose proof (offsets_monotone offsets n a (S a) Hv ltac:(lia)) as Hmono.
    destruct (decide (a = r)) as [->|Hne].
    - rewrite lookup_app_l by (rewrite length_map, range_length; lia).
      rewrite list_lookup_fmap, range_lookup by lia. cbn. do 2 f_equal. lia.
    - pose proof (offsets_monotone offsets n (S a) r Hv ltac:(lia)) as Hmono'.
      rewrite lookup_app_r by (rewrite length_map, range_length; lia).
      rewrite length_map, range_length.
      replace (Z.to_nat (k - offset_at offsets a)
               - Z.to_nat (offset_at offsets (S a) - offset_at offsets a))%nat
        with (Z.to_nat (k - offset_at offsets (S a))) by lia.
      apply IH; lia. }
  specialize (Hgen (length offsets - 1)%nat 0%nat ltac:(lia) ltac:(lia)).
  rewrite H0, Z.sub_0_r in Hgen. exact Hgen.
Qed.

Lemma increasing_cons x l :
  Forall (fun y => x < y) l -> increasing l -> increasing (x :: l).
Proof.
  intros Hx Hl [|i] [|j] a b Hij Ha Hb; try lia; cbn in *.
  - injection Ha as <-. rewrite Forall_forall in Hx.
    apply Hx. by eapply list_elem_of_lookup_2.
  - eapply (Hl i j); [lia|done|done].
Qed.

Lemma children_of_increasing parentidx stop k :
  increasing (children_of parentidx stop k).
Proof.
  unfold children_of, range. generalize (Z.to_nat (stop - k)) as n. intros n.
  assert (Hgen : forall s,
    increasing (filter (fun j => parentidx !! Z.to_nat j = Some k)
                       (map (fun i => k + Z.of_nat i) (seq s n))) /\
    Forall (fun x => k + Z.of_nat s <= x)
           (filter (fun j => parentidx !! Z.to_nat j = Some k)
                   (map (fun i => k + Z.of_nat i) (seq s n)))).
  { induction n as [|n IH]; intros s.
    - split; [|constructor]. intros i j x y _ Hx. done.
    - destruct (IH (S s)) as [Hinc Hge]. cbn [seq map]. rewrite filter_cons.
      assert (Hge' : Forall (fun x => k + Z.of_nat s < x)
                (filter (fun j => parentidx !! Z.to_nat j = Some k)
                        (map (fun i => k + Z.of_nat i) (seq (S s) n)))).
      { eapply Forall_impl; [exact Hge|]. intros x Hx. cbn in Hx. lia. }
      case_decide.
      + split; [by apply increasing_cons|]. constructor; [lia|].
        eapply Forall_impl; [exact Hge'|]. intros x Hx. cbn in Hx. lia.
      + split; [done|]. eapply Forall_impl; [exact Hge'|]. intros x Hx. cbn in Hx. lia. }
  apply Hgen.
Qed.

(** X7: with offsets valid for the parent array, the array built by the
    children kernel has one list per particle; the list of particle k of
    an event [start, stop) holds exactly the positions j with
    k <= j < stop and parent[j] = k, in increasing order. *)
Theorem children_kernel_lists (offsets_in parentidx : list Z) :
  valid_offsets offsets_in (len parentidx) ->
  exists b,
    _children_kernel offsets_in parentidx = Done b /\
    length (jagged_of b) = length parentidx /\
    (forall r k, (S r < length offsets_in)%nat ->
       offset_at offsets_in r <= k < offset_at offsets_in (S r) ->
       exists kids,
         jagged_of b !! Z.to_nat k = Some kids /\
         increasing kids /\
         (forall j, j ∈ kids <->
            parentidx !! Z.to_nat j = Some k /\
            k <= j < offset_at offsets_in (S r))).
Proof.
  intros Hv. pose proof Hv as (Hpos & H0 & Hn & _).
  unfold _children_kernel.
  replace (range 0 (len offsets_in - 1))
    with (map Z.of_nat (seq 0 (length offsets_in - 1))).
  2:{ unfold range, len. replace (Z.to_nat (Z.of_nat (length offsets_in) - 1 - 0))
        with (length offsets_in - 1)%nat by lia.
      apply map_ext. intros; lia. }
  pose proof (all_children_length offsets_in parentidx Hv) as Hlen.
  pose proof (particle_children_length offsets_in parentidx _ Hv) as Hpl.
  pose proof (particle_children_concat offsets_in parentidx) as Hpc.
  unfold len in Hpl. rewrite Nat2Z.id in Hpl.
  rewrite children_event_loop_offsets; [|done|lia|..].
  - fold (particle_children offsets_in parentidx).
    eexists. split; [done|]. unfold jagged_of. cbn [offsets_out content_out].
    change ([0] ++ running_lengths (length (@nil Z))
                     (particle_children offsets_in parentidx))
      with (Z.of_nat (length (@nil Z)) ::
            running_lengths (length (@nil Z))
              (particle_children offsets_in parentidx)).
    rewrite sublists_running. split; [done|].
    intros r k Hr Hk. eexists. split_and!.
    + by eapply particle_children_lookup.
    + apply children_of_increasing.
    + intros j. apply elem_of_children_of.
  - fold (particle_children offsets_in parentidx). cbn. rewrite Hpc. exact Hlen.
  - fold (particle_children offsets_in parentidx). cbn. lia.
Qed.

Lemma children_kernel_lists_witness :
  exists b, _children_kernel [0; 4] [-1; 0; 0; 1] = Done b /\
            jagged_of b = [[1; 2]; [3]; []; []].
Proof.
  destruct (children_kernel_lists [0; 4] [-1; 0; 0; 1]) as (b & Hrun & _).
  - split_and!; [cbn; lia|reflexivity|reflexivity|].
    intros [|r] Hr; cbn in *; lia.
  - exists b. split; [exact Hrun|].
    vm_compute in Hrun. by injection Hrun as <-.
Defined.

(** ** More on distinctParent *)

Lemma climb_le parent pdg s p q :
  parents_before_children parent -> climb parent pdg s p q -> q <= p.
Proof.
  intros Hpbc. induction 1 as [p _|p p' q Hp _ Hp' _ IH]; [lia|].
  apply Hpbc in Hp'. lia.
Qed.

(** X8: with parents stored before their children, the distinct parent of
    particle i is -1 or a particle stored before i, of another species
    than i. *)
Theorem distinctParent_precedes (fuel : nat) (parent pdg out : list Z)
    (i : nat) (q : Z) :
  parents_before_children parent ->
  Forall (fun p => -1 <= p) parent ->
  _distinctParent_kernel fuel parent pdg = Done out ->
  out !! i = Some q ->
  q = -1 \/
  (0 <= q < Z.of_nat i /\
   exists s t, pdg !! i = Some s /\ pdg !! Z.to_nat q = Some t /\ t <> s).
Proof.
  intros Hpbc Hroot Hrun Hq.
  apply distinctParent_kernel_partial in Hrun as [Hlen Hat].
  assert (Hi : (i < length pdg)%nat).
  { apply lookup_lt_Some in Hq. lia. }
  destruct (Hat i Hi) as (p0 & Hp0 & Hneg & Hpos).
  destruct (Z.ltb_spec p0 0) as [H0|H0].
  - left. specialize (Hneg H0). congruence.
  - destruct (Hpos H0) as (s & q' & Hs & Hq' & Hclimb & Hend).
    assert (q' = q) as -> by congruence.
    pose proof (climb_le _ _ _ _ _ Hpbc Hclimb) as Hle.
    pose proof (Hpbc _ _ Hp0) as Hlt.
    destruct (Z.ltb_spec q 0) as [Hqn|Hqn].
    + left. eapply climb_end_root; [done| |done|done]. lia.
    + right. split; [lia|]. destruct Hend as [?|(t & Ht & Hne)]; [lia|].
      eauto.
Qed.

Lemma distinctParent_precedes_witness :
  (1 : Z) = -1 \/
  (0 <= 1 < Z.of_nat 2 /\
   exists s t, [11; 11; 22] !! 2%nat = Some s /\
               [11; 11; 22] !! Z.to_nat 1 = Some t /\ t <> s).
Proof.
  apply (distinctParent_precedes 3 [-1; 0; 1] [11; 11; 22] [-1; -1; 1] 2 1).
  - intros [|[|[|i]]] p Hp; cbn in Hp; simplify_eq; lia.
  - repeat constructor; lia.
  - reflexivity.
  - reflexivity.
Defined.

Lemma getitem_Raise {A} (a : list A) i e : getitem a i = Raise e -> e = IndexError.
Proof.
  unfold getitem. destruct (_ && _); [|by intros [= <-]].
  destruct (a !! _); [done|by intros [= <-]].
Qed.

Lemma for_each_Raise {A S} (xs : list A) (body : S -> A -> outcome S) s e :
  for_each xs body s = Raise e -> exists s' x, body s' x = Raise e.
Proof.
  revert s. induction xs as [|x xs IH]; intros s; cbn; [done|].
  destruct (body s x) as [s'| |] eqn:Hbody; cbn; [apply IH| |done].
  intros [= <-]. eauto.
Qed.

Lemma distinctParent_walk_no_RuntimeError fuel parent pdg s p msg :
  distinctParent_walk fuel parent pdg s p <> Raise (RuntimeError msg).
Proof.
  revert p. induction fuel as [|fuel IH]; intros p; cbn; [done|].
  destruct (p >=? 0) eqn:Hp0; [|done].
  destruct (getitem pdg p) as [t| |] eqn:Ht; cbn;
    [|intros [= ->]; by apply getitem_Raise in Ht|done].
  destruct (t =? s); [|done].
  apply getitem_nonneg_inv in Ht as [_ Hlt]; [|lia].
  destruct (Z.geb_spec p (len pdg)); [lia|].
  destruct (getitem parent p) as [p'| |] eqn:Hp'; cbn;
    [apply IH|intros [= ->]; by apply getitem_Raise in Hp'|done].
Qed.

(** X9: the explicit test "parent index beyond length of array!" is never
    reached: the read of the species at that index, in the condition of the
    loop, comes first and fails for such an index.  The kernel never raises
    a RuntimeError. *)
Theorem distinctParent_kernel_no_RuntimeError (fuel : nat)
    (allpart_parent allpart_pdg : list Z) (msg : string) :
  _distinctParent_kernel fuel allpart_parent allpart_pdg
  <> Raise (RuntimeError msg).
Proof.
  unfold _distinctParent_kernel. intros (out & i & Hbody)%for_each_Raise.
  unfold distinctParent_body in Hbody.
  destruct (getitem allpart_parent i) as [p0| |] eqn:Hp0; cbn in Hbody;
    [|injection Hbody as ->; by apply getitem_Raise in Hp0|done].
  destruct (p0 <? 0); [done|].
  destruct (getitem allpart_pdg i) as [s| |] eqn:Hs; cbn in Hbody;
    [|injection Hbody as ->; by apply getitem_Raise in Hs|done].
  destruct (distinctParent_walk fuel allpart_parent allpart_pdg s p0)
    as [r| |] eqn:Hw; cbn in Hbody; [done| |done].
  injection Hbody as ->. by apply distinctParent_walk_no_RuntimeError in Hw.
Qed.

(** X10: a parent index past the end of the arrays makes the kernel fail, for a
    particle whose own entries can be read. *)
Theorem distinctParent_parent_beyond (fuel : nat) (parent pdg : list Z)
    (i : nat) (p s : Z) :
  parent !! i = Some p -> pdg !! i = Some s ->
  len pdg <= p ->
  ~ returns (_distinctParent_kernel (S fuel) parent pdg).
Proof.
  intros Hp Hs Hbeyond [out Hrun].
  unfold _distinctParent_kernel in Hrun. rewrite range_0_len in Hrun.
  assert (Hi : (i < length pdg)%nat) by (by eapply lookup_lt_Some).
  assert (Hsplit : seq 0 (length pdg) = seq 0 i ++ i :: seq (S i) (length pdg - S i)).
  { replace (length pdg) with (i + S (length pdg - S i))%nat at 1 by lia.
    by rewrite seq_app. }
  rewrite Hsplit, map_app, for_each_app in Hrun.
  apply bind_Done in Hrun as (out1 & _ & Hrun).
  cbn [map for_each] in Hrun. apply bind_Done in Hrun as (out2 & Hbody & _).
  unfold distinctParent_body in Hbody.
  rewrite (getitem_nat _ _ _ Hp) in Hbody. cbn in Hbody.
  pose proof (len_nonneg pdg).
  destruct (Z.ltb_spec p 0); [lia|].
  rewrite (getitem_nat _ _ _ Hs) in Hbody. cbn in Hbody.
  destruct (Z.geb_spec p 0); [|lia].
  rewrite (getitem_beyond pdg p Hbeyond) in Hbody. discriminate Hbody.
Qed.

Lemma distinctParent_parent_beyond_witness :
  ~ returns (_distinctParent_kernel 3 [-1; 5] [11; 11]).
Proof.
  apply (distinctParent_parent_beyond 2 [-1; 5] [11; 11] 1 5 11); [done|done|].
  unfold len. cbn. lia.
Defined.

(** ** counts2offsets and children *)

Lemma counts2offsets_array_valid (C : list Z) :
  Forall (fun c => 0 <= c) C -> zsum C <= int64_max ->
  valid_offsets (counts2offsets_array C) (zsum C).
Proof.
  intros HC Hsum. unfold valid_offsets, offset_at, counts2offsets_array.
  split_and!.
  - cbn. lia.
  - done.
  - cbn [length]. rewrite cumsum_length, Nat.sub_succ, Nat.sub_0_r.
    apply nth_lookup_Some. rewrite cumsum_last; [done|lia|done|lia].
  - intros r Hr. cbn [length] in Hr. rewrite cumsum_length in Hr.
    destruct (lookup_lt_is_Some_2 C r ltac:(lia)) as [c Hc].
    destruct (cumsum_steps 0 C ltac:(lia) HC ltac:(lia) r c Hc)
      as (a & b & Ha & Hb & Hab).
    rewrite (nth_lookup_Some _ _ 0 _ Ha), (nth_lookup_Some _ _ 0 _ Hb).
    rewrite Forall_forall in HC.
    specialize (HC c (list_elem_of_lookup_2 _ _ _ Hc)). lia.
Qed.

(** X11: the offsets computed by counts2offsets from the event sizes are valid
    for the children operation: for non-negative counts that add up to the
    number of particles, counts2offsets followed by children on the parent
    array returns one list of children per particle. *)
Theorem counts2offsets_then_children (d d' : dtype) (counts parents : list Z) :
  Forall (fun c => 0 <= c) counts ->
  zsum counts = len parents ->
  len parents <= int64_max ->
  exists kids,
    (stack ← counts2offsets [Flat d counts];
     children (stack ++ [Flat d' parents]))
    = Done [Jagged int64 kids] /\
    length kids = length parents.
Proof.
  intros Hc Hsum Hmax.
  unfold counts2offsets. rewrite pop_singleton. cbn.
  unfold children. unfold push. cbn.
  destruct (children_kernel_lists (counts2offsets_array counts) parents)
    as (b & Hrun & Hlen & _).
  { rewrite <- Hsum. apply counts2offsets_array_valid; [done|lia]. }
  rewrite Hrun. cbn. eauto.
Qed.

Lemma counts2offsets_then_children_witness :
  exists kids,
    (stack ← counts2offsets [Flat int32 [3; 1]];
     children (stack ++ [Flat int64 [-1; 0; 0; 3]]))
    = Done [Jagged int64 kids] /\
    length kids = 4%nat.
Proof.
  apply (counts2offsets_then_children int32 int64 [3; 1] [-1; 0; 0; 3]).
  - repeat constructor; lia.
  - reflexivity.
  - vm_compute. discriminate.
Defined.

(** ** More on local2global *)

(** X12: local2global refuses floats: when the index or the target offsets are
    a float buffer, the sum of the aligned operands is one too and the
    operation raises a RuntimeError. *)
Theorem local2global_float_operand (below : Stack) (d_index d_target : dtype)
    (L : list (list Z)) (T : list Z) :
  length T = S (length L) ->
  d_index = float64 \/ d_target = float64 ->
  local2global (below ++ [Jagged d_index L; Flat d_target T])
  = Raise (RuntimeError no_message).
Proof.
  intros HT Hd. unfold local2global.
  rewrite pop_push2. cbn. rewrite pop_push. cbn.
  unfold local2global_array, broadcast_events.
  rewrite decide_True by (by rewrite (bounds_length T (length L))). cbn.
  rewrite bool_decide_eq_true_2; [done|].
  destruct Hd as [-> | ->]; [done|by destruct d_index].
Qed.

Lemma local2global_float_operand_witness :
  local2global [Jagged float64 [[0; 1]]; Flat int64 [0; 2]]
  = Raise (RuntimeError no_message).
Proof.
  apply (local2global_float_operand [] float64 int64 [[0; 1]] [0; 2]);
    [reflexivity|by left].
Defined.

(** X13: every global index computed by local2global for event e is -1 or lies
    in the segment [T[e], T[e+1]) of the target. *)
Theorem local2global_within_segment (below : Stack) (d_index d_target : dtype)
    (L : list (list Z)) (T : list Z) :
  length T = S (length L) ->
  result_type d_index d_target = int64 ->
  no_overflow L T ->
  exists rows,
    local2global (below ++ [Jagged d_index L; Flat d_target T])
      = Done (below ++ [Flat int64 (concat rows)]) /\
    map length rows = map length L /\
    (forall e row, rows !! e = Some row ->
       Forall (fun g => g = -1 \/ nth e T 0 <= g < nth (S e) T 0) row).
Proof.
  intros HT Hd Hov.
  exists (imap (fun e row => map (local2global_claimed T e) row) L). split_and!.
  - unfold local2global. rewrite pop_push2. cbn. rewrite pop_push. cbn.
    unfold local2global_array. rewrite Hd.
    rewrite local2global_rows by (done || by apply no_overflow_in_int64). done.
  - apply list_eq. intros e. rewrite !list_lookup_fmap, list_lookup_imap.
    destruct (L !! e); cbn; [|done]. by rewrite length_map.
  - intros e row. rewrite list_lookup_imap.
    destruct (L !! e) as [l|]; cbn; [|done]. intros [= <-].
    apply Forall_fmap, Forall_true. intros x. cbn. unfold local2global_claimed.
    destruct (Z.leb_spec 0 x); cbn; [|by left].
    destruct (Z.ltb_spec x (nth (S e) T 0 - nth e T 0)); [right; lia|by left].
Qed.

Lemma local2global_within_segment_witness :
  exists rows,
    local2global [Jagged int32 [[0; 2; -1]; []; [1; 0]]; Flat int64 [0; 2; 2; 4]]
      = Done [Flat int64 (concat rows)] /\
    map length rows = [3; 0; 2]%nat.
Proof.
  destruct (local2global_within_segment [] int32 int64
              [[0; 2; -1]; []; [1; 0]] [0; 2; 2; 4]) as (rows & Hrun & Hlen & _).
  - reflexivity.
  - reflexivity.
  - unfold no_overflow, in_int64, int64_min, int64_max. repeat constructor; lia.
  - exists rows. split; [exact Hrun|exact Hlen].
Defined.

(** ** More on get_index_ranges *)

Lemma elem_of_concat {A} (x : A) (xss : list (list A)) :
  x ∈ concat xss <-> exists xs, x ∈ xs /\ xs ∈ xss.
Proof.
  rewrite list_elem_of_In, in_concat. split.
  - intros (xs & Hxs & Hx). exists xs. by rewrite !list_elem_of_In.
  - intros (xs & Hx & Hxs). exists xs. by rewrite <- !list_elem_of_In.
Qed.

Lemma pair_positions_inv bs es row :
  pair_positions bs es = Done row -> row = zip bs es /\ length bs = length es.
Proof.
  revert es row. induction bs as [|b bs IH]; intros [|e es] row; cbn; try done.
  - by intros [= <-].
  - intros Hrun. apply bind_Done in Hrun as (rest & Hrest & Hrun).
    injection Hrun as <-. apply IH in Hrest as [-> ->]. done.
Qed.

Lemma pair_events_inv begin end_ begin_end :
  pair_events begin end_ = Done begin_end ->
  begin_end = zip_with zip begin end_ /\ map length begin = map length end_.
Proof.
  revert end_ begin_end. induction begin as [|bs begin IH];
    intros [|es end_] begin_end; cbn; try done.
  - by intros [= <-].
  - intros Hrun. apply bind_Done in Hrun as (row & Hrow & Hrun).
    apply bind_Done in Hrun as (rest & Hrest & Hrun). injection Hrun as <-.
    apply pair_positions_inv in Hrow as [-> ->].
    apply IH in Hrest as [-> ->]. done.
Qed.

Lemma pair_events_Done begin end_ :
  map length begin = map length end_ ->
  pair_events begin end_ = Done (zip_with zip begin end_).
Proof.
  revert end_. induction begin as [|bs begin IH]; intros [|es end_]; cbn; try done.
  intros [= Hl Hls]. rewrite (IH _ Hls).
  assert (Hrow : pair_positions bs es = Done (zip bs es)).
  { clear -Hl. revert es Hl. induction bs as [|b bs IH]; intros [|e es]; cbn;
      try done. intros [= Hl]. by rewrite (IH _ Hl). }
  by rewrite Hrow.
Qed.

Lemma zip_lookup_events (begin end_ : list (list Z)) ev bs es j b e :
  begin !! ev = Some bs -> end_ !! ev = Some es ->
  bs !! j = Some b -> es !! j = Some e ->
  exists row, zip_with zip begin end_ !! ev = Some row /\ row !! j = Some (b, e).
Proof.
  intros Hbs Hes Hb He. exists (zip bs es). split.
  - rewrite lookup_zip_with, Hbs. cbn. by rewrite Hes.
  - rewrite lookup_zip_with, Hb. cbn. by rewrite He.
Qed.

Lemma zsum_zero_inv xs :
  Forall (fun x => 0 <= x) xs -> zsum xs = 0 -> Forall (fun x => x = 0) xs.
Proof.
  induction 1 as [|x xs Hx Hxs IH]; [constructor|].
  rewrite zsum_cons. pose proof (zsum_nonneg _ Hxs). intros Hsum.
  constructor; [lia|]. apply IH. lia.
Qed.

(** X14: for non-negative begin and end of one shape get_index_ranges returns
    one list per position of begin, and it loses no range other than
    [0, 1): the list at every position whose pair (begin, end) is not
    (0, 1) is begin..end-1. *)
Theorem get_index_ranges_nonnegative (begin end_ : list (list Z)) :
  map length begin = map length end_ ->
  Forall (Forall (fun x => 0 <= x)) begin ->
  Forall (Forall (fun x => 0 <= x)) end_ ->
  zsum (emitted_integers begin end_) <= int64_max ->
  exists result,
    get_index_ranges begin end_ = Done result /\
    map length result = map length begin /\
    (forall ev j bs es b e,
       begin !! ev = Some bs -> end_ !! ev = Some es ->
       bs !! j = Some b -> es !! j = Some e ->
       (b, e) <> (0, 1) ->
       exists row, result !! ev = Some row /\ row !! j = Some (range b e)).
Proof.
  intros Hshape Hbn Hen Hmax.
  assert (Hzip : map length (zip_with zip begin end_) = map length begin).
  { clear -Hshape. revert end_ Hshape.
    induction begin as [|bs begin IH]; intros [|es end_]; cbn; try done.
    intros [= Hl Hls]. rewrite (IH _ Hls). f_equal.
    rewrite length_zip_with. lia. }
  assert (Hnn : Forall (fun x => 0 <= x) (emitted_integers begin end_)).
  { apply Forall_forall. intros x Hx. unfold emitted_integers in Hx.
    apply elem_of_concat in Hx as (xs & Hx & Hxs).
    apply elem_of_concat in Hxs as (xss & Hxs & Hxss).
    unfold get_index_ranges_kernel in Hxss.
    apply list_elem_of_fmap in Hxss as (prs & -> & Hprs).
    apply list_elem_of_fmap in Hxs as ([b' e'] & -> & Hpr). cbn in Hx.
    apply elem_of_range in Hx.
    apply list_elem_of_lookup in Hprs as (ev' & Hev').
    apply lookup_zip_with_Some in Hev' as (bs' & es' & -> & Hbs' & Hes').
    apply list_elem_of_lookup in Hpr as (j' & Hj').
    apply lookup_zip_with_Some in Hj' as (b'' & e'' & [= <- <-] & Hb' & He').
    rewrite Forall_forall in Hbn.
    specialize (Hbn _ (list_elem_of_lookup_2 _ _ _ Hbs')).
    rewrite Forall_forall in Hbn.
    specialize (Hbn _ (list_elem_of_lookup_2 _ _ _ Hb')). lia. }
  unfold get_index_ranges. rewrite (pair_events_Done _ _ Hshape), bind_ret.
  unfold awkward_sum3. fold (emitted_integers begin end_).
  rewrite wrap64_id
    by (pose proof (zsum_nonneg _ Hnn); unfold in_int64, int64_min; lia).
  assert (Hpos : forall ev j bs es b e,
            begin !! ev = Some bs -> end_ !! ev = Some es ->
            bs !! j = Some b -> es !! j = Some e ->
            0 <= b /\ 0 <= e /\
            (forall x, x ∈ range b e -> x ∈ emitted_integers begin end_)).
  { intros ev j bs es b e Hbs Hes Hb He.
    destruct (zip_lookup_events _ _ _ _ _ _ _ _ Hbs Hes Hb He) as (pairs & Hev & Hj).
    split_and!.
    - rewrite Forall_forall in Hbn.
      specialize (Hbn _ (list_elem_of_lookup_2 _ _ _ Hbs)).
      rewrite Forall_forall in Hbn. by apply Hbn, (list_elem_of_lookup_2 _ j).
    - rewrite Forall_forall in Hen.
      specialize (Hen _ (list_elem_of_lookup_2 _ _ _ Hes)).
      rewrite Forall_forall in Hen. by apply Hen, (list_elem_of_lookup_2 _ j).
    - intros x Hx. unfold emitted_integers, get_index_ranges_kernel.
      apply elem_of_concat. exists (range b e). split; [done|].
      apply elem_of_concat.
      exists (map (fun be => range (fst be) (snd be)) pairs). split.
      + apply list_elem_of_fmap. exists (b, e). split; [done|].
        by eapply list_elem_of_lookup_2.
      + apply list_elem_of_fmap. exists pairs. split; [done|].
        by eapply list_elem_of_lookup_2. }
  destruct (Z.eqb_spec (zsum (emitted_integers begin end_)) 0) as [Hzero|Hnz];
    eexists; (split; [reflexivity|]); split.
  - rewrite <- Hzip, !map_map. apply map_ext. intros. by rewrite length_map.
  - intros ev j bs es b e Hbs Hes Hb He Hne.
    destruct (Hpos _ _ _ _ _ _ Hbs Hes Hb He) as (Hb0 & He0 & Hin).
    destruct (zip_lookup_events _ _ _ _ _ _ _ _ Hbs Hes Hb He) as (pairs & Hev & Hj).
    pose proof (zsum_zero_inv _ Hnn Hzero) as Hall. rewrite Forall_forall in Hall.
    assert (Hempty : e <= b).
    { destruct (Z.le_gt_cases e b) as [|Hlt]; [done|]. exfalso.
      assert (b = 0) by (apply Hall, Hin, elem_of_range; lia).
      destruct (decide (e = 1)) as [->|]; [by subst|].
      assert ((1 : Z) = 0) by (apply Hall, Hin, elem_of_range; lia). lia. }
    exists (map (fun be => negative_entries [fst be; snd be]) pairs). split.
    + by rewrite list_lookup_fmap, Hev.
    + rewrite list_lookup_fmap, Hj. cbn. rewrite range_nil by done.
      by rewrite !decide_False by lia.
  - unfold get_index_ranges_kernel.
    rewrite <- Hzip, !map_map. apply map_ext. intros. by rewrite length_map.
  - intros ev j bs es b e Hbs Hes Hb He Hne.
    destruct (zip_lookup_events _ _ _ _ _ _ _ _ Hbs Hes Hb He) as (pairs & Hev & Hj).
    exists (map (fun be => range (fst be) (snd be)) pairs). split.
    + unfold get_index_ranges_kernel. by rewrite list_lookup_fmap, Hev.
    + by rewrite list_lookup_fmap, Hj.
Qed.

Lemma get_index_ranges_nonnegative_witness :
  exists result,
    get_index_ranges [[0; 2]] [[2; 5]] = Done result /\
    map length result = [2%nat].
Proof.
  destruct (get_index_ranges_nonnegative [[0; 2]] [[2; 5]])
    as (result & Hrun & Hlen & _).
  - reflexivity.
  - repeat constructor; lia.
  - repeat constructor; lia.
  - vm_compute. discriminate.
  - exists result. split; [exact Hrun|exact Hlen].
Defined.

(** ** More on begin_end_mapping *)

Lemma negative_entries_nonneg xs :
  Forall (fun x => 0 <= x) xs -> negative_entries xs = [].
Proof.
  unfold negative_entries. induction 1 as [|x xs Hx _ IH]; [done|].
  rewrite filter_cons, decide_False by lia. done.
Qed.

Lemma range_nonneg b e : 0 <= b -> Forall (fun x => 0 <= x) (range b e).
Proof. intros Hb. apply Forall_forall. intros x Hx%elem_of_range. lia. Qed.

Lemma zip_events_nonneg (begin end_ : list (list Z)) :
  Forall (Forall (fun x => 0 <= x)) begin ->
  Forall (Forall (fun x => 0 <= x)) end_ ->
  Forall (Forall (fun be => 0 <= fst be /\ 0 <= snd be)) (zip_with zip begin end_).
Proof.
  intros Hb. revert end_. induction Hb as [|bs begin Hbs _ IH]; intros end_ He.
  - constructor.
  - destruct He as [|es end_ Hes He]; [constructor|]. cbn. constructor; [|by apply IH].
    clear -Hbs Hes. revert es Hes. induction Hbs as [|b bs Hb _ IH]; intros es Hes.
    + constructor.
    + destruct Hes as [|e es He Hes]; [constructor|]. cbn.
      constructor; [done|by apply IH].
Qed.

Lemma map_map_shape {A B} (f : A -> B) (xss : list (list A)) :
  map length (map (map f) xss) = map length xss.
Proof. rewrite map_map. apply map_ext. intros. apply length_map. Qed.

Lemma zip_events_shape (begin end_ : list (list Z)) :
  map length begin = map length end_ ->
  map length (zip_with zip begin end_) = map length begin.
Proof.
  revert end_. induction begin as [|bs begin IH]; intros [|es end_]; cbn; try done.
  intros [= Hl Hls]. rewrite (IH _ Hls). f_equal.
  rewrite length_zip_with. lia.
Qed.

Lemma all_nil_same_shape {A} (xss yss : list (list (list A))) :
  map length xss = map length yss ->
  Forall (Forall (fun xs => xs = [])) xss ->
  Forall (Forall (fun ys => ys = [])) yss ->
  xss = yss.
Proof.
  intros Hshape Hx. revert yss Hshape.
  induction Hx as [|xs xss Hxs _ IH]; intros [|ys yss]; try done.
  cbn. intros [= Hl Hls] Hy. apply Forall_cons in Hy as [Hys Hy].
  f_equal; [|by apply IH].
  clear -Hl Hxs Hys. revert ys Hl Hys.
  induction Hxs as [|x xs -> _ IH]; intros [|y ys]; try done.
  cbn. intros [= Hl] Hy. apply Forall_cons in Hy as [-> Hy]. f_equal. by apply IH.
Qed.

Lemma slice_range (f : Z -> Z) (t : list Z) (b e x0 : Z) :
  0 <= b -> e <= len t ->
  map (fun k => f (nth (Z.to_nat k) t x0)) (range b e) = map f (slice t b e).
Proof.
  intros Hb He. unfold slice, len in *. apply list_eq. intros i.
  rewrite !list_lookup_fmap.
  destruct (decide (i < Z.to_nat (e - b))%nat) as [Hi|Hi].
  - rewrite range_lookup by done. rewrite lookup_take_lt by done.
    rewrite lookup_drop. cbn.
    replace (Z.to_nat (b + Z.of_nat i)) with (Z.to_nat b + i)%nat by lia.
    destruct (lookup_lt_is_Some_2 t (Z.to_nat b + i)) as [x Hx]; [lia|].
    rewrite Hx. cbn. f_equal. f_equal. by apply nth_lookup_Some.
  - rewrite (proj2 (lookup_ge_None (range b e) i)) by (rewrite range_length; lia).
    rewrite lookup_take_ge by lia. done.
Qed.

Lemma get_index_ranges_nonneg_no_negatives (begin end_ : list (list Z)) :
  map length begin = map length end_ ->
  Forall (Forall (fun x => 0 <= x)) begin ->
  Forall (Forall (fun x => 0 <= x)) end_ ->
  exists indices,
    get_index_ranges begin end_ = Done indices /\
    map (map negative_entries) indices = map (map (fun _ => [])) begin.
Proof.
  intros Hshape Hb He.
  pose proof (zip_events_nonneg _ _ Hb He) as Hnn.
  unfold get_index_ranges. rewrite (pair_events_Done _ _ Hshape), bind_ret.
  destruct (awkward_sum3 _ =? 0); eexists; (split; [reflexivity|]).
  - apply all_nil_same_shape.
    + by rewrite !map_map_shape, zip_events_shape.
    + apply Forall_fmap, Forall_fmap. eapply Forall_impl; [exact Hnn|].
      intros row Hrow. apply Forall_fmap, Forall_fmap.
      eapply Forall_impl; [exact Hrow|]. intros [b e] [Hb0 He0].
      change (negative_entries (negative_entries [b; e]) = []).
      cbn [fst snd] in *.
      rewrite (negative_entries_nonneg [b; e]) by (repeat constructor; lia).
      done.
    + apply Forall_fmap, Forall_true. intros row. apply Forall_fmap, Forall_true.
      done.
  - apply all_nil_same_shape.
    + unfold get_index_ranges_kernel.
      by rewrite !map_map_shape, zip_events_shape.
    + unfold get_index_ranges_kernel.
      apply Forall_fmap, Forall_fmap. eapply Forall_impl; [exact Hnn|].
      intros row Hrow. apply Forall_fmap, Forall_fmap.
      eapply Forall_impl; [exact Hrow|]. intros [b e] [Hb0 He0].
      change (negative_entries (range b e) = []). cbn [fst snd] in *.
      by apply negative_entries_nonneg, range_nonneg.
    + apply Forall_fmap, Forall_true. intros row. apply Forall_fmap, Forall_true.
      done.
Qed.

Lemma map_each_pure {A B} (f : A -> outcome B) (g : A -> B) xs :
  Forall (fun x => f x = Done (g x)) xs -> map_each f xs = Done (map g xs).
Proof.
  induction 1 as [|x xs Hx _ IH]; [done|]. cbn [map_each map].
  by rewrite Hx, bind_ret, IH, bind_ret.
Qed.

Lemma zsum_elem x xs :
  Forall (fun y => 0 <= y) xs -> x ∈ xs -> x <= zsum xs.
Proof.
  induction 1 as [|y ys Hy Hys IH]; [by intros ?%elem_of_nil|].
  rewrite zsum_cons. pose proof (zsum_nonneg _ Hys).
  intros [->|Hx]%elem_of_cons; [lia|]. specialize (IH Hx). lia.
Qed.

Lemma zsum_pos_elem xs : 0 < zsum xs -> exists x, x ∈ xs /\ x <> 0.
Proof.
  induction xs as [|y ys IH]; [cbn; lia|]. rewrite zsum_cons. intros Hsum.
  destruct (decide (y = 0)) as [->|Hy].
  - destruct IH as (x & Hx & Hx0); [lia|]. exists x. split; [by right|done].
  - exists y. split; [by left|done].
Qed.

Lemma get_array_from_indices_kernel_slices (real : Z -> Z)
    (begin end_ tss : list (list Z)) :
  map length begin = map length end_ ->
  ranges_within begin end_ tss ->
  exists result,
    get_array_from_indices_kernel real
      (get_index_ranges_kernel (zip_with zip begin end_)) tss = Done result /\
    map length result = map length begin /\
    (forall ev j bs es t b e,
       begin !! ev = Some bs -> end_ !! ev = Some es -> tss !! ev = Some t ->
       bs !! j = Some b -> es !! j = Some e ->
       exists row, result !! ev = Some row /\
                   row !! j = Some (map real (slice t b e))).
Proof.
  intros Hshape Hin. unfold get_array_from_indices_kernel.
  unfold ranges_within in Hin.
  set (zipped := zip_with zip begin end_) in *.
  set (indices := get_index_ranges_kernel zipped).
  set (gather := fun (pairs : list (Z * Z)) (t : list Z) =>
         map (fun be => map real (slice t (fst be) (snd be))) pairs).
  set (g := fun i : Z =>
         match zipped !! Z.to_nat i, tss !! Z.to_nat i with
         | Some pairs, Some t => gather pairs t
         | _, _ => []
         end).
  set (body := fun ev : Z =>
         row ← getitem indices ev;
         map_each (fun ks =>
             map_each (fun k => t ← getitem tss ev; x ← getitem t k; Done (real x)) ks)
           row).
  assert (Hlen : length indices = length zipped).
  { unfold indices, get_index_ranges_kernel. by rewrite length_map. }
  assert (Hbody : forall ev pairs t,
            zipped !! ev = Some pairs -> tss !! ev = Some t ->
            body (Z.of_nat ev) = Done (gather pairs t)).
  { intros ev pairs t Hpairs Ht. unfold body.
    assert (Hrow : indices !! ev
                   = Some (map (fun be => range (fst be) (snd be)) pairs)).
    { unfold indices, get_index_ranges_kernel. by rewrite list_lookup_fmap, Hpairs. }
    rewrite (getitem_nat _ _ _ Hrow), bind_ret.
    pose proof (Forall2_lookup_lr _ _ _ _ _ _ Hin Hpairs Ht) as Hwithin.
    rewrite (map_each_pure _
               (fun ks => map (fun k => real (nth (Z.to_nat k) t 0)) ks)).
    - f_equal. unfold gather. rewrite map_map. apply map_ext_in.
      intros [b e] Hbe. cbn [fst snd].
      rewrite Forall_forall in Hwithin.
      destruct (Hwithin (b, e)) as [Hb He]; [by apply list_elem_of_In|].
      by apply slice_range.
    - apply Forall_fmap. eapply Forall_impl; [exact Hwithin|].
      intros [b e] [Hb He]. cbn [fst snd] in *.
      apply map_each_pure. apply Forall_forall. intros k Hk%elem_of_range.
      rewrite (getitem_nat _ _ _ Ht), bind_ret.
      destruct (lookup_lt_is_Some_2 t (Z.to_nat k)) as [x Hx];
        [unfold len in He; cbn [fst snd] in Hk; lia|].
      cbn [fst snd] in Hk.
      rewrite (getitem_Done t k x ltac:(lia) Hx), bind_ret.
      by rewrite (nth_lookup_Some _ _ _ _ Hx). }
  assert (Hrun : map_each body (range 0 (len indices))
                 = Done (map g (range 0 (len indices)))).
  { apply map_each_pure, Forall_forall. intros i Hi%elem_of_range.
    unfold len in Hi. rewrite Hlen in Hi.
    destruct (lookup_lt_is_Some_2 zipped (Z.to_nat i)) as [pairs Hpairs]; [lia|].
    destruct (lookup_lt_is_Some_2 tss (Z.to_nat i)) as [t Ht].
    { pose proof (Forall2_length _ _ _ Hin) as Hl2. lia. }
    unfold g. rewrite Hpairs, Ht.
    replace i with (Z.of_nat (Z.to_nat i)) at 1 by lia. by apply Hbody. }
  fold body. rewrite Hrun. eexists. split; [reflexivity|].
  assert (Hzl : length zipped = length begin).
  { unfold zipped. apply (f_equal length) in Hshape.
    rewrite !length_map in Hshape. rewrite length_zip_with. lia. }
  assert (Hev : forall ev pairs t,
            zipped !! ev = Some pairs -> tss !! ev = Some t ->
            map g (range 0 (len indices)) !! ev = Some (gather pairs t)).
  { intros ev pairs t Hpairs Ht. rewrite list_lookup_fmap.
    rewrite range_lookup_0
      by (unfold len; rewrite Hlen; apply lookup_lt_Some in Hpairs; lia).
    cbn. unfold g. by rewrite Nat2Z.id, Hpairs, Ht. }
  split.
  - apply list_eq. intros ev.
    rewrite (list_lookup_fmap length begin), (list_lookup_fmap length (map g _)).
    destruct (begin !! ev) as [bs|] eqn:Hbs.
    + destruct (lookup_lt_is_Some_2 end_ ev) as [es Hes].
      { apply lookup_lt_Some in Hbs. apply (f_equal length) in Hshape.
        rewrite !length_map in Hshape. lia. }
      destruct (lookup_lt_is_Some_2 tss ev) as [t Ht].
      { apply lookup_lt_Some in Hbs. rewrite <- (Forall2_length _ _ _ Hin). lia. }
      assert (Hpairs : zipped !! ev = Some (zip bs es)).
      { unfold zipped. rewrite lookup_zip_with, Hbs. cbn. by rewrite Hes. }
      rewrite (Hev _ _ _ Hpairs Ht). cbn. f_equal. unfold gather.
      rewrite length_map, length_zip_with.
      assert (length bs = length es); [|lia].
      assert (Hl : map length begin !! ev = map length end_ !! ev) by by rewrite Hshape.
      rewrite !list_lookup_fmap, Hbs, Hes in Hl. by injection Hl.
    + apply lookup_ge_None in Hbs.
      rewrite (proj2 (lookup_ge_None _ ev)); [done|].
      rewrite length_map, range_length. unfold len. rewrite Hlen. lia.
  - intros ev j bs es t b e Hbs Hes Ht Hb He.
    destruct (zip_lookup_events _ _ _ _ _ _ _ _ Hbs Hes Hb He) as (pairs & Hpairs & Hj).
    exists (gather pairs t). split; [by apply Hev|].
    unfold gather. by rewrite list_lookup_fmap, Hj.
Qed.

Section RangeMapper.
Context {lib : Library}.

(** X15: when no event of the target has an entry, begin_end_mapping with
    non-negative begin and end of one shape reads nothing from the target
    and pushes an empty list for every position of begin. *)
Theorem begin_end_mapping_empty_target (below : Stack) (d_begin d_end : dtype)
    (begin end_ : list (list Z)) (target : value) (counts : list Z) :
  map length begin = map length end_ ->
  Forall (Forall (fun x => 0 <= x)) begin ->
  Forall (Forall (fun x => 0 <= x)) end_ ->
  num_axis1 target = Done counts ->
  Forall (fun c => c = 0) counts ->
  exists d,
    begin_end_mapping (below ++ [Jagged d_begin begin; Jagged d_end end_; target])
    = Done (below ++ [Jagged2 d (map (map (fun _ => [])) begin)]).
Proof.
  intros Hshape Hb He Hcounts Hzero. exists int64.
  destruct (get_index_ranges_nonneg_no_negatives _ _ Hshape Hb He)
    as (indices & Hidx & Hneg).
  unfold begin_end_mapping.
  rewrite pop_push3, bind_ret, pop_push2, bind_ret, pop_push, bind_ret.
  cbn [as_jagged]. rewrite !bind_ret, Hidx, bind_ret, Hcounts, bind_ret.
  rewrite (zsum_zero _ Hzero). change (wrap64 0 =? 0) with true. cbv iota.
  rewrite bind_ret. unfold push, negative_indices. by rewrite Hneg.
Qed.

(** X16: begin_end_mapping gathers slices: for begin and end of one shape whose
    pairs denote slices of the target's events, and as soon as a non-zero
    index is emitted, position j of event ev of the result holds
    target[ev][begin:end], converted to float64. *)
Theorem begin_end_mapping_gathers_slices (below : Stack)
    (d_begin d_end d : dtype) (begin end_ tss : list (list Z)) :
  map length begin = map length end_ ->
  ranges_within begin end_ tss ->
  0 < zsum (emitted_integers begin end_) <= int64_max ->
  zsum (map len tss) <= int64_max ->
  zsum (map len begin) <= int64_max ->
  exists result,
    begin_end_mapping
      (below ++ [Jagged d_begin begin; Jagged d_end end_; Jagged d tss])
    = Done (below ++ [Jagged2 float64 result]) /\
    map length result = map length begin /\
    (forall ev j bs es t b e,
       begin !! ev = Some bs -> end_ !! ev = Some es -> tss !! ev = Some t ->
       bs !! j = Some b -> es !! j = Some e ->
       exists row, result !! ev = Some row /\
                   row !! j = Some (map (cast d float64) (slice t b e))).
Proof.
  intros Hshape Hin Hsum Htmax Hbmax.
  destruct (get_array_from_indices_kernel_slices (cast d float64) _ _ _ Hshape Hin)
    as (result & Hrun & Hres).
  exists result. split; [|exact Hres].
  (* a non-zero emitted index lies in a range of some event *)
  destruct (zsum_pos_elem _ (proj1 Hsum)) as (k & Hk & Hk0).
  unfold emitted_integers in Hk.
  apply elem_of_concat in Hk as (ks & Hk & Hks).
  apply elem_of_concat in Hks as (row & Hks & Hrow).
  unfold get_index_ranges_kernel in Hrow.
  apply list_elem_of_fmap in Hrow as (pairs & -> & Hpairs).
  apply list_elem_of_fmap in Hks as ([b e] & -> & Hbe). cbn [fst snd] in Hk.
  apply elem_of_range in Hk.
  apply list_elem_of_lookup in Hpairs as (ev & Hev).
  destruct (Forall2_lookup_l _ _ _ _ _ Hin Hev) as (t & Ht & Hwithin).
  rewrite Forall_forall in Hwithin. destruct (Hwithin _ Hbe) as [Hb He].
  cbn [fst snd] in *.
  apply lookup_zip_with_Some in Hev as (bs & es & -> & Hbs & Hes).
  assert (Htpos : 0 < zsum (map len tss)).
  { assert (len t <= zsum (map len tss)); [|lia].
    apply zsum_elem.
    - apply Forall_fmap, Forall_true. intros. apply len_nonneg.
    - apply list_elem_of_fmap. exists t. split; [done|]. by eapply list_elem_of_lookup_2. }
  assert (Hbpos : 0 < zsum (map len begin)).
  { assert (0 < len bs).
    { destruct bs; [|unfold len; cbn; lia]. by apply elem_of_nil in Hbe. }
    assert (len bs <= zsum (map len begin)); [|lia].
    apply zsum_elem.
    - apply Forall_fmap, Forall_true. intros. apply len_nonneg.
    - apply list_elem_of_fmap. exists bs. split; [done|]. by eapply list_elem_of_lookup_2. }
  unfold begin_end_mapping.
  rewrite pop_push3, bind_ret, pop_push2, bind_ret, pop_push, bind_ret.
  cbn [as_jagged]. rewrite !bind_ret.
  unfold get_index_ranges. rewrite (pair_events_Done _ _ Hshape), bind_ret.
  unfold awkward_sum3. fold (emitted_integers begin end_).
  rewrite wrap64_id by (unfold in_int64, int64_min; lia).
  destruct (Z.eqb_spec (zsum (emitted_integers begin end_)) 0) as [|_]; [lia|].
  rewrite bind_ret. cbn [num_axis1]. rewrite bind_ret.
  rewrite wrap64_id by (unfold in_int64, int64_min; lia).
  destruct (Z.eqb_spec (zsum (map len tss)) 0) as [|_]; [lia|].
  assert (Hpos : map len (get_index_ranges_kernel (zip_with zip begin end_))
                 = map len begin).
  { unfold len. rewrite <- !(map_map length Z.of_nat). f_equal.
    unfold get_index_ranges_kernel. by rewrite map_map_shape, zip_events_shape. }
  rewrite Hpos.
  rewrite wrap64_id by (unfold in_int64, int64_min; lia).
  destruct (Z.eqb_spec (zsum (map len begin)) 0) as [|_]; [lia|].
  cbn [get_array_from_indices]. rewrite Hrun. done.
Qed.

End RangeMapper.

Lemma begin_end_mapping_empty_target_witness :
  exists d,
    begin_end_mapping (lib := plain_library)
      [Jagged int32 [[0; 1]; []]; Jagged int32 [[2; 1]; []];
       Jagged float64 [[]; []]]
    = Done [Jagged2 d [[[]; []]; []]].
Proof.
  apply (begin_end_mapping_empty_target (lib := plain_library) [] int32 int32
           [[0; 1]; []] [[2; 1]; []] (Jagged float64 [[]; []]) [0; 0]).
  - reflexivity.
  - repeat constructor; lia.
  - repeat constructor; lia.
  - reflexivity.
  - repeat constructor.
Defined.

Lemma begin_end_mapping_gathers_slices_witness :
  exists result,
    begin_end_mapping (lib := plain_library)
      [Jagged int32 [[0; 1]; [1]]; Jagged int32 [[2; 1]; [2]];
       Jagged float64 [[10; 20; 30]; [40; 50]]]
    = Done [Jagged2 float64 result] /\
    map length result = [2; 1]%nat.
Proof.
  destruct (begin_end_mapping_gathers_slices (lib := plain_library) [] int32 int32
              float64 [[0; 1]; [1]] [[2; 1]; [2]] [[10; 20; 30]; [40; 50]])
    as (result & Hrun & Hlen & _).
  - reflexivity.
  - unfold ranges_within, len. cbn. repeat constructor; cbn; lia.
  - vm_compute. split; [reflexivity|discriminate].
  - vm_compute. discriminate.
  - vm_compute. discriminate.
  - exists result. split; [exact Hrun|exact Hlen].
Defined.

(** ** More on the form functions *)

Lemma require_inv b : require b = Done tt -> b = true.
Proof. by destruct b. Qed.

Section MoreFormKeys.
Variable concat : list string -> string.

(** X17: local2global_form returns its index form with three entries of the
    content rewritten: every other entry of the form and of its content is
    the one of the index form, the content's format among them. *)
Theorem local2global_form_frame (index target_offsets form : json) :
  local2global_form concat index target_offsets = Done form ->
  (forall k, k <> "content" -> getkey k form = getkey k index) /\
  (forall k, k <> "form_key" -> k <> "itemsize" -> k <> "primitive" ->
     getkey2 "content" k form = getkey2 "content" k index) /\
  getkey2 "content" "itemsize" form = Done (JInt 8) /\
  getkey2 "content" "primitive" form = Done (JStr "int64").
Proof.
  unfold local2global_form. intros Hrun.
  do 4 (apply bind_Done in Hrun as (? & _ & Hrun)).
  apply bind_Done in Hrun as (ki' & Hki & Hrun).
  apply bind_Done in Hrun as (kt' & Hkt & Hrun).
  apply bind_Done in Hrun as (key & Hkey & Hrun).
  apply bind_Done in Hrun as (form1 & Hform1 & Hrun).
  apply bind_Done in Hrun as (form2 & Hform2 & Hrun).
  split_and!.
  - intros k Hk.
    rewrite (getkey_setkey2_ne k _ _ _ _ _ Hrun) by done.
    rewrite (getkey_setkey2_ne k _ _ _ _ _ Hform2) by done.
    by rewrite (getkey_setkey2_ne k _ _ _ _ _ Hform1) by done.
  - intros k Hk1 Hk2 Hk3.
    rewrite (getkey2_setkey2_ne _ _ k _ _ _ Hrun) by done.
    rewrite (getkey2_setkey2_ne _ _ k _ _ _ Hform2) by done.
    by rewrite (getkey2_setkey2_ne _ _ k _ _ _ Hform1) by done.
  - rewrite (getkey2_setkey2_ne _ _ "itemsize" _ _ _ Hrun) by done.
    by eapply getkey2_setkey2.
  - by eapply getkey2_setkey2.
Qed.

(** X18: begin_end_mapping_form and begin_end_mapping_nested_target_form name
    the same operation in their keys: whenever the first returns on three
    forms so does the second, and both give the same key to the form, the
    key followed by one "!content" to its content and by two to the content
    of its content, although there the first form has a buffer and the
    second a list. *)
Theorem begin_end_mapping_forms_share_keys
    (begin_form end_form target_form form : json) :
  begin_end_mapping_form concat begin_form end_form target_form = Done form ->
  exists form' key,
    begin_end_mapping_nested_target_form concat begin_form end_form target_form
      = Done form' /\
    getkey "form_key" form = Done (JStr key) /\
    getkey "form_key" form' = Done (JStr key) /\
    getkey2 "content" "form_key" form = Done (JStr (concat [key; "!content"])) /\
    getkey2 "content" "form_key" form' = Done (JStr (concat [key; "!content"])) /\
    getkey3 "content" "content" "form_key" form
      = Done (JStr (concat [key; "!content"; "!content"])) /\
    getkey3 "content" "content" "form_key" form'
      = Done (JStr (concat [key; "!content"; "!content"])) /\
    getkey3 "content" "content" "class" form = Done (JStr "NumpyArray") /\
    getkey3 "content" "content" "class" form' = Done (JStr "ListOffsetArray").
Proof.
  unfold begin_end_mapping_form, begin_end_mapping_nested_target_form.
  intros Hrun.
  apply bind_Done in Hrun as (ok1 & Hg1 & Hrun).
  apply bind_Done in Hrun as ([] & ->%require_inv & Hrun).
  apply bind_Done in Hrun as (ok2 & Hg2 & Hrun).
  apply bind_Done in Hrun as ([] & ->%require_inv & Hrun).
  apply bind_Done in Hrun as (ok3 & Hg3 & Hrun).
  apply bind_Done in Hrun as ([] & ->%require_inv & Hrun).
  apply bind_Done in Hrun as (kb' & Hkb & Hrun).
  apply bind_Done in Hrun as (ke' & Hke & Hrun).
  apply bind_Done in Hrun as (kt' & Hkt & Hrun).
  apply bind_Done in Hrun as (key & Hkey & Hrun).
  rewrite Hg1, bind_ret. cbn [require]. rewrite bind_ret.
  rewrite Hg2, bind_ret. cbn [require]. rewrite bind_ret.
  rewrite Hg3, bind_ret. cbn [require]. rewrite bind_ret.
  rewrite Hkb, bind_ret, Hke, bind_ret, Hkt, bind_ret, Hkey, bind_ret.
  apply concat_keys_inv in Hkey as (strs & _ & ->).
  vm_compute in Hrun. injection Hrun as <-.
  eexists. exists (concat strs). split; [vm_compute; reflexivity|].
  split_and!; vm_compute; reflexivity.
Qed.

End MoreFormKeys.

Lemma local2global_form_frame_witness :
  exists form,
    local2global_form concat_tokens index_form offsets_form = Done form /\
    getkey "form_key" form = Done (JStr "idx") /\
    getkey2 "content" "format" form = Done (JStr "i") /\
    getkey2 "content" "primitive" form = Done (JStr "int64").
Proof.
  destruct (local2global_form concat_tokens index_form offsets_form)
    as [form| |] eqn:Hrun; [|by vm_compute in Hrun|by vm_compute in Hrun].
  exists form. split; [done|].
  destruct (local2global_form_frame concat_tokens index_form offsets_form form Hrun)
    as (Houter & Hcontent & _ & Hprim).
  split_and!.
  - by rewrite Houter.
  - by rewrite Hcontent.
  - exact Hprim.
Defined.

Lemma begin_end_mapping_forms_share_keys_witness :
  exists form form',
    begin_end_mapping_form concat_tokens index_form index_form target_form
      = Done form /\
    begin_end_mapping_nested_target_form concat_tokens index_form index_form
      target_form = Done form' /\
    getkey "form_key" form' = getkey "form_key" form.
Proof.
  destruct (begin_end_mapping_form concat_tokens index_form index_form target_form)
    as [form| |] eqn:Hrun; [|by vm_compute in Hrun|by vm_compute in Hrun].
  destruct (begin_end_mapping_forms_share_keys concat_tokens index_form index_form
              target_form form Hrun) as (form' & key & Hrun' & Hkey & Hkey' & _).
  exists form, form'. split_and!; [done|exact Hrun'|by rewrite Hkey, Hkey'].
Defined.

(** ** Examples of the specification *)

Example children_example :
  jagged_of <$> _children_kernel [0; 4] [-1; 0; 0; 1]
  = Done [[1; 2]; [3]; []; []].
Proof. reflexivity. Qed.

Example distinctParent_example :
  _distinctParent_kernel 4 [-1; 0; 1] [11; 11; 22] = Done [-1; -1; 1].
Proof. reflexivity. Qed.

Example deep_example :
  jagged_of <$> _distinctChildrenDeep_kernel [0; 5] [4; 0; 1; 1; -1] [11; 11; 22; 11; 33]
  = Done [[2; 3]; []; []; []; []].
Proof. reflexivity. Qed.

Example get_index_ranges_2_5 : get_index_ranges [[2]] [[5]] = Done [[[2; 3; 4]]].
Proof. reflexivity. Qed.

Example get_index_ranges_3_3 : get_index_ranges [[3]] [[3]] = Done [[[]]].
Proof. reflexivity. Qed.
